(** * tiny_compiler: expression to LLVM IR

    A shallow embedding of [tiny_comp/tiny_compiler.py] (lexer, recursive
    descent parser, textual IR generator, [compile_to_ir], [main]) and the
    properties of its specification that were checked against it.

    Conventions of the embedding.
    - A Python [str] is a Rocq [string]; a character is an [ascii] read as
      the code point of the same number, so the model covers source texts
      over U+0000..U+00FF.  [isspace] and [isdigit] are CPython's
      [str.isspace] / [str.isdigit] on that range.
    - Python integers are [Z] (unbounded); the register counter is a [nat].
    - The object state of [Lexer], [Parser] and [IRGen] is passed
      explicitly.  An exception is the [Raise] result.  The lexer returns
      its state next to the result, since the object is mutated before a
      [raise]; the parser and the generator abort the whole compilation,
      so their state is dropped on [Raise].
    - The [while] loops of the lexer run on a bound computed from the text;
      the mutually recursive parser methods run on fuel, and
      [Parser.parse] supplies an amount that is proved sufficient for
      every text ([parse_never_out_of_fuel]).  The interpreter's recursion
      limit and its limit on the length of a decimal literal accepted by
      [int] are not modelled. *)

From Stdlib Require Import String Ascii List ZArith Arith Bool Lia.
From Stdlib Require Import DecimalString DecimalZ DecimalNat.
Import ListNotations.

#[local] Open Scope list_scope.
#[local] Open Scope string_scope.
#[local] Open Scope nat_scope.

(** ** Exceptions and results *)

(** [Token.type]: the string tags ['EOF'], ['NUMBER'], ... of the source. *)
Inductive token_type : Type :=
  | EOF | NUMBER | PLUS | MINUS | MUL | DIV | LPAREN | RPAREN.

Definition token_type_eqb (a b : token_type) : bool :=
  match a, b with
  | EOF, EOF | NUMBER, NUMBER | PLUS, PLUS | MINUS, MINUS
  | MUL, MUL | DIV, DIV | LPAREN, LPAREN | RPAREN, RPAREN => true
  | _, _ => false
  end.

(** [Token(type_, value=None)]: the lexer builds ['NUMBER'] tokens with
    an integer value and the seven other kinds without one, so a token is
    the tagged union below and [type] reads its tag. *)
Inductive Token : Type :=
  | TEOF
  | TNUMBER (value : Z)
  | TPLUS | TMINUS | TMUL | TDIV | TLPAREN | TRPAREN.

Definition type (t : Token) : token_type :=
  match t with
  | TEOF => EOF
  | TNUMBER _ => NUMBER
  | TPLUS => PLUS
  | TMINUS => MINUS
  | TMUL => MUL
  | TDIV => DIV
  | TLPAREN => LPAREN
  | TRPAREN => RPAREN
  end.

(** The arguments of the four [SyntaxError]s the source raises. *)
Inductive syntax_error : Type :=
  | UnexpectedCharacter (c : ascii)                (* lexer, line 73 *)
  | ExpectedToken (t : token_type) (got : Token)   (* Parser.eat *)
  | TrailingInput                                  (* Parser.parse *)
  | UnexpectedToken (tok : Token).                 (* Parser.factor *)

Inductive exn : Type :=
  | SyntaxError (e : syntax_error)
  | ValueError (msg : string)      (* int(s) on a bad literal; IRGen.gen *)
  | KeyError (k : token_type).     (* opmap[node.op] *)

(** The exception class, as an [except] clause sees it. *)
Inductive exn_class : Type := SyntaxErrorClass | ValueErrorClass | KeyErrorClass.

Definition class_of (e : exn) : exn_class :=
  match e with
  | SyntaxError _ => SyntaxErrorClass
  | ValueError _ => ValueErrorClass
  | KeyError _ => KeyErrorClass
  end.

Inductive result (A : Type) : Type :=
  | Ok (a : A)
  | Raise (e : exn)
  | OutOfFuel.

Arguments Ok {A} a.
Arguments Raise {A} e.
Arguments OutOfFuel {A}.

Definition bind {A B : Type} (c : result A) (k : A -> result B) : result B :=
  match c with
  | Ok a => k a
  | Raise e => Raise e
  | OutOfFuel => OutOfFuel
  end.

Declare Scope result_scope.
Delimit Scope result_scope with result.
Notation "x <- c ;; k" := (bind c (fun x => k))
  (at level 61, c at next level, right associativity) : result_scope.
Notation "' p <- c ;; k" := (bind c (fun p => k))
  (at level 61, p pattern, c at next level, right associativity) : result_scope.
#[local] Open Scope result_scope.

(** ** Characters and decimal literals *)

Definition code (c : ascii) : nat := nat_of_ascii c.

Definition between (lo hi n : nat) : bool := (lo <=? n) && (n <=? hi).

(** [c.isspace()]: TAB..CR, FS..US, SPACE, NEL, NBSP. *)
Definition isspace (c : ascii) : bool :=
  between 9 13 (code c) || between 28 32 (code c)
  || (code c =? 133) || (code c =? 160).

(** [c.isdigit()]: '0'..'9' and the superscripts U+00B2, U+00B3, U+00B9. *)
Definition isdigit (c : ascii) : bool :=
  between 48 57 (code c)
  || (code c =? 178) || (code c =? 179) || (code c =? 185).

(** [s.isdigit()] on a string: at least one character, all of them digits. *)
Fixpoint all_digits (s : string) : bool :=
  match s with
  | EmptyString => true
  | String c s' => isdigit c && all_digits s'
  end.

Definition str_isdigit (s : string) : bool :=
  match s with
  | EmptyString => false
  | _ => all_digits s
  end.

(** [s.lstrip('-')] *)
Fixpoint lstrip_minus (s : string) : string :=
  match s with
  | String "-" s' => lstrip_minus s'
  | _ => s
  end.

(** [str(n)] for an integer. *)
Definition str (n : Z) : string := NilZero.string_of_int (Z.to_int n).

(** [int(s)]: [None] is [ValueError].  Exact on the strings this program
    passes to it: runs of [isdigit] characters (the superscripts are
    digits for [isdigit] and rejected by [int]) and the results of [str]. *)
Definition int (s : string) : option Z :=
  option_map Z.of_int (NilZero.int_of_string s).

(** ** Lexer *)

Module Lexer.

Record t : Type := mk { text : string; pos : nat; current : option ascii }.

(** [Lexer.__init__] *)
Definition init (text : string) : t :=
  mk text 0 (match text with EmptyString => None | _ => String.get 0 text end).

Definition advance (self : t) : t :=
  let pos' := pos self + 1 in
  mk (text self) pos'
     (if pos' <? String.length (text self) then String.get pos' (text self) else None).

(** The characters not yet consumed bound the iterations of both loops:
    after the first [advance], [current] is read from [text] at [pos]. *)
Definition loop_bound (self : t) : nat := S (String.length (text self) - pos self).

Fixpoint skip_ws_loop (n : nat) (self : t) : t :=
  match n with
  | O => self
  | S n' =>
      match current self with
      | Some c => if isspace c then skip_ws_loop n' (advance self) else self
      | None => self
      end
  end.

Definition skip_ws (self : t) : t := skip_ws_loop (loop_bound self) self.

Fixpoint integer_loop (n : nat) (s : string) (self : t) : string * t :=
  match n with
  | O => (s, self)
  | S n' =>
      match current self with
      | Some c =>
          if isdigit c
          then integer_loop n' (s ++ String c "") (advance self)
          else (s, self)
      | None => (s, self)
      end
  end.

Definition integer (self : t) : result Z * t :=
  let '(s, self') := integer_loop (loop_bound self) "" self in
  match int s with
  | Some n => (Ok n, self')
  | None => (Raise (ValueError s), self')
  end.

Definition get_next_token (self : t) : result Token * t :=
  let self := skip_ws self in
  match current self with
  | None => (Ok TEOF, self)
  | Some c =>
      if isdigit c then
        let '(r, self') := integer self in
        (n <- r ;; Ok (TNUMBER n), self')
      else if Ascii.eqb c "+" then (Ok TPLUS, advance self)
      else if Ascii.eqb c "-" then (Ok TMINUS, advance self)
      else if Ascii.eqb c "*" then (Ok TMUL, advance self)
      else if Ascii.eqb c "/" then (Ok TDIV, advance self)
      else if Ascii.eqb c "(" then (Ok TLPAREN, advance self)
      else if Ascii.eqb c ")" then (Ok TRPAREN, advance self)
      else (Raise (SyntaxError (UnexpectedCharacter c)), self)
  end.

End Lexer.

(** ** AST *)

Inductive AST : Type :=
  | Number (value : Z)
  | BinOp (op : token_type) (left right : AST)
  | UnaryOp (op : token_type) (expr : AST).

(** ** Parser (recursive descent) *)

Module Parser.

Record t : Type := mk { lexer : Lexer.t; current : Token }.

(** [Parser.__init__]: the first token is read at construction. *)
Definition init (text : string) : result t :=
  let '(r, lx) := Lexer.get_next_token (Lexer.init text) in
  tok <- r ;; Ok (mk lx tok).

Definition eat (ty : token_type) (self : t) : result t :=
  if token_type_eqb (type (current self)) ty then
    let '(r, lx) := Lexer.get_next_token (lexer self) in
    tok <- r ;; Ok (mk lx tok)
  else Raise (SyntaxError (ExpectedToken ty (current self))).

Definition is_addop (ty : token_type) : bool :=
  match ty with PLUS | MINUS => true | _ => false end.

Definition is_mulop (ty : token_type) : bool :=
  match ty with MUL | DIV => true | _ => false end.

(** [expr], [term] and [factor]; [expr_loop] and [term_loop] are the
    [while] loops of [expr] and [term], [node] being the loop variable.
    Every call, and every loop iteration, takes one unit of fuel. *)
Fixpoint expr (fuel : nat) (self : t) : result (AST * t) :=
  match fuel with
  | O => OutOfFuel
  | S fuel =>
      '(node, self) <- term fuel self ;;
      expr_loop fuel node self
  end

with expr_loop (fuel : nat) (node : AST) (self : t) : result (AST * t) :=
  match fuel with
  | O => OutOfFuel
  | S fuel =>
      if is_addop (type (current self)) then
        let op := type (current self) in
        self <- eat op self ;;
        '(rhs, self) <- term fuel self ;;
        expr_loop fuel (BinOp op node rhs) self
      else Ok (node, self)
  end

with term (fuel : nat) (self : t) : result (AST * t) :=
  match fuel with
  | O => OutOfFuel
  | S fuel =>
      '(node, self) <- factor fuel self ;;
      term_loop fuel node self
  end

with term_loop (fuel : nat) (node : AST) (self : t) : result (AST * t) :=
  match fuel with
  | O => OutOfFuel
  | S fuel =>
      if is_mulop (type (current self)) then
        let op := type (current self) in
        self <- eat op self ;;
        '(rhs, self) <- factor fuel self ;;
        term_loop fuel (BinOp op node rhs) self
      else Ok (node, self)
  end

with factor (fuel : nat) (self : t) : result (AST * t) :=
  match fuel with
  | O => OutOfFuel
  | S fuel =>
      let tok := current self in
      match tok with
      | TPLUS =>
          self <- eat PLUS self ;;
          '(e, self) <- factor fuel self ;;
          Ok (UnaryOp PLUS e, self)
      | TMINUS =>
          self <- eat MINUS self ;;
          '(e, self) <- factor fuel self ;;
          Ok (UnaryOp MINUS e, self)
      | TNUMBER value =>
          self <- eat NUMBER self ;;
          Ok (Number value, self)
      | TLPAREN =>
          self <- eat LPAREN self ;;
          '(node, self) <- expr fuel self ;;
          self <- eat RPAREN self ;;
          Ok (node, self)
      | _ => Raise (SyntaxError (UnexpectedToken tok))
      end
  end.

(** What is left to read: the characters behind the lexer's position
    and the lookahead token unless it is [EOF]. *)
Definition size (self : t) : nat :=
  (String.length (Lexer.text (lexer self)) - Lexer.pos (lexer self))
  + (if token_type_eqb (type (current self)) EOF then 0 else 1).

Definition enough (self : t) : nat := 3 * size self + 3.

Definition parse (self : t) : result AST :=
  '(node, self') <- expr (enough self) self ;;
  if token_type_eqb (type (current self')) EOF then Ok node
  else Raise (SyntaxError TrailingInput).

End Parser.

(** ** LLVM IR generator (textual) *)

(** ['\n'] and the double quote of the format-string line. *)
Definition nl : string := String "010" EmptyString.
Definition dquote : string := String "034" EmptyString.

(** [out.append(x)] and [out.extend(xs)] on a Python list. *)
Definition append {A : Type} (out : list A) (x : A) : list A := (out ++ [x])%list.
Definition extend {A : Type} (out xs : list A) : list A := (out ++ xs)%list.

Module IRGen.

Record t : Type := mk { lines : list string; reg : nat; print_result : bool }.

(** [IRGen.__init__] *)
Definition init (print_result : bool) : t := mk [] 0 print_result.

Definition newreg (self : t) : string * t :=
  let reg' := reg self + 1 in
  ("%t" ++ str (Z.of_nat reg'), mk (lines self) reg' (print_result self)).

Definition emit_bin (op a b : string) (self : t) : string * t :=
  let '(r, self) := newreg self in
  (r, mk (append (lines self) ("  " ++ r ++ " = " ++ op ++ " i64 " ++ a ++ ", " ++ b))
         (reg self) (print_result self)).

(** [{'PLUS':'add','MINUS':'sub','MUL':'mul','DIV':'sdiv'}]; a missing
    key is a [KeyError]. *)
Definition opmap (op : token_type) : result string :=
  match op with
  | PLUS => Ok "add"
  | MINUS => Ok "sub"
  | MUL => Ok "mul"
  | DIV => Ok "sdiv"
  | _ => Raise (KeyError op)
  end.

(** [v.lstrip('-').isdigit()]: the test that tells an immediate from a
    register name. *)
Definition is_immediate (v : string) : bool := str_isdigit (lstrip_minus v).

Fixpoint gen (node : AST) (self : t) : result (string * t) :=
  match node with
  | Number value => Ok (str value, self)
  | UnaryOp op expr =>
      '(v, self) <- gen expr self ;;
      match op with
      | PLUS => Ok (v, self)
      | MINUS =>
          (* If immediate, fold; otherwise 0 - v *)
          if is_immediate v then
            match int v with
            | Some n => Ok (str (- n), self)
            | None => Raise (ValueError v)
            end
          else Ok (emit_bin "sub" "0" v self)
      | _ => Raise (ValueError "Unknown unary op")
      end
  | BinOp op lhs rhs =>
      '(a, self) <- gen lhs self ;;
      '(b, self) <- gen rhs self ;;
      o <- opmap op ;;
      Ok (emit_bin o a b self)
  end.

(** The end of the function body in exit-code mode: the lines appended
    after [self.lines] when [print_result] is false. *)
Definition ret_lines (result_val : string) (self : t) : result (list string) :=
  if is_immediate result_val then
    match int result_val with
    | None => Raise (ValueError result_val)
    | Some val =>
        if ((val <? - 2 ^ 31) || (val >=? 2 ^ 31))%Z then
          let '(r64, self) := newreg self in
          let '(r32, self) := newreg self in
          Ok [ "  " ++ r64 ++ " = add i64 0, " ++ str val;
               "  " ++ r32 ++ " = trunc i64 " ++ r64 ++ " to i32";
               "  ret i32 " ++ r32 ]
        else Ok [ "  ret i32 " ++ str val ]
    end
  else
    let '(r32, self) := newreg self in
    Ok [ "  " ++ r32 ++ " = trunc i64 " ++ result_val ++ " to i32";
         "  ret i32 " ++ r32 ].

(** The same in print mode. *)
Definition print_lines (result_val : string) : list string :=
  [ "  %fmtptr = getelementptr inbounds [6 x i8], [6 x i8]* @.fmt, i64 0, i64 0";
    "  call i32 (i8*, ...) @printf(i8* %fmtptr, i64 " ++ result_val ++ ")";
    "  ret i32 0" ].

(** The list [out] of [build_module], as it is joined by ['\n']. *)
Definition out_lines (result_val : string) (self : t) : result (list string) :=
  let out := [] in
  let out := append out "; ModuleID = 'tinyexpr'" in
  let out :=
    if print_result self then
      let out := append out ("declare i32 @printf(i8*, ...)" ++ nl) in
      append out ("@.fmt = private unnamed_addr constant [6 x i8] c" ++ dquote
                  ++ "%lld\0A\00" ++ dquote ++ nl)
    else out in
  let out := append out "define i32 @main() {" in
  let out := append out "entry:" in
  let out := extend out (lines self) in
  tail <- (if print_result self then Ok (print_lines result_val)
           else ret_lines result_val self) ;;
  let out := extend out tail in
  Ok (append out "}").

Definition build_module (expr_ast : AST) (self : t) : result string :=
  '(result_val, self) <- gen expr_ast self ;;
  out <- out_lines result_val self ;;
  Ok (String.concat nl out).

End IRGen.

Definition compile_to_ir (expr_text : string) (print_result : bool) : result string :=
  parser <- Parser.init expr_text ;;
  ast <- Parser.parse parser ;;
  IRGen.build_module ast (IRGen.init print_result).

(** The text of a [SyntaxError]: the f-strings of the four [raise]
    statements; [repr_token] is [Token.__repr__]. *)
Definition type_name (ty : token_type) : string :=
  match ty with
  | EOF => "EOF" | NUMBER => "NUMBER" | PLUS => "PLUS" | MINUS => "MINUS"
  | MUL => "MUL" | DIV => "DIV" | LPAREN => "LPAREN" | RPAREN => "RPAREN"
  end.

Definition repr_token (tok : Token) : string :=
  "Token(" ++ type_name (type tok) ++ ", "
  ++ match tok with TNUMBER v => str v | _ => "None" end ++ ")".

Definition message (e : syntax_error) : string :=
  match e with
  | UnexpectedCharacter c => "Unexpected character: " ++ String c ""
  | ExpectedToken ty got =>
      "Expected token " ++ type_name ty ++ ", got " ++ repr_token got
  | TrailingInput => "Trailing input after expression"
  | UnexpectedToken tok => "Unexpected token: " ++ repr_token tok
  end.

(** ** Notions used by the statements *)

(** *** Repeated calls of the lexer *)

(** The lexer object after [n] calls of [get_next_token], and the result
    of the next call. *)
Fixpoint calls (n : nat) (lx : Lexer.t) : Lexer.t :=
  match n with
  | O => lx
  | S n' => calls n' (snd (Lexer.get_next_token lx))
  end.

Definition nth_call (n : nat) (lx : Lexer.t) : result Token :=
  fst (Lexer.get_next_token (calls n lx)).

(** The tokens before ['EOF'], when every call up to it succeeds; the
    number of calls [tokenize] allows is enough for every text
    ([tokenize_none]). *)
Fixpoint tokens_loop (n : nat) (lx : Lexer.t) : option (list Token) :=
  match n with
  | O => None
  | S n' =>
      match Lexer.get_next_token lx with
      | (Ok TEOF, _) => Some []
      | (Ok tok, lx') => option_map (cons tok) (tokens_loop n' lx')
      | _ => None
      end
  end.

Definition tokenize (text : string) : option (list Token) :=
  tokens_loop (S (String.length text)) (Lexer.init text).

(** The characters [get_next_token] has a branch for. *)
Definition is_punct (c : ascii) : bool :=
  Ascii.eqb c "+" || Ascii.eqb c "-" || Ascii.eqb c "*" || Ascii.eqb c "/"
  || Ascii.eqb c "(" || Ascii.eqb c ")".

Definition known_char (c : ascii) : bool := isspace c || isdigit c || is_punct c.

Fixpoint all_chars (f : ascii -> bool) (s : string) : bool :=
  match s with
  | EmptyString => true
  | String c s' => f c && all_chars f s'
  end.

(** *** The grammar of section 4.2

    [expr := term (('+'|'-') term)*], [term := factor (('*'|'/') factor)*],
    [factor := NUMBER | '(' expr ')' | ('+'|'-') factor], over token lists,
    with the tree each derivation stands for: the repetitions associate to
    the left. *)
Inductive GExpr : list Token -> AST -> Prop :=
  | GExpr_term ts a : GTerm ts a -> GExpr ts a
  | GExpr_more ts1 a t ts2 b :
      GExpr ts1 a -> Parser.is_addop (type t) = true -> GTerm ts2 b ->
      GExpr (ts1 ++ t :: ts2) (BinOp (type t) a b)
with GTerm : list Token -> AST -> Prop :=
  | GTerm_factor ts a : GFactor ts a -> GTerm ts a
  | GTerm_more ts1 a t ts2 b :
      GTerm ts1 a -> Parser.is_mulop (type t) = true -> GFactor ts2 b ->
      GTerm (ts1 ++ t :: ts2) (BinOp (type t) a b)
with GFactor : list Token -> AST -> Prop :=
  | GFactor_number n : GFactor [TNUMBER n] (Number n)
  | GFactor_paren ts a :
      GExpr ts a -> GFactor (TLPAREN :: ts ++ [TRPAREN]) a
  | GFactor_unary t ts a :
      Parser.is_addop (type t) = true -> GFactor ts a ->
      GFactor (t :: ts) (UnaryOp (type t) a).

Scheme GExpr_mind := Minimality for GExpr Sort Prop
  with GTerm_mind := Minimality for GTerm Sort Prop
  with GFactor_mind := Minimality for GFactor Sort Prop.
Combined Scheme grammar_mutind from GExpr_mind, GTerm_mind, GFactor_mind.

(** A syntactically valid expression: the lexer turns the whole text into
    tokens, and [expr] derives them with nothing left over. *)
Definition valid_expression (text : string) : Prop :=
  exists ts a, tokenize text = Some ts /\ GExpr ts a.

(** The parser reads [ts]: each token in turn is the lookahead and is
    consumed by [eat]. *)
Inductive reads : Parser.t -> list Token -> Parser.t -> Prop :=
  | reads_nil p : reads p [] p
  | reads_cons p t ts q r :
      Parser.current p = t -> Parser.eat (type t) p = Ok q ->
      reads q ts r -> reads p (t :: ts) r.

(** *** Shapes of trees *)

(** The operators the parser puts into a tree. *)
Fixpoint wf_ast (a : AST) : bool :=
  match a with
  | Number _ => true
  | UnaryOp op e => Parser.is_addop op && wf_ast e
  | BinOp op l r =>
      (Parser.is_addop op || Parser.is_mulop op) && wf_ast l && wf_ast r
  end.

Fixpoint has_binop (a : AST) : bool :=
  match a with
  | Number _ => false
  | UnaryOp _ e => has_binop e
  | BinOp _ _ _ => true
  end.

Fixpoint count_binop (a : AST) : nat :=
  match a with
  | Number _ => 0
  | UnaryOp _ e => count_binop e
  | BinOp _ l r => 1 + count_binop l + count_binop r
  end.

(** Unary minus nodes over an operand that holds a binary node. *)
Fixpoint count_neg_reg (a : AST) : nat :=
  match a with
  | Number _ => 0
  | UnaryOp op e =>
      (if token_type_eqb op MINUS && has_binop e then 1 else 0) + count_neg_reg e
  | BinOp _ l r => count_neg_reg l + count_neg_reg r
  end.

(** The value of a tree of unary operators over a literal. *)
Fixpoint const_value (a : AST) : Z :=
  match a with
  | Number n => n
  | UnaryOp MINUS e => (- const_value e)%Z
  | UnaryOp _ e => const_value e
  | BinOp _ _ _ => 0%Z
  end.

(** *** Reading the emitted text

    The instruction shapes of the function body, the line each one is
    printed as, and their LLVM meaning: 64-bit two's complement [add],
    [sub], [mul], [sdiv] truncating towards zero and undefined on a zero
    divisor or on overflow, [trunc] to 32 bits.  A literal is read at the
    width of its type. *)
Module IR.

Inductive instr : Type :=
  | Bin (dst op a b : string)     (* "  dst = op i64 a, b" *)
  | Trunc (dst src : string)      (* "  dst = trunc i64 src to i32" *)
  | Ret (v : string)              (* "  ret i32 v" *)
  | FmtPtr                        (* "  %fmtptr = getelementptr ..." *)
  | Call (v : string).            (* "  call i32 (i8*, ...) @printf(..., i64 v)" *)

Definition render (i : instr) : string :=
  match i with
  | Bin dst op a b => "  " ++ dst ++ " = " ++ op ++ " i64 " ++ a ++ ", " ++ b
  | Trunc dst src => "  " ++ dst ++ " = trunc i64 " ++ src ++ " to i32"
  | Ret v => "  ret i32 " ++ v
  | FmtPtr =>
      "  %fmtptr = getelementptr inbounds [6 x i8], [6 x i8]* @.fmt, i64 0, i64 0"
  | Call v => "  call i32 (i8*, ...) @printf(i8* %fmtptr, i64 " ++ v ++ ")"
  end.

Definition regname (n : nat) : string := "%t" ++ str (Z.of_nat n).

(** The register an instruction defines and the operands it reads. *)
Definition def (i : instr) : list string :=
  match i with
  | Bin dst _ _ _ | Trunc dst _ => [dst]
  | FmtPtr => ["%fmtptr"]
  | Ret _ | Call _ => []
  end.

Definition uses (i : instr) : list string :=
  match i with
  | Bin _ _ a b => [a; b]
  | Trunc _ src => [src]
  | Ret v => [v]
  | FmtPtr => []
  | Call v => ["%fmtptr"; v]
  end.

Definition mem (x : string) (l : list string) : bool :=
  existsb (String.eqb x) l.

(** Every operand is an immediate or a register defined by an earlier
    instruction of the sequence ([defined] holds those defined so far). *)
Fixpoint defined_before_use (defined : list string) (prog : list instr) : bool :=
  match prog with
  | [] => true
  | i :: rest =>
      forallb (fun o => IRGen.is_immediate o || mem o defined) (uses i)
      && defined_before_use (def i ++ defined)%list rest
  end.

Definition wrap (bits : Z) (n : Z) : Z :=
  ((n + 2 ^ (bits - 1)) mod 2 ^ bits - 2 ^ (bits - 1))%Z.

Definition env : Type := list (string * Z).

Fixpoint lookup (x : string) (e : env) : option Z :=
  match e with
  | [] => None
  | (y, v) :: e' => if String.eqb x y then Some v else lookup x e'
  end.

Definition operand (bits : Z) (e : env) (o : string) : option Z :=
  if IRGen.is_immediate o then option_map (wrap bits) (int o) else lookup o e.

Definition arith (op : string) (x y : Z) : option Z :=
  if String.eqb op "add" then Some (wrap 64 (x + y))
  else if String.eqb op "sub" then Some (wrap 64 (x - y))
  else if String.eqb op "mul" then Some (wrap 64 (x * y))
  else if String.eqb op "sdiv" then
    if (y =? 0)%Z || ((x =? - 2 ^ 63)%Z && (y =? -1)%Z) then None
    else Some (Z.quot x y)
  else None.

(** Runs the instructions up to the first [ret] and gives the value it
    returns; [None] when there is no [ret], an operand is not defined
    or a division faults. *)
Fixpoint run (e : env) (prog : list instr) : option Z :=
  match prog with
  | [] => None
  | Bin dst op a b :: rest =>
      match operand 64 e a, operand 64 e b with
      | Some x, Some y =>
          match arith op x y with
          | Some v => run ((dst, v) :: e) rest
          | None => None
          end
      | _, _ => None
      end
  | Trunc dst src :: rest =>
      match operand 64 e src with
      | Some x => run ((dst, wrap 32 x) :: e) rest
      | None => None
      end
  | Ret v :: _ => operand 32 e v
  | FmtPtr :: rest => run e rest
  | Call _ :: rest => run e rest
  end.

(** The value of operand [v] after the instructions of [prog]: what the
    [call] of print mode passes on. *)
Fixpoint value_after (e : env) (prog : list instr) (v : string) : option Z :=
  match prog with
  | [] => operand 64 e v
  | Bin dst op a b :: rest =>
      match operand 64 e a, operand 64 e b with
      | Some x, Some y =>
          match arith op x y with
          | Some r => value_after ((dst, r) :: e) rest v
          | None => None
          end
      | _, _ => None
      end
  | Trunc dst src :: rest =>
      match operand 64 e src with
      | Some x => value_after ((dst, wrap 32 x) :: e) rest v
      | None => None
      end
  | _ :: rest => value_after e rest v
  end.

End IR.

(** The stages of [compile_to_ir], kept apart: the tree [Parser.parse]
    returns, and the state of the generator after [gen] with the value it
    returns. *)
Definition parse_text (expr_text : string) : result AST :=
  parser <- Parser.init expr_text ;;
  Parser.parse parser.

Definition gen_text (expr_text : string) (print_result : bool)
  : result (string * IRGen.t) :=
  ast <- parse_text expr_text ;;
  IRGen.gen ast (IRGen.init print_result).

(** The list [out] that [build_module] joins. *)
Definition module_lines (expr_text : string) (print_result : bool)
  : result (list string) :=
  '(result_val, g) <- gen_text expr_text print_result ;;
  IRGen.out_lines result_val g.

(** *** Lexer states

    The cached [current] agrees with [text] at [pos], which is not past
    the end: what [__init__] sets up and [advance] keeps. *)
Definition lexer_ok (lx : Lexer.t) : Prop :=
  Lexer.pos lx <= String.length (Lexer.text lx)
  /\ Lexer.current lx = String.get (Lexer.pos lx) (Lexer.text lx).

(** [lx'] comes after [lx] on the same text, and the characters stepped
    over are ones the lexer knows. *)
Definition extends (lx lx' : Lexer.t) : Prop :=
  Lexer.text lx' = Lexer.text lx
  /\ Lexer.pos lx <= Lexer.pos lx'
  /\ lexer_ok lx'
  /\ forall i, Lexer.pos lx <= i < Lexer.pos lx' ->
       exists c, String.get i (Lexer.text lx) = Some c /\ known_char c = true.

(** A call that ends the token sequence: ['EOF'] or an exception. *)
Definition ends (r : result Token) : Prop :=
  match r with
  | Ok TEOF | Raise _ => True
  | _ => False
  end.

(** The contract of section 4.1 read for one text: some call yields
    ['EOF'], every call after an ['EOF'] yields it too, and a call made
    before the end of the text moves the position forward. *)
Definition lexer_contract (text : string) : Prop :=
  (exists n, nth_call n (Lexer.init text) = Ok TEOF)
  /\ (forall n m, nth_call n (Lexer.init text) = Ok TEOF -> n <= m ->
        nth_call m (Lexer.init text) = Ok TEOF)
  /\ (forall n, Lexer.pos (calls n (Lexer.init text)) < String.length text ->
        Lexer.pos (calls n (Lexer.init text))
        < Lexer.pos (calls (S n) (Lexer.init text))).

(** *** Parser states

    The lexer behind the lookahead is consistent, it has only stepped over
    characters it knows, and an ['EOF'] lookahead means the text is used
    up. *)
Definition parser_inv (p : Parser.t) : Prop :=
  lexer_ok (Parser.lexer p)
  /\ (forall i, i < Lexer.pos (Parser.lexer p) ->
        exists c, String.get i (Lexer.text (Parser.lexer p)) = Some c
                  /\ known_char c = true)
  /\ (Parser.current p = TEOF ->
        String.length (Lexer.text (Parser.lexer p)) <= Lexer.pos (Parser.lexer p)).

(** [p'] is a later state of [p] on the same text, with at least [d] less
    left to read. *)
Definition steps (d : nat) (p p' : Parser.t) : Prop :=
  parser_inv p'
  /\ Lexer.text (Parser.lexer p') = Lexer.text (Parser.lexer p)
  /\ Parser.size p' + d <= Parser.size p.

(** *** Shapes of the emitted code *)

(** An operand that may be used once registers [%t1] .. [%tk] are
    defined: an immediate or one of these registers. *)
Definition operand_ok (k : nat) (o : string) : Prop :=
  IRGen.is_immediate o = true \/ exists j, 1 <= j <= k /\ o = IR.regname j.

(** Arithmetic instructions that define [%t(k+1)], [%t(k+2)], ... in this
    order, each from operands that are defined before it. *)
Fixpoint chain (k : nat) (prog : list IR.instr) : Prop :=
  match prog with
  | [] => True
  | i :: rest =>
      (exists op a b,
         i = IR.Bin (IR.regname (S k)) op a b /\ operand_ok k a /\ operand_ok k b)
      /\ chain (S k) rest
  end.

(** The instructions that define a virtual register name it [%t(k+1)],
    [%t(k+2)], ... in the order of the sequence. *)
Fixpoint numbered_from (k : nat) (prog : list IR.instr) : Prop :=
  match prog with
  | [] => True
  | IR.Bin dst _ _ _ :: rest | IR.Trunc dst _ :: rest =>
      dst = IR.regname (S k) /\ numbered_from (S k) rest
  | _ :: rest => numbered_from k rest
  end.

(** The number of instructions that define a virtual register. *)
Fixpoint count_defs (prog : list IR.instr) : nat :=
  match prog with
  | [] => 0
  | IR.Bin _ _ _ _ :: rest | IR.Trunc _ _ :: rest => S (count_defs rest)
  | _ :: rest => count_defs rest
  end.

(** A line indented by exactly two spaces. *)
Definition indented (line : string) : Prop :=
  exists c rest, line = String " " (String " " (String c rest)) /\ c <> " "%char.

(** The lines of the module before the function body. *)
Definition header (print_result : bool) : list string :=
  if print_result then
    [ "; ModuleID = 'tinyexpr'";
      "declare i32 @printf(i8*, ...)" ++ nl;
      "@.fmt = private unnamed_addr constant [6 x i8] c" ++ dquote
        ++ "%lld\0A\00" ++ dquote ++ nl;
      "define i32 @main() {"; "entry:" ]
  else [ "; ModuleID = 'tinyexpr'"; "define i32 @main() {"; "entry:" ].

(** The end of the body in print mode and in exit-code mode, as
    instructions; [r] is the register counter after [gen]. *)
Definition tail_instrs (print_result : bool) (r : nat) (v : string)
  : list IR.instr :=
  if print_result then [IR.FmtPtr; IR.Call v; IR.Ret "0"]
  else if IRGen.is_immediate v then
    match int v with
    | Some val =>
        if ((val <? - 2 ^ 31) || (val >=? 2 ^ 31))%Z then
          [ IR.Bin (IR.regname (r + 1)) "add" "0" (str val);
            IR.Trunc (IR.regname (r + 1 + 1)) (IR.regname (r + 1));
            IR.Ret (IR.regname (r + 1 + 1)) ]
        else [IR.Ret (str val)]
    | None => []
    end
  else [IR.Trunc (IR.regname (r + 1)) v; IR.Ret (IR.regname (r + 1))].

(** [n mod 2^32] read as a signed 32-bit integer. *)
Definition signed32 (n : Z) : Z :=
  let u := (n mod 2 ^ 32)%Z in
  if (u <? 2 ^ 31)%Z then u else (u - 2 ^ 32)%Z.

(** *** Error messages

    A message that tells the expected token from the one found: of the
    four messages only the one of [Parser.eat] does. *)
Definition expected_and_found (e : syntax_error) : bool :=
  match e with
  | ExpectedToken _ _ => true
  | _ => false
  end.

(** The tokens a [factor] can start with. *)
Definition starts_factor (tok : Token) : bool :=
  match tok with
  | TNUMBER _ | TPLUS | TMINUS | TLPAREN => true
  | _ => false
  end.

(** The registers [%t1] .. [%tk] are among those defined. *)
Definition covers (k : nat) (defined : list string) : Prop :=
  forall j, 1 <= j <= k -> IR.mem (IR.regname j) defined = true.

(** The final value is an immediate outside the signed 32-bit range. *)
Definition too_wide (val : Z) : bool := ((val <? - 2 ^ 31) || (val >=? 2 ^ 31))%Z.

(** *** The lexer as a function of the unread text *)

(** [s[n:]] *)
Fixpoint drop (n : nat) (s : string) : string :=
  match n, s with
  | S n', String _ s' => drop n' s'
  | _, _ => s
  end.

(** [text[pos:]]: the characters the lexer has not consumed. *)
Definition unread (lx : Lexer.t) : string := drop (Lexer.pos lx) (Lexer.text lx).

(** What [skip_ws], the loop of [integer] and [get_next_token] do, read
    on the unread text alone. *)
Fixpoint skip_spaces (s : string) : string :=
  match s with
  | String c s' => if isspace c then skip_spaces s' else s
  | EmptyString => EmptyString
  end.

Fixpoint digit_run (s : string) : string * string :=
  match s with
  | String c s' =>
      if isdigit c then let '(ds, rest) := digit_run s' in (String c ds, rest)
      else (EmptyString, s)
  | EmptyString => (EmptyString, EmptyString)
  end.

Definition next_token (s : string) : result Token * string :=
  match skip_spaces s with
  | EmptyString => (Ok TEOF, EmptyString)
  | String c s' =>
      if isdigit c then
        let '(ds, rest) := digit_run (String c s') in
        (match int ds with
         | Some n => Ok (TNUMBER n)
         | None => Raise (ValueError ds)
         end, rest)
      else if Ascii.eqb c "+" then (Ok TPLUS, s')
      else if Ascii.eqb c "-" then (Ok TMINUS, s')
      else if Ascii.eqb c "*" then (Ok TMUL, s')
      else if Ascii.eqb c "/" then (Ok TDIV, s')
      else if Ascii.eqb c "(" then (Ok TLPAREN, s')
      else if Ascii.eqb c ")" then (Ok TRPAREN, s')
      else (Raise (SyntaxError (UnexpectedCharacter c)), String c s')
  end.

(** ['0'] .. ['9'], the digits [int] accepts. *)
Definition is_ascii_digit (c : ascii) : bool := between 48 57 (code c).

(** *** Lexers that answer alike

    A relation between lexers that every call of [get_next_token] keeps,
    returning the same result on both sides; parsers over related lexers
    with the same lookahead; results that are equal up to such parsers. *)
Definition lexer_simulation (R : Lexer.t -> Lexer.t -> Prop) : Prop :=
  forall l1 l2, R l1 l2 ->
    fst (Lexer.get_next_token l1) = fst (Lexer.get_next_token l2)
    /\ R (snd (Lexer.get_next_token l1)) (snd (Lexer.get_next_token l2)).

Definition sim_parser (R : Lexer.t -> Lexer.t -> Prop) (p1 p2 : Parser.t) : Prop :=
  Parser.current p1 = Parser.current p2 /\ R (Parser.lexer p1) (Parser.lexer p2).

Definition sim_node (R : Lexer.t -> Lexer.t -> Prop) (x y : AST * Parser.t) : Prop :=
  fst x = fst y /\ sim_parser R (snd x) (snd y).

Definition sim_result {A : Type} (P : A -> A -> Prop) (r1 r2 : result A) : Prop :=
  match r1, r2 with
  | Ok a1, Ok a2 => P a1 a2
  | Raise e1, Raise e2 => e1 = e2
  | OutOfFuel, OutOfFuel => True
  | _, _ => False
  end.

(** The two lexers give the same result at every call. *)
Definition same_answers (l1 l2 : Lexer.t) : Prop :=
  forall n, nth_call n l1 = nth_call n l2.

(** The unread text of [l2] is the one of [l1] followed by white space,
    up to the white space both start with. *)
Definition same_up_to_spaces (l1 l2 : Lexer.t) : Prop :=
  lexer_ok l1 /\ lexer_ok l2
  /\ exists w, all_chars isspace w = true
               /\ skip_spaces (unread l2) = skip_spaces (unread l1 ++ w).

(** *** Errors of the front end

    What [compile_to_ir] can raise: a [SyntaxError], or the [ValueError]
    of [int] on a run of digits that are not all ASCII. *)
Definition front_end_error (e : exn) : Prop :=
  match e with
  | SyntaxError _ => True
  | ValueError ds =>
      ds <> EmptyString /\ all_digits ds = true
      /\ all_chars is_ascii_digit ds = false
  | KeyError _ => False
  end.

(** *** Generator states and instruction kinds *)

(** The generator with its [print_result] attribute set to [b]. *)
Definition with_print_result (b : bool) (g : IRGen.t) : IRGen.t :=
  IRGen.mk (IRGen.lines g) (IRGen.reg g) b.

Definition is_ret (i : IR.instr) : bool :=
  match i with
  | IR.Ret _ => true
  | _ => false
  end.

(** Every literal of the tree is zero or more. *)
Fixpoint literals_not_negative (a : AST) : bool :=
  match a with
  | Number n => (0 <=? n)%Z
  | UnaryOp _ e => literals_not_negative e
  | BinOp _ l r => literals_not_negative l && literals_not_negative r
  end.

Definition token_not_negative (t : Token) : bool :=
  match t with
  | TNUMBER n => (0 <=? n)%Z
  | _ => true
  end.

(** ** Command line

    [main] after [ap.parse_args()]: [Args.t] holds [args.input],
    [args.output] and [args.retcode].  The files are a parameter:
    [read_text path] is what [open(path, "r").read()] returns, or the text
    of the [OSError] it raises; [write_text path content] is [None] when
    [open(path, "w").write(content)] succeeds, or the text of the
    [OSError].  An outcome is the exit status with the line printed to
    the standard error, an exception that no [except] clause of [main]
    catches, or the file written with the line printed to the standard
    output.  The options of [argparse] and an input file that is not
    UTF-8 text (its [UnicodeDecodeError] is no [OSError]) are not
    modelled. *)
Module Args.

Record t : Type := mk { input : string; output : string; retcode : bool }.

End Args.

Record files : Type := mk_files {
  read_text : string -> string + string;
  write_text : string -> string -> option string
}.

Inductive outcome : Type :=
  | Exit (status : nat) (stderr : string)
  | Uncaught (e : exn)
  | Wrote (path content stdout : string)
  | NoAnswer.

Definition main (fs : files) (args : Args.t) : outcome :=
  match read_text fs (Args.input args) with
  | inr e => Exit 2 ("error: failed to read " ++ Args.input args ++ ": " ++ e)
  | inl expr =>
      match compile_to_ir expr (negb (Args.retcode args)) with
      | Raise (SyntaxError e) => Exit 3 ("syntax error: " ++ message e)
      | Raise e => Uncaught e
      | OutOfFuel => NoAnswer
      | Ok ir =>
          match write_text fs (Args.output args) (ir ++ nl) with
          | Some e =>
              Exit 4 ("error: failed to write " ++ Args.output args ++ ": " ++ e)
          | None =>
              Wrote (Args.output args) (ir ++ nl)
                    ("Wrote LLVM IR to " ++ Args.output args)
          end
      end
  end.

(** *** The value of an expression

    The value of a tree in the arithmetic of the emitted instructions:
    64-bit two's complement, a literal read at that width, [sdiv]
    truncating towards zero; [None] when a division faults (a zero
    divisor, or the least integer divided by minus one). *)
Fixpoint eval (a : AST) : option Z :=
  match a with
  | Number n => Some (IR.wrap 64 n)
  | UnaryOp PLUS e => eval e
  | UnaryOp MINUS e =>
      match eval e with
      | Some x => Some (IR.wrap 64 (0 - x))
      | None => None
      end
  | UnaryOp _ _ => None
  | BinOp op l r =>
      match eval l, eval r, IRGen.opmap op with
      | Some x, Some y, Ok o => IR.arith o x y
      | _, _, _ => None
      end
  end.

(** The registers after the instructions of [prog], [None] when one of
    them faults: the environment [IR.run] and [IR.value_after] build. *)
Fixpoint exec (e : IR.env) (prog : list IR.instr) : option IR.env :=
  match prog with
  | [] => Some e
  | IR.Bin dst op a b :: rest =>
      match IR.operand 64 e a, IR.operand 64 e b with
      | Some x, Some y =>
          match IR.arith op x y with
          | Some v => exec ((dst, v) :: e) rest
          | None => None
          end
      | _, _ => None
      end
  | IR.Trunc dst src :: rest =>
      match IR.operand 64 e src with
      | Some x => exec ((dst, IR.wrap 32 x) :: e) rest
      | None => None
      end
  | _ :: rest => exec e rest
  end.

Definition is_bin (i : IR.instr) : bool :=
  match i with
  | IR.Bin _ _ _ _ => true
  | _ => false
  end.

(** [e'] gives the registers [%t1] .. [%tk] the values they have in [e]. *)
Definition agree (k : nat) (e e' : IR.env) : Prop :=
  forall j, j <= k -> IR.lookup (IR.regname j) e' = IR.lookup (IR.regname j) e.

(** * Properties *)

(** ** Decimal literals *)

Lemma all_digits_string_of_uint (d : Decimal.uint) :
  all_digits (NilEmpty.string_of_uint d) = true.
Proof. induction d; simpl; auto. Qed.

Lemma str_isdigit_string_of_uint (d : Decimal.uint) :
  str_isdigit (NilZero.string_of_uint d) = true.
Proof.
  destruct d; try reflexivity; simpl; apply all_digits_string_of_uint.
Qed.

Lemma lstrip_minus_digits (s : string) :
  str_isdigit s = true -> lstrip_minus s = s.
Proof.
  destruct s as [|c s]; [discriminate|].
  intros H. simpl in H. apply andb_prop in H as [Hc _].
  destruct c as [[|] [|] [|] [|] [|] [|] [|] [|]]; try reflexivity; discriminate.
Qed.

(** [str] prints an immediate: [lstrip('-').isdigit()] holds of it. *)
Lemma is_immediate_str (n : Z) : IRGen.is_immediate (str n) = true.
Proof.
  unfold IRGen.is_immediate, str.
  destruct n as [|p|p]; try reflexivity; cbn [Z.to_int NilZero.string_of_int].
  - rewrite lstrip_minus_digits; apply str_isdigit_string_of_uint.
  - cbn [lstrip_minus].
    rewrite lstrip_minus_digits; apply str_isdigit_string_of_uint.
Qed.

(** [int(str(n)) == n] *)
Lemma int_str (n : Z) : int (str n) = Some n.
Proof.
  unfold int, str. rewrite NilZero.isi.
  - simpl. now rewrite DecimalZ.of_to.
  - destruct n; simpl; try discriminate.
    intros [= H]. now apply DecimalPos.Unsigned.to_uint_nonnil in H.
  - destruct n; simpl; try discriminate.
    intros [= H]. now apply DecimalPos.Unsigned.to_uint_nonnil in H.
Qed.

(** A register name is not an immediate. *)
Lemma is_immediate_regname (n : nat) : IRGen.is_immediate (IR.regname n) = false.
Proof. reflexivity. Qed.

Lemma regname_newreg (g : IRGen.t) :
  fst (IRGen.newreg g) = IR.regname (S (IRGen.reg g)).
Proof. unfold IRGen.newreg, IR.regname. simpl. now rewrite Nat.add_1_r. Qed.

(** ** Lexer *)

Lemma get_none_ge (s : string) (n : nat) :
  String.length s <= n -> String.get n s = None.
Proof.
  revert n; induction s as [|c s IH]; intros n H; [reflexivity|].
  destruct n; simpl in *; [lia|]. apply IH; lia.
Qed.

Lemma get_some_lt (s : string) (n : nat) (c : ascii) :
  String.get n s = Some c -> n < String.length s.
Proof.
  intros H. destruct (Nat.lt_ge_cases n (String.length s)) as [|Hge]; [assumption|].
  rewrite (get_none_ge _ _ Hge) in H. discriminate.
Qed.

Lemma get_lt_some (s : string) (n : nat) :
  n < String.length s -> exists c, String.get n s = Some c.
Proof.
  revert n; induction s as [|c s IH]; intros n H; simpl in H; [lia|].
  destruct n; simpl; [eauto|]. apply IH; lia.
Qed.

Lemma init_ok (text : string) : lexer_ok (Lexer.init text).
Proof. destruct text; split; simpl; auto; lia. Qed.

Lemma advance_ok (lx : Lexer.t) (c : ascii) :
  lexer_ok lx -> Lexer.current lx = Some c -> lexer_ok (Lexer.advance lx).
Proof.
  intros [Hle Hcur] Hc. rewrite Hcur in Hc. apply get_some_lt in Hc.
  unfold Lexer.advance, lexer_ok; simpl. split; [lia|].
  destruct (Nat.ltb_spec (Lexer.pos lx + 1) (String.length (Lexer.text lx)));
    [reflexivity|]. symmetry; now apply get_none_ge.
Qed.

Lemma extends_refl (lx : Lexer.t) : lexer_ok lx -> extends lx lx.
Proof. intros H. repeat split; auto; try apply H. intros i Hi; lia. Qed.

Lemma extends_trans (a b c : Lexer.t) : extends a b -> extends b c -> extends a c.
Proof.
  intros (Ht1 & Hp1 & _ & Hk1) (Ht2 & Hp2 & Hok & Hk2).
  repeat split; try apply Hok; try congruence; try lia.
  intros i Hi. destruct (Nat.lt_ge_cases i (Lexer.pos b)).
  - apply Hk1; lia.
  - rewrite <- Ht1. apply Hk2; lia.
Qed.

Lemma advance_extends (lx : Lexer.t) (c : ascii) :
  lexer_ok lx -> Lexer.current lx = Some c -> known_char c = true ->
  extends lx (Lexer.advance lx).
Proof.
  intros Hok Hc Hk. pose proof (advance_ok _ _ Hok Hc) as Hok'.
  repeat split; try apply Hok'; simpl; try lia.
  intros i Hi. assert (i = Lexer.pos lx) as -> by lia.
  exists c. destruct Hok as [_ <-]. auto.
Qed.

Lemma isspace_known (c : ascii) : isspace c = true -> known_char c = true.
Proof. unfold known_char. now intros ->. Qed.

Lemma isdigit_known (c : ascii) : isdigit c = true -> known_char c = true.
Proof. unfold known_char. intros ->. now rewrite orb_true_r. Qed.

Lemma is_punct_known (c : ascii) : is_punct c = true -> known_char c = true.
Proof. unfold known_char. intros ->. now rewrite orb_true_r. Qed.

Lemma skip_ws_loop_extends (n : nat) (lx : Lexer.t) :
  lexer_ok lx -> extends lx (Lexer.skip_ws_loop n lx).
Proof.
  revert lx; induction n as [|n IH]; intros lx Hok; simpl.
  - now apply extends_refl.
  - destruct (Lexer.current lx) as [c|] eqn:Hc; [|now apply extends_refl].
    destruct (isspace c) eqn:Hs; [|now apply extends_refl].
    eapply extends_trans.
    + eapply advance_extends; eauto using isspace_known.
    + apply IH. eapply advance_ok; eauto.
Qed.

(** The bound of the loop is not what ends it: [skip_ws] returns at the
    end of the text or on a character that is not a space. *)
Lemma skip_ws_loop_stops (n : nat) (lx : Lexer.t) :
  lexer_ok lx -> String.length (Lexer.text lx) - Lexer.pos lx < n ->
  match Lexer.current (Lexer.skip_ws_loop n lx) with
  | Some c => isspace c = false
  | None => True
  end.
Proof.
  revert lx; induction n as [|n IH]; intros lx Hok Hn; [lia|]. simpl.
  destruct (Lexer.current lx) as [c|] eqn:Hc; [|now rewrite Hc].
  destruct (isspace c) eqn:Hs; [|now rewrite Hc].
  apply IH; [eapply advance_ok; eauto|].
  destruct Hok as [_ Hcur]. rewrite Hcur in Hc. apply get_some_lt in Hc.
  simpl. lia.
Qed.

Lemma skip_ws_extends (lx : Lexer.t) : lexer_ok lx -> extends lx (Lexer.skip_ws lx).
Proof. apply skip_ws_loop_extends. Qed.

Lemma skip_ws_stops (lx : Lexer.t) :
  lexer_ok lx ->
  match Lexer.current (Lexer.skip_ws lx) with
  | Some c => isspace c = false
  | None => True
  end.
Proof.
  intros H. apply skip_ws_loop_stops; [assumption|].
  unfold Lexer.loop_bound. lia.
Qed.

Lemma skip_ws_at_end (lx : Lexer.t) :
  Lexer.current lx = None -> Lexer.skip_ws lx = lx.
Proof. intros H. unfold Lexer.skip_ws, Lexer.loop_bound. simpl. now rewrite H. Qed.

Lemma integer_loop_extends (n : nat) (s : string) (lx : Lexer.t) :
  lexer_ok lx -> extends lx (snd (Lexer.integer_loop n s lx)).
Proof.
  revert s lx; induction n as [|n IH]; intros s lx Hok; simpl.
  - now apply extends_refl.
  - destruct (Lexer.current lx) as [c|] eqn:Hc; [|now apply extends_refl].
    destruct (isdigit c) eqn:Hd; [|now apply extends_refl].
    eapply extends_trans.
    + eapply advance_extends; eauto using isdigit_known.
    + apply IH. eapply advance_ok; eauto.
Qed.

Lemma integer_extends (lx : Lexer.t) :
  lexer_ok lx -> extends lx (snd (Lexer.integer lx)).
Proof.
  intros Hok. unfold Lexer.integer.
  pose proof (integer_loop_extends (Lexer.loop_bound lx) "" lx Hok) as H.
  destruct (Lexer.integer_loop _ _ _) as [s lx']. simpl in H.
  now destruct (int s).
Qed.

Lemma integer_advances (lx : Lexer.t) (c : ascii) :
  lexer_ok lx -> Lexer.current lx = Some c -> isdigit c = true ->
  Lexer.pos lx < Lexer.pos (snd (Lexer.integer lx)).
Proof.
  intros Hok Hc Hd. unfold Lexer.integer, Lexer.loop_bound. simpl.
  rewrite Hc, Hd.
  pose proof (integer_loop_extends (String.length (Lexer.text lx) - Lexer.pos lx)
                (String c "") (Lexer.advance lx) (advance_ok _ _ Hok Hc)) as H.
  destruct (Lexer.integer_loop _ _ _) as [s lx']. simpl in H.
  destruct H as (_ & Hp & _). simpl in Hp.
  destruct (int s); simpl; lia.
Qed.

(** [integer] takes the whole run of digits: its loop too ends on the
    text, not on its bound. *)
Lemma integer_loop_stops (n : nat) (s : string) (lx : Lexer.t) :
  lexer_ok lx -> String.length (Lexer.text lx) - Lexer.pos lx < n ->
  match Lexer.current (snd (Lexer.integer_loop n s lx)) with
  | Some c => isdigit c = false
  | None => True
  end.
Proof.
  revert s lx; induction n as [|n IH]; intros s lx Hok Hn; [lia|]. simpl.
  destruct (Lexer.current lx) as [c|] eqn:Hc; [|simpl; now rewrite Hc].
  destruct (isdigit c) eqn:Hd; [|simpl; now rewrite Hc].
  apply IH; [eapply advance_ok; eauto|].
  destruct Hok as [_ Hcur]. rewrite Hcur in Hc. apply get_some_lt in Hc.
  simpl. lia.
Qed.

Lemma integer_stops (lx : Lexer.t) :
  lexer_ok lx ->
  match Lexer.current (snd (Lexer.integer lx)) with
  | Some c => isdigit c = false
  | None => True
  end.
Proof.
  intros Hok. unfold Lexer.integer.
  pose proof (integer_loop_stops (Lexer.loop_bound lx) "" lx Hok) as H.
  destruct (Lexer.integer_loop _ _ _) as [s lx']. simpl in H.
  destruct (int s); simpl; apply H; unfold Lexer.loop_bound; lia.
Qed.

Lemma get_none_length (s : string) (n : nat) :
  String.get n s = None -> String.length s <= n.
Proof.
  intros H. destruct (Nat.lt_ge_cases n (String.length s)) as [Hlt|]; [|assumption].
  apply get_lt_some in Hlt as [c Hc]. congruence.
Qed.

Lemma integer_result (lx : Lexer.t) :
  match fst (Lexer.integer lx) with
  | Ok _ | Raise (ValueError _) => True
  | _ => False
  end.
Proof.
  unfold Lexer.integer. destruct (Lexer.integer_loop _ _ _) as [s lx'].
  now destruct (int s).
Qed.

(** What one call of [get_next_token] does to the lexer, by result. *)
Lemma get_next_token_cases (lx : Lexer.t) :
  lexer_ok lx ->
  match Lexer.get_next_token lx with
  | (Ok TEOF, lx') =>
      lx' = Lexer.skip_ws lx /\ Lexer.current lx' = None
      /\ String.length (Lexer.text lx) <= Lexer.pos lx'
  | (Ok _, lx') => Lexer.pos lx < Lexer.pos lx'
  | (Raise (SyntaxError (UnexpectedCharacter c)), lx') =>
      lx' = Lexer.skip_ws lx /\ Lexer.current lx' = Some c /\ known_char c = false
  | (Raise (ValueError _), lx') => Lexer.pos lx < Lexer.pos lx'
  | _ => False
  end.
Proof.
  intros Hok. unfold Lexer.get_next_token.
  pose proof (skip_ws_extends lx Hok) as (Ht & Hp & Hok1 & _).
  pose proof (skip_ws_stops lx Hok) as Hstop.
  destruct (Lexer.current (Lexer.skip_ws lx)) as [c|] eqn:Hc.
  - destruct (isdigit c) eqn:Hd.
    + pose proof (integer_advances _ _ Hok1 Hc Hd) as Hadv.
      pose proof (integer_result (Lexer.skip_ws lx)) as Hres.
      destruct (Lexer.integer (Lexer.skip_ws lx)) as [r lx']. simpl in *.
      destruct r as [n|[e|msg|k]|]; simpl; try contradiction; lia.
    + repeat match goal with
             | |- context [Ascii.eqb c ?x] =>
                 destruct (Ascii.eqb c x) eqn:?; [simpl; lia|]
             end.
      repeat split; auto. unfold known_char, is_punct. rewrite Hstop, Hd.
      repeat match goal with
             | E : Ascii.eqb _ _ = false |- _ => rewrite E; clear E
             end.
      reflexivity.
  - repeat split; auto. destruct Hok1 as [_ Hcur]. rewrite Hcur in Hc.
    apply get_none_length in Hc. now rewrite Ht in Hc.
Qed.

Lemma get_next_token_extends (lx : Lexer.t) :
  lexer_ok lx -> extends lx (snd (Lexer.get_next_token lx)).
Proof.
  intros Hok. unfold Lexer.get_next_token.
  pose proof (skip_ws_extends lx Hok) as Hext.
  assert (Hok1 : lexer_ok (Lexer.skip_ws lx)) by apply Hext.
  destruct (Lexer.current (Lexer.skip_ws lx)) as [c|] eqn:Hc; [|exact Hext].
  destruct (isdigit c) eqn:Hd.
  - pose proof (integer_extends _ Hok1) as Hint.
    destruct (Lexer.integer (Lexer.skip_ws lx)) as [r lx']. simpl in *.
    eapply extends_trans; eauto.
  - assert (Hp : is_punct c = true -> extends lx (Lexer.advance (Lexer.skip_ws lx))).
    { intros Hpu. eapply extends_trans; [exact Hext|].
      eapply advance_extends; eauto using is_punct_known. }
    unfold is_punct in Hp.
    repeat (destruct (Ascii.eqb c _);
            [simpl; apply Hp; rewrite ?orb_true_r; reflexivity|]).
    exact Hext.
Qed.

Lemma get_next_token_ok (lx : Lexer.t) :
  lexer_ok lx -> lexer_ok (snd (Lexer.get_next_token lx)).
Proof. intros H. apply (get_next_token_extends lx H). Qed.

(** ['EOF'] is absorbing. *)
Lemma get_next_token_eof_again (lx lx' : Lexer.t) :
  lexer_ok lx -> Lexer.get_next_token lx = (Ok TEOF, lx') ->
  Lexer.get_next_token lx' = (Ok TEOF, lx').
Proof.
  intros Hok H. pose proof (get_next_token_cases lx Hok) as Hc.
  rewrite H in Hc. destruct Hc as (_ & Hcur & _).
  unfold Lexer.get_next_token. rewrite (skip_ws_at_end _ Hcur). now rewrite Hcur.
Qed.

(** ** Repeated calls (C9) *)

Lemma calls_ok (n : nat) (lx : Lexer.t) : lexer_ok lx -> lexer_ok (calls n lx).
Proof.
  revert lx; induction n as [|n IH]; intros lx H; simpl; auto.
  apply IH. now apply get_next_token_ok.
Qed.

Lemma calls_text (n : nat) (lx : Lexer.t) :
  lexer_ok lx -> Lexer.text (calls n lx) = Lexer.text lx.
Proof.
  revert lx; induction n as [|n IH]; intros lx H; simpl; auto.
  rewrite IH by now apply get_next_token_ok.
  apply (get_next_token_extends lx H).
Qed.

Lemma calls_add (n m : nat) (lx : Lexer.t) :
  calls (n + m) lx = calls m (calls n lx).
Proof. revert lx; induction n as [|n IH]; intros lx; simpl; auto. Qed.

Lemma calls_succ (n : nat) (lx : Lexer.t) :
  calls (S n) lx = snd (Lexer.get_next_token (calls n lx)).
Proof. replace (S n) with (n + 1) by lia. now rewrite calls_add. Qed.

Lemma calls_fixed (n : nat) (lx : Lexer.t) :
  snd (Lexer.get_next_token lx) = lx -> calls n lx = lx.
Proof. intros H. induction n as [|n IH]; simpl; auto. now rewrite H. Qed.

(** Within [k + 1] calls, [k] characters being left, the sequence ends. *)
Lemma sequence_ends (k : nat) (lx : Lexer.t) :
  lexer_ok lx -> String.length (Lexer.text lx) - Lexer.pos lx <= k ->
  exists n, n <= k /\ ends (nth_call n lx).
Proof.
  revert lx; induction k as [|k IH]; intros lx Hok Hk;
    pose proof (get_next_token_cases lx Hok) as Hc;
    pose proof (get_next_token_extends lx Hok) as (Ht & _ & Hok' & _);
    unfold nth_call; simpl;
    destruct (Lexer.get_next_token lx) as [r lx'] eqn:Hg; simpl in *.
  - exists 0. split; [lia|]. simpl. rewrite Hg. simpl.
    destruct r as [tok| |]; simpl; auto.
    destruct tok; simpl; auto; destruct Hok' as [Hle _]; rewrite Ht in Hle; lia.
  - destruct r as [tok| |]; [| exists 0; split; [lia|]; simpl; now rewrite Hg ..].
    destruct tok; try (exists 0; split; [lia|]; simpl; now rewrite Hg);
      (destruct (IH lx' Hok') as (n & Hn & He);
       [ destruct Hok' as [Hle _]; rewrite Ht in *; lia
       | exists (S n); split; [lia|]; unfold nth_call in *; simpl; now rewrite Hg ]).
Qed.

Lemma eof_absorbing (lx : Lexer.t) (m : nat) :
  lexer_ok lx -> fst (Lexer.get_next_token lx) = Ok TEOF ->
  nth_call (S m) lx = Ok TEOF
  /\ calls (S m) lx = snd (Lexer.get_next_token lx).
Proof.
  intros Hok H. destruct (Lexer.get_next_token lx) as [r lx'] eqn:Hg.
  simpl in H; subst r.
  pose proof (get_next_token_eof_again _ _ Hok Hg) as Hagain.
  unfold nth_call. simpl. rewrite Hg. simpl.
  rewrite calls_fixed by now rewrite Hagain. now rewrite Hagain.
Qed.

Lemma call_advances (lx : Lexer.t) (tok : Token) :
  lexer_ok lx -> fst (Lexer.get_next_token lx) = Ok tok ->
  Lexer.pos lx < String.length (Lexer.text lx) ->
  Lexer.pos lx < Lexer.pos (snd (Lexer.get_next_token lx)).
Proof.
  intros Hok H Hlt. pose proof (get_next_token_cases lx Hok) as Hc.
  destruct (Lexer.get_next_token lx) as [r lx']. simpl in *. subst r.
  destruct tok; try assumption. destruct Hc as (_ & _ & Hle). lia.
Qed.



Lemma ampersand_stuck (n : nat) : calls n (Lexer.init "&") = Lexer.init "&".
Proof. now apply calls_fixed. Qed.


(** ** Parser: states and fuel *)

Lemma bind_ok {A B : Type} (c : result A) (k : A -> result B) (b : B) :
  bind c k = Ok b -> exists a, c = Ok a /\ k a = Ok b.
Proof. destruct c; simpl; intros H; try discriminate. eauto. Qed.

Lemma bind_fuel {A B : Type} (c : result A) (k : A -> result B) :
  bind c k <> OutOfFuel -> c <> OutOfFuel.
Proof. destruct c; simpl; congruence. Qed.

Lemma token_type_eqb_eq (a b : token_type) :
  token_type_eqb a b = true <-> a = b.
Proof. destruct a, b; simpl; split; congruence. Qed.

Lemma type_eof (t : Token) : type t = EOF -> t = TEOF.
Proof. destruct t; simpl; congruence. Qed.

Lemma steps_trans (d1 d2 : nat) (p q r : Parser.t) :
  steps d1 p q -> steps d2 q r -> steps (d1 + d2) p r.
Proof.
  intros (_ & Ht1 & Hs1) (Hi & Ht2 & Hs2). repeat split; try apply Hi.
  - congruence.
  - lia.
Qed.

Lemma steps_weaken (d d' : nat) (p q : Parser.t) :
  d' <= d -> steps d p q -> steps d' p q.
Proof. intros Hd (Hi & Ht & Hs). repeat split; try apply Hi; auto; lia. Qed.

Lemma steps_refl (p : Parser.t) : parser_inv p -> steps 0 p p.
Proof. intros H. repeat split; try apply H. lia. Qed.

(** The state a successful token read leaves behind. *)
Lemma read_token_inv (lx lx' : Lexer.t) (tok : Token) :
  lexer_ok lx ->
  (forall i, i < Lexer.pos lx ->
     exists c, String.get i (Lexer.text lx) = Some c /\ known_char c = true) ->
  Lexer.get_next_token lx = (Ok tok, lx') ->
  parser_inv (Parser.mk lx' tok)
  /\ Lexer.text lx' = Lexer.text lx
  /\ Parser.size (Parser.mk lx' tok)
     <= String.length (Lexer.text lx) - Lexer.pos lx.
Proof.
  intros Hok Hknown Hg.
  pose proof (get_next_token_extends lx Hok) as Hext.
  pose proof (get_next_token_cases lx Hok) as Hc.
  rewrite Hg in Hext, Hc. simpl in Hext.
  destruct Hext as (Ht & Hp & Hok' & Hk).
  split; [|split; [assumption|]].
  - unfold parser_inv; simpl. split; [assumption|]. split.
    + intros i Hi. rewrite Ht.
      destruct (Nat.lt_ge_cases i (Lexer.pos lx)); [auto|apply Hk; lia].
    + intros ->. rewrite Ht. apply Hc.
  - unfold Parser.size; simpl. rewrite Ht.
    destruct Hok' as [Hle _]. rewrite Ht in Hle.
    destruct tok; simpl; try lia.
Qed.

Lemma init_inv (text : string) (p : Parser.t) :
  Parser.init text = Ok p ->
  parser_inv p /\ Lexer.text (Parser.lexer p) = text.
Proof.
  unfold Parser.init. intros H.
  destruct (Lexer.get_next_token (Lexer.init text)) as [r lx] eqn:Hg.
  destruct r as [tok| |]; simpl in H; try discriminate.
  injection H as <-.
  destruct (read_token_inv _ _ _ (init_ok text)
              ltac:(simpl; intros i Hi; lia) Hg) as (Hi & Ht & _).
  split; [assumption|]. simpl. now rewrite Ht.
Qed.

(** [eat] succeeds on the expected token only, and reads on. *)
Lemma eat_steps (ty : token_type) (p p' : Parser.t) :
  parser_inv p -> Parser.eat ty p = Ok p' ->
  type (Parser.current p) = ty /\ (ty <> EOF -> steps 1 p p').
Proof.
  intros (Hok & Hknown & _) H. unfold Parser.eat in H.
  destruct (token_type_eqb (type (Parser.current p)) ty) eqn:Hty;
    [|discriminate].
  apply token_type_eqb_eq in Hty. split; [assumption|]. intros Hne.
  destruct (Lexer.get_next_token (Parser.lexer p)) as [r lx] eqn:Hg.
  destruct r as [tok| |]; simpl in H; try discriminate.
  injection H as <-.
  destruct (read_token_inv _ _ _ Hok Hknown Hg) as (Hi & Ht & Hs).
  repeat split; try apply Hi; [assumption|].
  unfold Parser.size in *. simpl in *.
  destruct (token_type_eqb (type (Parser.current p)) EOF) eqn:He.
  - apply token_type_eqb_eq in He. congruence.
  - lia.
Qed.

Lemma expr_S (f : nat) (p : Parser.t) :
  Parser.expr (S f) p
  = ('(node, self) <- Parser.term f p ;; Parser.expr_loop f node self).
Proof. reflexivity. Qed.

Lemma expr_loop_S (f : nat) (node : AST) (p : Parser.t) :
  Parser.expr_loop (S f) node p
  = if Parser.is_addop (type (Parser.current p)) then
      self <- Parser.eat (type (Parser.current p)) p ;;
      '(rhs, self) <- Parser.term f self ;;
      Parser.expr_loop f (BinOp (type (Parser.current p)) node rhs) self
    else Ok (node, p).
Proof. reflexivity. Qed.

Lemma term_S (f : nat) (p : Parser.t) :
  Parser.term (S f) p
  = ('(node, self) <- Parser.factor f p ;; Parser.term_loop f node self).
Proof. reflexivity. Qed.

Lemma term_loop_S (f : nat) (node : AST) (p : Parser.t) :
  Parser.term_loop (S f) node p
  = if Parser.is_mulop (type (Parser.current p)) then
      self <- Parser.eat (type (Parser.current p)) p ;;
      '(rhs, self) <- Parser.factor f self ;;
      Parser.term_loop f (BinOp (type (Parser.current p)) node rhs) self
    else Ok (node, p).
Proof. reflexivity. Qed.

Lemma factor_S (f : nat) (p : Parser.t) :
  Parser.factor (S f) p
  = match Parser.current p with
    | TPLUS =>
        self <- Parser.eat PLUS p ;;
        '(e, self) <- Parser.factor f self ;;
        Ok (UnaryOp PLUS e, self)
    | TMINUS =>
        self <- Parser.eat MINUS p ;;
        '(e, self) <- Parser.factor f self ;;
        Ok (UnaryOp MINUS e, self)
    | TNUMBER value =>
        self <- Parser.eat NUMBER p ;;
        Ok (Number value, self)
    | TLPAREN =>
        self <- Parser.eat LPAREN p ;;
        '(node, self) <- Parser.expr f self ;;
        self <- Parser.eat RPAREN self ;;
        Ok (node, self)
    | tok => Raise (SyntaxError (UnexpectedToken tok))
    end.
Proof. destruct p as [lx []]; reflexivity. Qed.

Lemma addop_not_eof (ty : token_type) : Parser.is_addop ty = true -> ty <> EOF.
Proof. destruct ty; simpl; congruence. Qed.

Lemma mulop_not_eof (ty : token_type) : Parser.is_mulop ty = true -> ty <> EOF.
Proof. destruct ty; simpl; congruence. Qed.

Ltac bind_inv H :=
  let x := fresh "x" in
  let H1 := fresh H in
  apply bind_ok in H as (x & H1 & H).

Ltac eat_inv Hinv H :=
  let Hty := fresh "Hty" in
  let Hst := fresh "Hst" in
  destruct (eat_steps _ _ _ Hinv H) as [Hty Hst];
  try (specialize (Hst ltac:(first [ discriminate
                                  | now apply addop_not_eof
                                  | now apply mulop_not_eof ]))).

(** Every method that returns leaves a sound state on the same text,
    and all but the loops have consumed something. *)
Lemma parser_steps (f : nat) :
  (forall p a p', parser_inv p -> Parser.expr f p = Ok (a, p') -> steps 1 p p')
  /\ (forall node p a p',
        parser_inv p -> Parser.expr_loop f node p = Ok (a, p') -> steps 0 p p')
  /\ (forall p a p', parser_inv p -> Parser.term f p = Ok (a, p') -> steps 1 p p')
  /\ (forall node p a p',
        parser_inv p -> Parser.term_loop f node p = Ok (a, p') -> steps 0 p p')
  /\ (forall p a p', parser_inv p -> Parser.factor f p = Ok (a, p') -> steps 1 p p').
Proof.
  induction f as [|f (IHe & IHel & IHt & IHtl & IHf)];
    [repeat split; intros; discriminate|].
  split; [|split; [|split; [|split]]].
  - intros p a p' Hinv H. rewrite expr_S in H.
    bind_inv H. destruct x as [node p1].
    apply IHt in H0; [|assumption].
    apply IHel in H; [|apply H0].
    apply (steps_trans 1 0 _ _ _ H0 H).
  - intros node p a p' Hinv H. rewrite expr_loop_S in H.
    destruct (Parser.is_addop _) eqn:Hop.
    + bind_inv H. eat_inv Hinv H0.
      bind_inv H. destruct x0 as [rhs p2].
      apply IHt in H1; [|apply Hst].
      apply IHel in H; [|apply H1].
      eapply steps_weaken; [|exact (steps_trans _ _ _ _ _ (steps_trans _ _ _ _ _ Hst H1) H)].
      lia.
    + injection H as <- <-. now apply steps_refl.
  - intros p a p' Hinv H. rewrite term_S in H.
    bind_inv H. destruct x as [node p1].
    apply IHf in H0; [|assumption].
    apply IHtl in H; [|apply H0].
    apply (steps_trans 1 0 _ _ _ H0 H).
  - intros node p a p' Hinv H. rewrite term_loop_S in H.
    destruct (Parser.is_mulop _) eqn:Hop.
    + bind_inv H. eat_inv Hinv H0.
      bind_inv H. destruct x0 as [rhs p2].
      apply IHf in H1; [|apply Hst].
      apply IHtl in H; [|apply H1].
      eapply steps_weaken; [|exact (steps_trans _ _ _ _ _ (steps_trans _ _ _ _ _ Hst H1) H)].
      lia.
    + injection H as <- <-. now apply steps_refl.
  - intros p a p' Hinv H. rewrite factor_S in H.
    destruct (Parser.current p) eqn:Hcur; try discriminate.
    + bind_inv H. eat_inv Hinv H0. now injection H as <- <-.
    + bind_inv H. eat_inv Hinv H0.
      bind_inv H. destruct x0 as [e p2]. injection H as <- <-.
      apply IHf in H1; [|apply Hst].
      eapply steps_weaken; [|exact (steps_trans _ _ _ _ _ Hst H1)]. lia.
    + bind_inv H. eat_inv Hinv H0.
      bind_inv H. destruct x0 as [e p2]. injection H as <- <-.
      apply IHf in H1; [|apply Hst].
      eapply steps_weaken; [|exact (steps_trans _ _ _ _ _ Hst H1)]. lia.
    + bind_inv H. eat_inv Hinv H0.
      bind_inv H. destruct x0 as [node p2].
      apply IHe in H1; [|apply Hst].
      bind_inv H. injection H as <- <-.
      assert (Hinv2 : parser_inv p2) by apply H1.
      eat_inv Hinv2 H2.
      eapply steps_weaken;
        [|exact (steps_trans _ _ _ _ _ (steps_trans _ _ _ _ _ Hst H1) Hst0)].
      lia.
Qed.

Lemma eat_fuel (ty : token_type) (p : Parser.t) :
  parser_inv p -> Parser.eat ty p <> OutOfFuel.
Proof.
  intros (Hok & _). unfold Parser.eat.
  destruct (token_type_eqb _ _); [|discriminate].
  pose proof (get_next_token_cases _ Hok) as Hc.
  destruct (Lexer.get_next_token (Parser.lexer p)) as [[tok|e|] lx];
    simpl; try discriminate. contradiction.
Qed.

Ltac bind_case :=
  match goal with
  | |- bind ?c ?k <> OutOfFuel =>
      let E := fresh "E" in
      destruct c as [?x|?e|] eqn:E; simpl; [ | discriminate | exfalso ]
  end.

(** Fuel that suffices: three units per unit of [Parser.size], and one
    to three more by method. *)
Lemma parser_fuel (f : nat) :
  (forall p, parser_inv p -> 3 * Parser.size p + 3 <= f ->
             Parser.expr f p <> OutOfFuel)
  /\ (forall node p, parser_inv p -> 3 * Parser.size p + 2 <= f ->
                     Parser.expr_loop f node p <> OutOfFuel)
  /\ (forall p, parser_inv p -> 3 * Parser.size p + 2 <= f ->
                Parser.term f p <> OutOfFuel)
  /\ (forall node p, parser_inv p -> 3 * Parser.size p + 1 <= f ->
                     Parser.term_loop f node p <> OutOfFuel)
  /\ (forall p, parser_inv p -> 3 * Parser.size p + 1 <= f ->
                Parser.factor f p <> OutOfFuel).
Proof.
  induction f as [|f (IHe & IHel & IHt & IHtl & IHf)];
    [repeat split; intros; lia|].
  destruct (parser_steps f) as (Se & Sel & St & Stl & Sf).
  split; [|split; [|split; [|split]]].
  - intros p Hinv Hf. rewrite expr_S. bind_case.
    + destruct x as [node p1]. apply St in E; [|assumption].
      apply IHel; [apply E|]. destruct E as (_ & _ & ?). lia.
    + refine (IHt p _ _ E); [assumption|lia].
  - intros node p Hinv Hf. rewrite expr_loop_S.
    destruct (Parser.is_addop _) eqn:Hop; [|discriminate].
    bind_case; [|exact (eat_fuel _ _ Hinv E)]. eat_inv Hinv E.
    bind_case.
    + destruct x0 as [rhs p2]. apply St in E0; [|apply Hst].
      apply IHel; [apply E0|].
      destruct Hst as (_ & _ & ?), E0 as (_ & _ & ?). lia.
    + refine (IHt x _ _ E0); [apply Hst|]. destruct Hst as (_ & _ & ?). lia.
  - intros p Hinv Hf. rewrite term_S. bind_case.
    + destruct x as [node p1]. apply Sf in E; [|assumption].
      apply IHtl; [apply E|]. destruct E as (_ & _ & ?). lia.
    + refine (IHf p _ _ E); [assumption|lia].
  - intros node p Hinv Hf. rewrite term_loop_S.
    destruct (Parser.is_mulop _) eqn:Hop; [|discriminate].
    bind_case; [|exact (eat_fuel _ _ Hinv E)]. eat_inv Hinv E.
    bind_case.
    + destruct x0 as [rhs p2]. apply Sf in E0; [|apply Hst].
      apply IHtl; [apply E0|].
      destruct Hst as (_ & _ & ?), E0 as (_ & _ & ?). lia.
    + refine (IHf x _ _ E0); [apply Hst|]. destruct Hst as (_ & _ & ?). lia.
  - intros p Hinv Hf. rewrite factor_S.
    destruct (Parser.current p) eqn:Hcur; try discriminate.
    + bind_case; [discriminate|exact (eat_fuel _ _ Hinv E)].
    + bind_case; [|exact (eat_fuel _ _ Hinv E)]. eat_inv Hinv E.
      bind_case; [destruct x0; discriminate|].
      refine (IHf x _ _ E0); [apply Hst|]. destruct Hst as (_ & _ & ?). lia.
    + bind_case; [|exact (eat_fuel _ _ Hinv E)]. eat_inv Hinv E.
      bind_case; [destruct x0; discriminate|].
      refine (IHf x _ _ E0); [apply Hst|]. destruct Hst as (_ & _ & ?). lia.
    + bind_case; [|exact (eat_fuel _ _ Hinv E)]. eat_inv Hinv E.
      bind_case.
      * destruct x0 as [node p2]. apply Se in E0; [|apply Hst].
        bind_case; [discriminate|]. refine (eat_fuel _ p2 _ E1). apply E0.
      * refine (IHe x _ _ E0); [apply Hst|]. destruct Hst as (_ & _ & ?). lia.
Qed.

(** [Parser.parse] never runs out of the fuel it takes. *)
Lemma parse_never_out_of_fuel (p : Parser.t) :
  parser_inv p -> Parser.parse p <> OutOfFuel.
Proof.
  intros Hinv. unfold Parser.parse, Parser.enough. bind_case.
  - destruct x as [node p']. now destruct (token_type_eqb _ _).
  - destruct (parser_fuel (3 * Parser.size p + 3)) as (He & _).
    now apply (He p).
Qed.

Lemma parse_text_never_out_of_fuel (text : string) :
  parse_text text <> OutOfFuel.
Proof.
  unfold parse_text. bind_case.
  - apply parse_never_out_of_fuel. now apply init_inv in E.
  - unfold Parser.init in E.
    pose proof (get_next_token_cases _ (init_ok text)) as Hc.
    destruct (Lexer.get_next_token (Lexer.init text)) as [[tok|e|] lx];
      simpl in *; try discriminate. contradiction.
Qed.

(** More fuel does not change a result. *)
Lemma parser_fuel_mono (f : nat) :
  (forall p, Parser.expr f p <> OutOfFuel ->
             Parser.expr (S f) p = Parser.expr f p)
  /\ (forall node p, Parser.expr_loop f node p <> OutOfFuel ->
                     Parser.expr_loop (S f) node p = Parser.expr_loop f node p)
  /\ (forall p, Parser.term f p <> OutOfFuel ->
                Parser.term (S f) p = Parser.term f p)
  /\ (forall node p, Parser.term_loop f node p <> OutOfFuel ->
                     Parser.term_loop (S f) node p = Parser.term_loop f node p)
  /\ (forall p, Parser.factor f p <> OutOfFuel ->
                Parser.factor (S f) p = Parser.factor f p).
Proof.
  induction f as [|f (IHe & IHel & IHt & IHtl & IHf)];
    [repeat split; intros; simpl in *; congruence|].
  split; [|split; [|split; [|split]]].
  - intros p H. rewrite (expr_S (S f)), expr_S in *.
    rewrite IHt by now apply bind_fuel in H.
    destruct (Parser.term f p) as [[node p1]| |]; simpl in *; auto.
  - intros node p H. rewrite (expr_loop_S (S f)), expr_loop_S in *.
    destruct (Parser.is_addop _); [|reflexivity].
    destruct (Parser.eat _ p) as [p1| |]; simpl in *; auto.
    rewrite IHt by now apply bind_fuel in H.
    destruct (Parser.term f p1) as [[rhs p2]| |]; simpl in *; auto.
  - intros p H. rewrite (term_S (S f)), term_S in *.
    rewrite IHf by now apply bind_fuel in H.
    destruct (Parser.factor f p) as [[node p1]| |]; simpl in *; auto.
  - intros node p H. rewrite (term_loop_S (S f)), term_loop_S in *.
    destruct (Parser.is_mulop _); [|reflexivity].
    destruct (Parser.eat _ p) as [p1| |]; simpl in *; auto.
    rewrite IHf by now apply bind_fuel in H.
    destruct (Parser.factor f p1) as [[rhs p2]| |]; simpl in *; auto.
  - intros p H. rewrite (factor_S (S f)), factor_S in *.
    destruct (Parser.current p); try reflexivity.
    + destruct (Parser.eat _ p) as [p1| |]; simpl in *; auto.
      rewrite IHf by now apply bind_fuel in H. reflexivity.
    + destruct (Parser.eat _ p) as [p1| |]; simpl in *; auto.
      rewrite IHf by now apply bind_fuel in H. reflexivity.
    + destruct (Parser.eat _ p) as [p1| |]; simpl in *; auto.
      rewrite IHe by now apply bind_fuel in H. reflexivity.
Qed.

Lemma expr_fuel_le (f f' : nat) (p : Parser.t) :
  f <= f' -> Parser.expr f p <> OutOfFuel -> Parser.expr f' p = Parser.expr f p.
Proof.
  induction 1 as [|f' _ IH]; intros H; [reflexivity|].
  destruct (parser_fuel_mono f') as (He & _).
  rewrite He; rewrite (IH H); congruence.
Qed.

Lemma expr_loop_fuel_le (f f' : nat) (node : AST) (p : Parser.t) :
  f <= f' -> Parser.expr_loop f node p <> OutOfFuel ->
  Parser.expr_loop f' node p = Parser.expr_loop f node p.
Proof.
  induction 1 as [|f' _ IH]; intros H; [reflexivity|].
  destruct (parser_fuel_mono f') as (_ & He & _).
  rewrite He; rewrite (IH H); congruence.
Qed.

Lemma term_fuel_le (f f' : nat) (p : Parser.t) :
  f <= f' -> Parser.term f p <> OutOfFuel -> Parser.term f' p = Parser.term f p.
Proof.
  induction 1 as [|f' _ IH]; intros H; [reflexivity|].
  destruct (parser_fuel_mono f') as (_ & _ & He & _).
  rewrite He; rewrite (IH H); congruence.
Qed.

Lemma term_loop_fuel_le (f f' : nat) (node : AST) (p : Parser.t) :
  f <= f' -> Parser.term_loop f node p <> OutOfFuel ->
  Parser.term_loop f' node p = Parser.term_loop f node p.
Proof.
  induction 1 as [|f' _ IH]; intros H; [reflexivity|].
  destruct (parser_fuel_mono f') as (_ & _ & _ & He & _).
  rewrite He; rewrite (IH H); congruence.
Qed.

Lemma factor_fuel_le (f f' : nat) (p : Parser.t) :
  f <= f' -> Parser.factor f p <> OutOfFuel ->
  Parser.factor f' p = Parser.factor f p.
Proof.
  induction 1 as [|f' _ IH]; intros H; [reflexivity|].
  destruct (parser_fuel_mono f') as (_ & _ & _ & _ & He).
  rewrite He; rewrite (IH H); congruence.
Qed.

(** ** Parser: the grammar is accepted *)

Lemma reads_app (ts1 ts2 : list Token) (p r : Parser.t) :
  reads p (ts1 ++ ts2)%list r -> exists q, reads p ts1 q /\ reads q ts2 r.
Proof.
  revert p; induction ts1 as [|t ts1 IH]; intros p H; simpl in H.
  - exists p. split; [constructor|assumption].
  - inversion H as [|p0 t0 ts0 q0 r0 Hcur Heat Hrest]; subst.
    destruct (IH _ Hrest) as (q & H1 & H2).
    exists q. split; [econstructor; eauto|assumption].
Qed.

Lemma reads_one (t : Token) (p r : Parser.t) :
  reads p [t] r -> Parser.current p = t /\ Parser.eat (type t) p = Ok r.
Proof.
  intros H. inversion H as [|p0 t0 ts0 q0 r0 Hcur Heat Hrest]; subst.
  inversion Hrest; subst. auto.
Qed.

Lemma reads_cons_inv (t : Token) (ts : list Token) (p r : Parser.t) :
  reads p (t :: ts) r ->
  Parser.current p = t
  /\ exists q, Parser.eat (type t) p = Ok q /\ reads q ts r.
Proof.
  intros H. inversion H as [|p0 t0 ts0 q0 r0 Hcur Heat Hrest]; subst. eauto.
Qed.

Lemma addop_token (t : Token) :
  Parser.is_addop (type t) = true -> t = TPLUS \/ t = TMINUS.
Proof. destruct t; simpl; auto; discriminate. Qed.

Lemma addop_not_mulop (ty : token_type) :
  Parser.is_addop ty = true -> Parser.is_mulop ty = false.
Proof. destruct ty; simpl; congruence. Qed.

(** The three methods follow a derivation of the grammar.  A derivation
    of [term] or [expr] ends inside the loop of the method, so the
    statement for them is that the method goes on as its loop does from
    the tree of the derivation. *)
Lemma parser_follows_grammar :
  (forall ts a, GExpr ts a ->
     forall p q, reads p ts q ->
       Parser.is_mulop (type (Parser.current q)) = false ->
       forall f0, Parser.expr_loop f0 a q <> OutOfFuel ->
         exists f, Parser.expr f p = Parser.expr_loop f0 a q)
  /\ (forall ts a, GTerm ts a ->
        forall p q, reads p ts q ->
          forall f0, Parser.term_loop f0 a q <> OutOfFuel ->
            exists f, Parser.term f p = Parser.term_loop f0 a q)
  /\ (forall ts a, GFactor ts a ->
        forall p q, reads p ts q ->
          exists f, Parser.factor f p = Ok (a, q)).
Proof.
  apply grammar_mutind.
  - (* expr := term *)
    intros ts a _ IHt p q Hr Hmul f0 Hf0.
    destruct (IHt p q Hr 1) as [f1 H1];
      [rewrite term_loop_S, Hmul; discriminate|].
    rewrite term_loop_S, Hmul in H1.
    exists (S (Nat.max f1 f0)). rewrite expr_S.
    rewrite (term_fuel_le f1) by (try lia; congruence).
    rewrite H1. simpl. apply expr_loop_fuel_le; [lia|assumption].
  - (* expr := expr ('+'|'-') term *)
    intros ts1 a t ts2 b _ IHe Hop _ IHt p q Hr Hmul f0 Hf0.
    apply reads_app in Hr as (q1 & Hr1 & Hr2).
    apply reads_cons_inv in Hr2 as (Hcur & q2 & Heat & Hr2).
    destruct (IHt q2 q Hr2 1) as [f2 H2];
      [rewrite term_loop_S, Hmul; discriminate|].
    rewrite term_loop_S, Hmul in H2.
    assert (Hloop : Parser.expr_loop (S (Nat.max f2 f0)) a q1
                    = Parser.expr_loop f0 (BinOp (type t) a b) q).
    { rewrite expr_loop_S, Hcur, Hop, Heat. simpl.
      rewrite (term_fuel_le f2) by (try lia; congruence).
      rewrite H2. simpl. apply expr_loop_fuel_le; [lia|assumption]. }
    rewrite <- Hloop. apply IHe; [assumption| |congruence].
    rewrite Hcur. now apply addop_not_mulop.
  - (* term := factor *)
    intros ts a _ IHf p q Hr f0 Hf0.
    destruct (IHf p q Hr) as [f1 H1].
    exists (S (Nat.max f1 f0)). rewrite term_S.
    rewrite (factor_fuel_le f1) by (try lia; congruence).
    rewrite H1. simpl. apply term_loop_fuel_le; [lia|assumption].
  - (* term := term ('*'|'/') factor *)
    intros ts1 a t ts2 b _ IHt Hop _ IHf p q Hr f0 Hf0.
    apply reads_app in Hr as (q1 & Hr1 & Hr2).
    apply reads_cons_inv in Hr2 as (Hcur & q2 & Heat & Hr2).
    destruct (IHf q2 q Hr2) as [f2 H2].
    assert (Hloop : Parser.term_loop (S (Nat.max f2 f0)) a q1
                    = Parser.term_loop f0 (BinOp (type t) a b) q).
    { rewrite term_loop_S, Hcur, Hop, Heat. simpl.
      rewrite (factor_fuel_le f2) by (try lia; congruence).
      rewrite H2. simpl. apply term_loop_fuel_le; [lia|assumption]. }
    rewrite <- Hloop. apply IHt; [assumption|congruence].
  - (* factor := NUMBER *)
    intros n p q Hr. apply reads_one in Hr as [Hcur Heat]. simpl in Heat.
    exists 1. now rewrite factor_S, Hcur, Heat.
  - (* factor := '(' expr ')' *)
    intros ts a _ IHe p q Hr.
    apply reads_cons_inv in Hr as (Hcur & p1 & Heat & Hr).
    apply reads_app in Hr as (p2 & Hr1 & Hr2).
    apply reads_one in Hr2 as [Hcur2 Heat2]. simpl in Heat, Heat2.
    destruct (IHe p1 p2 Hr1) with (f0 := 1) as [f H];
      [now rewrite Hcur2|rewrite expr_loop_S, Hcur2; discriminate|].
    rewrite expr_loop_S, Hcur2 in H. simpl in H.
    exists (S f). rewrite factor_S, Hcur, Heat. simpl. rewrite H. simpl.
    now rewrite Heat2.
  - (* factor := ('+'|'-') factor *)
    intros t ts a Hop _ IHf p q Hr.
    apply reads_cons_inv in Hr as (Hcur & p1 & Heat & Hr).
    destruct (IHf p1 q Hr) as [f H].
    exists (S f). rewrite factor_S, Hcur.
    destruct (addop_token t Hop) as [-> | ->]; simpl in *;
      rewrite Heat; simpl; now rewrite H.
Qed.

(** [parse] returns the tree of the derivation when the tokens of a
    derivation are followed by ['EOF']. *)
Lemma parse_accepts (ts : list Token) (a : AST) (p q : Parser.t) :
  GExpr ts a -> parser_inv p -> reads p ts q -> Parser.current q = TEOF ->
  Parser.parse p = Ok a.
Proof.
  intros Hg Hinv Hr Heof.
  destruct parser_follows_grammar as (He & _).
  destruct (He ts a Hg p q Hr) with (f0 := 1) as [f H];
    [now rewrite Heof|rewrite expr_loop_S, Heof; discriminate|].
  rewrite expr_loop_S, Heof in H. simpl in H.
  unfold Parser.parse.
  destruct (parser_fuel (Parser.enough p)) as (Hfuel & _).
  specialize (Hfuel p Hinv (Nat.le_refl _)).
  assert (Heq : Parser.expr (Parser.enough p) p = Ok (a, q)).
  { rewrite <- (expr_fuel_le (Parser.enough p) (Nat.max f (Parser.enough p)))
      by (try lia; assumption).
    rewrite (expr_fuel_le f) by (try lia; congruence). assumption. }
  rewrite Heq. simpl. now rewrite Heof.
Qed.

Lemma tokens_loop_first (n : nat) (lx : Lexer.t) (ts : list Token) :
  tokens_loop n lx = Some ts ->
  exists tok lx1, Lexer.get_next_token lx = (Ok tok, lx1).
Proof.
  destruct n as [|n]; simpl; [discriminate|].
  destruct (Lexer.get_next_token lx) as [[tok| |] lx1]; try discriminate.
  eauto.
Qed.

(** The parser, pulling tokens one at a time, reads the token list of
    the text. *)
Lemma tokens_loop_reads (n : nat) (lx lx1 : Lexer.t) (tok : Token)
  (ts : list Token) :
  tokens_loop n lx = Some ts -> Lexer.get_next_token lx = (Ok tok, lx1) ->
  exists q, reads (Parser.mk lx1 tok) ts q /\ Parser.current q = TEOF.
Proof.
  revert lx lx1 tok ts; induction n as [|n IH]; intros lx lx1 tok ts H Hg;
    simpl in H; [discriminate|].
  rewrite Hg in H.
  assert (Hcase : tok = TEOF /\ ts = []
                  \/ exists ts', ts = tok :: ts'
                                 /\ tokens_loop n lx1 = Some ts').
  { destruct tok; try (left; split; [reflexivity|congruence]);
      right; destruct (tokens_loop n lx1) as [ts'|]; simpl in H;
      try discriminate; injection H as <-; eauto. }
  destruct Hcase as [[-> ->] | (ts' & -> & H')].
  - eexists. split; [constructor|reflexivity].
  - destruct (tokens_loop_first _ _ _ H') as (tok2 & lx2 & Hg2).
    destruct (IH _ _ _ _ H' Hg2) as (q & Hr & Hq).
    exists q. split; [|assumption].
    econstructor; [reflexivity| |exact Hr].
    unfold Parser.eat. simpl.
    replace (token_type_eqb (type tok) (type tok)) with true
      by (symmetry; now apply token_type_eqb_eq).
    now rewrite Hg2.
Qed.

(** A valid expression is parsed, into the tree of its derivation. *)
Lemma parse_text_valid (text : string) (ts : list Token) (a : AST) :
  tokenize text = Some ts -> GExpr ts a -> parse_text text = Ok a.
Proof.
  intros Htok Hg. unfold tokenize in Htok.
  destruct (tokens_loop_first _ _ _ Htok) as (tok & lx1 & Hg1).
  destruct (tokens_loop_reads _ _ _ _ _ Htok Hg1) as (q & Hr & Hq).
  assert (Hinit : Parser.init text = Ok (Parser.mk lx1 tok)).
  { unfold Parser.init. now rewrite Hg1. }
  unfold parse_text. rewrite Hinit. simpl.
  eapply parse_accepts; eauto. now apply init_inv in Hinit.
Qed.

(** ** Parser: only the grammar is accepted *)

Lemma reads_app_intro (ts1 ts2 : list Token) (p q r : Parser.t) :
  reads p ts1 q -> reads q ts2 r -> reads p (ts1 ++ ts2)%list r.
Proof.
  induction 1 as [p|p t ts q0 q Hcur Heat _ IH]; intros H; simpl;
    [assumption|].
  econstructor; eauto.
Qed.

Lemma eat_type (ty : token_type) (p q : Parser.t) :
  Parser.eat ty p = Ok q -> type (Parser.current p) = ty.
Proof.
  unfold Parser.eat. intros H.
  destruct (token_type_eqb (type (Parser.current p)) ty) eqn:E;
    [|discriminate].
  now apply token_type_eqb_eq.
Qed.

Lemma eat_reads (ty : token_type) (p q : Parser.t) :
  Parser.eat ty p = Ok q -> reads p [Parser.current p] q.
Proof.
  intros H. econstructor; [reflexivity| |constructor].
  now rewrite (eat_type _ _ _ H).
Qed.

(** What a method returns is the tree of a derivation of the tokens it
    has read; a loop extends the derivation of its [node]. *)
Lemma parser_sound (f : nat) :
  (forall p a q, Parser.expr f p = Ok (a, q) ->
     exists ts, GExpr ts a /\ reads p ts q)
  /\ (forall node p a q, Parser.expr_loop f node p = Ok (a, q) ->
        forall ts0 p0, GExpr ts0 node -> reads p0 ts0 p ->
          exists ts, GExpr ts a /\ reads p0 ts q)
  /\ (forall p a q, Parser.term f p = Ok (a, q) ->
        exists ts, GTerm ts a /\ reads p ts q)
  /\ (forall node p a q, Parser.term_loop f node p = Ok (a, q) ->
        forall ts0 p0, GTerm ts0 node -> reads p0 ts0 p ->
          exists ts, GTerm ts a /\ reads p0 ts q)
  /\ (forall p a q, Parser.factor f p = Ok (a, q) ->
        exists ts, GFactor ts a /\ reads p ts q).
Proof.
  induction f as [|f (IHe & IHel & IHt & IHtl & IHf)];
    [repeat split; intros; discriminate|].
  split; [|split; [|split; [|split]]].
  - intros p a q H. rewrite expr_S in H.
    bind_inv H. destruct x as [node p1].
    destruct (IHt _ _ _ H0) as (ts1 & Hg1 & Hr1).
    apply (IHel _ _ _ _ H ts1 p); [now apply GExpr_term|assumption].
  - intros node p a q H ts0 p0 Hg0 Hr0. rewrite expr_loop_S in H.
    destruct (Parser.is_addop _) eqn:Hop.
    + bind_inv H. rename x into p1.
      bind_inv H. destruct x as [rhs p2].
      destruct (IHt _ _ _ H1) as (ts2 & Hg2 & Hr2).
      apply (IHel _ _ _ _ H (ts0 ++ Parser.current p :: ts2)%list p0).
      * now apply GExpr_more.
      * apply reads_app_intro with p; [assumption|].
        econstructor; eauto.
    + injection H as <- <-. eauto.
  - intros p a q H. rewrite term_S in H.
    bind_inv H. destruct x as [node p1].
    destruct (IHf _ _ _ H0) as (ts1 & Hg1 & Hr1).
    apply (IHtl _ _ _ _ H ts1 p); [now apply GTerm_factor|assumption].
  - intros node p a q H ts0 p0 Hg0 Hr0. rewrite term_loop_S in H.
    destruct (Parser.is_mulop _) eqn:Hop.
    + bind_inv H. rename x into p1.
      bind_inv H. destruct x as [rhs p2].
      destruct (IHf _ _ _ H1) as (ts2 & Hg2 & Hr2).
      apply (IHtl _ _ _ _ H (ts0 ++ Parser.current p :: ts2)%list p0).
      * now apply GTerm_more.
      * apply reads_app_intro with p; [assumption|].
        econstructor; eauto.
    + injection H as <- <-. eauto.
  - intros p a q H. rewrite factor_S in H.
    destruct (Parser.current p) eqn:Hcur; try discriminate.
    + bind_inv H. injection H as <- <-.
      exists [TNUMBER value]. split; [constructor|].
      rewrite <- Hcur. now apply eat_reads with NUMBER.
    + bind_inv H. rename x into p1.
      bind_inv H. destruct x as [e p2]. injection H as <- <-.
      destruct (IHf _ _ _ H1) as (ts & Hg & Hr).
      exists (TPLUS :: ts). split; [now apply (GFactor_unary TPLUS)|].
      econstructor; eauto.
    + bind_inv H. rename x into p1.
      bind_inv H. destruct x as [e p2]. injection H as <- <-.
      destruct (IHf _ _ _ H1) as (ts & Hg & Hr).
      exists (TMINUS :: ts). split; [now apply (GFactor_unary TMINUS)|].
      econstructor; eauto.
    + bind_inv H. rename x into p1.
      bind_inv H. destruct x as [node p2].
      bind_inv H. injection H as <- <-.
      destruct (IHe _ _ _ H1) as (ts & Hg & Hr).
      exists (TLPAREN :: ts ++ [TRPAREN])%list.
      split; [now apply GFactor_paren|].
      econstructor; eauto.
      apply reads_app_intro with p2; [assumption|].
      pose proof (eat_type _ _ _ H2) as Hty.
      replace TRPAREN with (Parser.current p2)
        by (destruct (Parser.current p2); try discriminate; reflexivity).
      now apply eat_reads with RPAREN.
Qed.

Lemma grammar_no_eof :
  (forall ts a, GExpr ts a -> Forall (fun t => t <> TEOF) ts)
  /\ (forall ts a, GTerm ts a -> Forall (fun t => t <> TEOF) ts)
  /\ (forall ts a, GFactor ts a -> Forall (fun t => t <> TEOF) ts).
Proof.
  apply grammar_mutind; intros;
    repeat first [ apply Forall_app; split
                 | apply Forall_cons
                 | apply Forall_nil
                 | assumption
                 | discriminate ];
    intros ->; discriminate.
Qed.

(** The tokens the parser has read up to an ['EOF'] lookahead are the
    token list of the text. *)
Lemma reads_tokens (ts : list Token) :
  forall (n : nat) (lx0 lx : Lexer.t) (tok : Token) (q : Parser.t),
    lexer_ok lx0 -> Lexer.get_next_token lx0 = (Ok tok, lx) ->
    reads (Parser.mk lx tok) ts q -> Forall (fun t => t <> TEOF) ts ->
    Parser.current q = TEOF ->
    String.length (Lexer.text lx0) - Lexer.pos lx0 < n ->
    tokens_loop n lx0 = Some ts.
Proof.
  induction ts as [|t ts IH]; intros n lx0 lx tok q Hok Hg Hr Hne Heof Hn;
    (destruct n as [|n]; [lia|]); simpl; rewrite Hg.
  - inversion Hr; subst. simpl in Heof. now subst tok.
  - apply reads_cons_inv in Hr as (Hcur & p1 & Heat & Hr). simpl in Hcur.
    subst tok. inversion Hne as [|? ? Ht Hne']; subst.
    pose proof (get_next_token_cases lx0 Hok) as Hc. rewrite Hg in Hc.
    pose proof (get_next_token_extends lx0 Hok) as (Htx & _ & Hok1 & _).
    rewrite Hg in Htx, Hok1. simpl in Htx, Hok1.
    unfold Parser.eat in Heat. simpl in Heat.
    replace (token_type_eqb (type t) (type t)) with true in Heat
      by (symmetry; now apply token_type_eqb_eq).
    destruct (Lexer.get_next_token lx) as [[tok2| |] lx2] eqn:Hg2;
      simpl in Heat; try discriminate. injection Heat as <-.
    rewrite (IH n lx lx2 tok2 q Hok1 Hg2 Hr Hne' Heof).
    + now destruct t.
    + destruct Hok1 as [Hle _]. rewrite Htx in *. destruct t; try lia.
      now contradiction Ht.
Qed.

(** The texts that are parsed are the valid expressions. *)
Lemma parse_text_sound (text : string) (a : AST) :
  parse_text text = Ok a ->
  exists ts, tokenize text = Some ts /\ GExpr ts a.
Proof.
  unfold parse_text. intros H. bind_inv H. rename x into p0.
  unfold Parser.parse in H. bind_inv H. destruct x as [node q].
  destruct (token_type_eqb (type (Parser.current q)) EOF) eqn:Hty;
    [|discriminate].
  injection H as <-. apply token_type_eqb_eq, type_eof in Hty.
  destruct (parser_sound (Parser.enough p0)) as (Hs & _).
  destruct (Hs _ _ _ H1) as (ts & Hg & Hr).
  exists ts. split; [|assumption].
  unfold Parser.init in H0.
  destruct (Lexer.get_next_token (Lexer.init text)) as [[tok| |] lx] eqn:Hg0;
    simpl in H0; try discriminate. injection H0 as <-.
  unfold tokenize.
  apply (reads_tokens ts _ _ lx tok q (init_ok text) Hg0 Hr);
    [exact (proj1 grammar_no_eof ts node Hg)|assumption|simpl; lia].
Qed.

Lemma valid_expression_iff_parsed (text : string) :
  valid_expression text <-> exists a, parse_text text = Ok a.
Proof.
  split.
  - intros (ts & a & Htok & Hg). exists a. eapply parse_text_valid; eauto.
  - intros (a & H). destruct (parse_text_sound _ _ H) as (ts & Htok & Hg).
    exists ts, a. auto.
Qed.

(** [tokenize] gives no list only when a call of the lexer raises: the
    number of calls it allows is enough for every text. *)
Lemma tokens_loop_none (n : nat) (lx : Lexer.t) :
  lexer_ok lx -> String.length (Lexer.text lx) - Lexer.pos lx < n ->
  tokens_loop n lx = None ->
  exists m e, nth_call m lx = Raise e.
Proof.
  revert lx; induction n as [|n IH]; intros lx Hok Hn H; [lia|].
  simpl in H.
  pose proof (get_next_token_cases lx Hok) as Hc.
  pose proof (get_next_token_extends lx Hok) as (Ht & _ & Hok' & _).
  destruct (Lexer.get_next_token lx) as [[tok|e|] lx'] eqn:Hg; simpl in *;
    [|exists 0, e; unfold nth_call; simpl; now rewrite Hg|contradiction].
  assert (Hrec : tokens_loop n lx' = None /\ tok <> TEOF).
  { destruct tok; try discriminate;
      (split; [|discriminate]);
      destruct (tokens_loop n lx'); try discriminate; reflexivity. }
  destruct Hrec as [Hnone Htok].
  destruct (IH lx' Hok') as (m & e & Hm); [|assumption|].
  - destruct Hok' as [Hle _]. rewrite Ht in *. destruct tok; try lia.
    now contradiction Htok.
  - exists (S m), e. unfold nth_call in *. simpl. now rewrite Hg.
Qed.

Lemma tokenize_none (text : string) :
  tokenize text = None ->
  exists m e, nth_call m (Lexer.init text) = Raise e.
Proof.
  apply tokens_loop_none; [apply init_ok|simpl; lia].
Qed.

(** ** Code generation *)

Lemma emit_bin_eq (op a b : string) (g : IRGen.t) :
  IRGen.emit_bin op a b g
  = (IR.regname (S (IRGen.reg g)),
     IRGen.mk (IRGen.lines g ++ [IR.render (IR.Bin (IR.regname (S (IRGen.reg g))) op a b)])%list
              (S (IRGen.reg g)) (IRGen.print_result g)).
Proof.
  unfold IRGen.emit_bin, IRGen.newreg, IR.regname, append. simpl.
  now rewrite Nat.add_1_r.
Qed.

#[local] Arguments IR.regname : simpl never.

Lemma operand_ok_le (k k' : nat) (o : string) :
  k <= k' -> operand_ok k o -> operand_ok k' o.
Proof. intros Hk [H | (j & Hj & ->)]; [now left|right]. exists j. split; [lia|auto]. Qed.

Lemma chain_app (k : nat) (p1 p2 : list IR.instr) :
  chain k p1 -> chain (k + List.length p1) p2 -> chain k (p1 ++ p2)%list.
Proof.
  revert k; induction p1 as [|i p1 IH]; intros k H1 H2; simpl in *.
  - now rewrite Nat.add_0_r in H2.
  - destruct H1 as [Hi H1]. split; [assumption|].
    apply IH; [assumption|]. now replace (S k + List.length p1) with (k + S (List.length p1)) by lia.
Qed.

Lemma opmap_ok (op : token_type) (o : string) :
  IRGen.opmap op = Ok o -> Parser.is_addop op || Parser.is_mulop op = true.
Proof. destruct op; simpl; intros H; try discriminate; reflexivity. Qed.

Lemma opmap_raise (op : token_type) (e : exn) :
  IRGen.opmap op = Raise e -> Parser.is_addop op || Parser.is_mulop op = false.
Proof. destruct op; simpl; intros H; try discriminate; reflexivity. Qed.

(** What [gen] does, for every tree and every state of the generator:
    it returns exactly on the trees whose operators are the parser's,
    appends one arithmetic instruction per binary node and per unary
    minus over a register, numbers them from the counter on, and returns
    the last register, or the folded immediate when the tree has no
    binary node. *)
Lemma gen_spec (a : AST) (g : IRGen.t) :
  match IRGen.gen a g with
  | Ok (v, g') =>
      wf_ast a = true
      /\ IRGen.print_result g' = IRGen.print_result g
      /\ exists prog,
           IRGen.lines g' = (IRGen.lines g ++ map IR.render prog)%list
           /\ IRGen.reg g' = IRGen.reg g + List.length prog
           /\ chain (IRGen.reg g) prog
           /\ List.length prog = count_binop a + count_neg_reg a
           /\ (if has_binop a
               then v = IR.regname (IRGen.reg g') /\ 0 < List.length prog
               else v = str (const_value a))
  | Raise _ => wf_ast a = false
  | OutOfFuel => False
  end.
Proof.
  revert g; induction a as [n | op l IHl r IHr | op e IHe]; intros g; simpl.
  - repeat split; auto. exists []. simpl. rewrite app_nil_r, Nat.add_0_r. auto.
  - specialize (IHl g).
    destruct (IRGen.gen l g) as [[a1 g1]|e1|]; simpl;
      [|now rewrite IHl, andb_false_r|assumption].
    destruct IHl as (Hwl & Hpl & pl & Hll & Hrl & Hcl & Hnl & Hvl).
    specialize (IHr g1).
    destruct (IRGen.gen r g1) as [[b1 g2]|e2|]; simpl;
      [|now rewrite IHr, andb_false_r|assumption].
    destruct IHr as (Hwr & Hpr & pr & Hlr & Hrr & Hcr & Hnr & Hvr).
    destruct (IRGen.opmap op) as [o|e3|] eqn:Hop; simpl;
      [|now rewrite (opmap_raise _ _ Hop)|destruct op; discriminate].
    unfold append. rewrite !Nat.add_1_r.
    change (String "%" (String "t" (str (Z.of_nat (S (IRGen.reg g2))))))
      with (IR.regname (S (IRGen.reg g2))).
    rewrite (opmap_ok _ _ Hop), Hwl, Hwr. repeat split; [congruence|].
    exists (pl ++ pr ++ [IR.Bin (IR.regname (S (IRGen.reg g2))) o a1 b1])%list.
    rewrite Hlr, Hll, !map_app, !length_app, <- !app_assoc. simpl.
    repeat split; try lia.
    apply chain_app; [assumption|]. apply chain_app; [now rewrite <- Hrl|].
    simpl. split; [|exact I].
    exists o, a1, b1. rewrite Hrr, Hrl. repeat split.
    + destruct (has_binop l).
      * right. exists (IRGen.reg g1). destruct Hvl as [-> ?]. split; [lia|reflexivity].
      * left. rewrite Hvl. apply is_immediate_str.
    + destruct (has_binop r).
      * right. exists (IRGen.reg g2). destruct Hvr as [-> ?]. split; [lia|reflexivity].
      * left. rewrite Hvr. apply is_immediate_str.
  - specialize (IHe g).
    destruct (IRGen.gen e g) as [[v g1]|e1|]; simpl;
      [|now rewrite IHe, andb_false_r|assumption].
    destruct IHe as (Hw & Hp & p & Hl & Hr & Hc & Hn & Hv).
    destruct op; simpl; try reflexivity.
    + (* unary plus *)
      repeat split; auto. exists p. repeat split; auto.
    + (* unary minus *)
      destruct (has_binop e) eqn:Hb.
      * destruct Hv as [-> Hlen]. rewrite is_immediate_regname. simpl.
        unfold append. rewrite !Nat.add_1_r.
        change (String "%" (String "t" (str (Z.of_nat (S (IRGen.reg g1))))))
          with (IR.regname (S (IRGen.reg g1))).
        repeat split; auto.
        exists (p ++ [IR.Bin (IR.regname (S (IRGen.reg g1))) "sub" "0" (IR.regname (IRGen.reg g1))])%list.
        rewrite Hl, !map_app, !length_app, <- !app_assoc. simpl.
        repeat split; try lia.
        apply chain_app; [assumption|]. simpl. split; [|exact I].
        exists "sub", "0", (IR.regname (IRGen.reg g1)). rewrite Hr.
        repeat split; [now left|].
        right. exists (IRGen.reg g + List.length p). split; [lia|reflexivity].
      * subst v. rewrite is_immediate_str, int_str. simpl.
        repeat split; auto. exists p. repeat split; auto.
Qed.

Lemma no_binop_counts (a : AST) :
  has_binop a = false -> count_binop a = 0 /\ count_neg_reg a = 0.
Proof.
  induction a as [n | op l IHl r IHr | op e IHe]; simpl; intros H;
    [auto|discriminate|].
  rewrite H, andb_false_r. destruct (IHe H) as [-> ->]. auto.
Qed.

(** The list [out] is the header, the lines of [gen], the end of the
    body and the closing brace. *)
Lemma out_lines_eq (v : string) (g : IRGen.t) :
  (IRGen.print_result g = false -> IRGen.is_immediate v = true -> int v <> None) ->
  IRGen.out_lines v g
  = Ok (header (IRGen.print_result g)
        ++ (IRGen.lines g
            ++ map IR.render (tail_instrs (IRGen.print_result g) (IRGen.reg g) v))
        ++ ["}"])%list.
Proof.
  intros Hint.
  unfold IRGen.out_lines, IRGen.ret_lines, tail_instrs, header, append, extend.
  destruct (IRGen.print_result g); [reflexivity|].
  specialize (Hint eq_refl).
  destruct (IRGen.is_immediate v); [|reflexivity].
  destruct (int v) as [val|]; [|now destruct Hint].
  match goal with |- context [if ?b then _ else _] => destruct b end;
    reflexivity.
Qed.

(** The whole of [build_module] for a tree, from a fresh generator. *)
Lemma build_spec (a : AST) (print_result : bool) :
  match IRGen.gen a (IRGen.init print_result) with
  | Ok (v, g) =>
      wf_ast a = true
      /\ exists prog,
           IRGen.lines g = map IR.render prog
           /\ IRGen.reg g = List.length prog
           /\ chain 0 prog
           /\ List.length prog = count_binop a + count_neg_reg a
           /\ (if has_binop a
               then v = IR.regname (List.length prog) /\ 0 < List.length prog
               else v = str (const_value a))
           /\ IRGen.out_lines v g
              = Ok (header print_result
                    ++ map IR.render
                         (prog ++ tail_instrs print_result (List.length prog) v)
                    ++ ["}"])%list
  | Raise _ => wf_ast a = false
  | OutOfFuel => False
  end.
Proof.
  pose proof (gen_spec a (IRGen.init print_result)) as H.
  destruct (IRGen.gen a (IRGen.init print_result)) as [[v g]|e|]; auto.
  destruct H as (Hw & Hp & prog & Hl & Hr & Hc & Hn & Hv). simpl in *.
  split; [assumption|]. exists prog. repeat split; auto.
  - rewrite Hr in Hv. now destruct (has_binop a).
  - rewrite out_lines_eq.
    + now rewrite Hp, Hl, Hr, map_app.
    + intros _ Hi. destruct (has_binop a).
      * destruct Hv as [-> _]. now rewrite is_immediate_regname in Hi.
      * subst v. now rewrite int_str.
Qed.

Lemma compile_to_ir_lines (text : string) (print_result : bool) :
  compile_to_ir text print_result
  = (out <- module_lines text print_result ;; Ok (String.concat nl out)).
Proof.
  unfold compile_to_ir, module_lines, gen_text, parse_text, IRGen.build_module.
  destruct (Parser.init text) as [p| |]; simpl; auto.
  destruct (Parser.parse p) as [a| |]; simpl; auto.
  destruct (IRGen.gen a _) as [[v g]| |]; simpl; auto.
Qed.

Lemma grammar_wf :
  (forall ts a, GExpr ts a -> wf_ast a = true)
  /\ (forall ts a, GTerm ts a -> wf_ast a = true)
  /\ (forall ts a, GFactor ts a -> wf_ast a = true).
Proof.
  apply grammar_mutind; simpl; intros; auto;
    repeat match goal with H : _ = true |- _ => rewrite H; clear H end;
    rewrite ?orb_true_r; reflexivity.
Qed.

(** A tree without a binary node is folded: [gen] returns the decimal of
    its value and emits nothing. *)
Lemma gen_const (e : AST) (g : IRGen.t) :
  wf_ast e = true -> has_binop e = false ->
  IRGen.gen e g = Ok (str (const_value e), g).
Proof.
  induction e as [n | op l IHl r IHr | op e IHe]; simpl; intros Hw Hb;
    [reflexivity|discriminate|].
  apply andb_prop in Hw as [Hop Hw]. rewrite (IHe Hw Hb). simpl.
  destruct op; try discriminate; [reflexivity|].
  now rewrite is_immediate_str, int_str.
Qed.

(** C4: unary plus returns what its operand returns, state included;
    unary minus over an operand that is an immediate (a tree of unary
    operators over a literal) returns the negated immediate and emits
    nothing; unary minus over a register reference appends the one line
    [%tN = sub i64 0, v] and returns [%tN]; in particular ["--5"] and
    ["-(-5)"] give the immediate ["5"] with no line emitted, in both
    modes. *)
Theorem unary_minus_folds_immediates :
  (forall e g, IRGen.gen (UnaryOp PLUS e) g = IRGen.gen e g)
  /\ (forall e g, wf_ast e = true -> has_binop e = false ->
        IRGen.gen e g = Ok (str (const_value e), g)
        /\ IRGen.gen (UnaryOp MINUS e) g = Ok (str (- const_value e), g))
  /\ (forall e g v g',
        IRGen.gen e g = Ok (v, g') -> IRGen.is_immediate v = false ->
        IRGen.gen (UnaryOp MINUS e) g
        = Ok (IR.regname (S (IRGen.reg g')),
              IRGen.mk (append (IRGen.lines g')
                          ("  " ++ IR.regname (S (IRGen.reg g'))
                           ++ " = sub i64 0, " ++ v))
                       (S (IRGen.reg g')) (IRGen.print_result g')))
  /\ (forall b, gen_text "--5" b = Ok ("5", IRGen.init b)
                /\ gen_text "-(-5)" b = Ok ("5", IRGen.init b))
  /\ module_lines "--5" false
     = Ok ["; ModuleID = 'tinyexpr'"; "define i32 @main() {"; "entry:";
           "  ret i32 5"; "}"]
  /\ module_lines "-(-5)" false = module_lines "--5" false.
Proof.
  split; [|split; [|split; [|split; [|split]]]].
  - intros e g. simpl. now destruct (IRGen.gen e g) as [[v g']| |].
  - intros e g Hw Hb. split; [now apply gen_const|].
    simpl. rewrite (gen_const e g Hw Hb). simpl.
    now rewrite is_immediate_str, int_str.
  - intros e g v g' H Hv. simpl. rewrite H. simpl. rewrite Hv.
    now rewrite emit_bin_eq.
  - intros []; split; reflexivity.
  - reflexivity.
  - reflexivity.
Qed.

Lemma unary_minus_folds_immediates_witness :
  (wf_ast (UnaryOp MINUS (Number 5)) = true
   /\ has_binop (UnaryOp MINUS (Number 5)) = false)
  /\ IRGen.gen (UnaryOp MINUS (UnaryOp MINUS (Number 5))) (IRGen.init true)
     = Ok ("5", IRGen.init true)
  /\ (IRGen.gen (BinOp PLUS (Number 1) (Number 2)) (IRGen.init true)
      = Ok ("%t1", IRGen.mk ["  %t1 = add i64 1, 2"] 1 true)
      /\ IRGen.is_immediate "%t1" = false)
  /\ IRGen.gen (UnaryOp MINUS (BinOp PLUS (Number 1) (Number 2))) (IRGen.init true)
     = Ok ("%t2", IRGen.mk ["  %t1 = add i64 1, 2"; "  %t2 = sub i64 0, %t1"] 2 true).
Proof.
  split; [split; reflexivity|]. split; [|split; [split; reflexivity|]].
  - exact (proj2 (proj1 (proj2 unary_minus_folds_immediates)
                    (UnaryOp MINUS (Number 5)) (IRGen.init true)
                    eq_refl eq_refl)).
  - exact (proj1 (proj2 (proj2 unary_minus_folds_immediates))
             (BinOp PLUS (Number 1) (Number 2)) (IRGen.init true)
             "%t1" (IRGen.mk ["  %t1 = add i64 1, 2"] 1 true)
             eq_refl eq_refl).
Defined.

(** C6: on every tree with the parser's operators [gen] returns, and the
    number of lines it appends is the number of binary nodes plus the
    number of unary minus nodes over an operand with a binary node; the
    value returned is a register reference exactly when the tree has a
    binary node, so these are the unary minus nodes whose operand
    evaluated to a register.  Every binary node, also one between two
    immediates, appends the line [%tN = m i64 a, b] after the lines of
    its operands, [m] being add, sub, mul, sdiv for ['+'], ['-'], ['*'],
    ['/']. *)
Theorem binary_nodes_always_emit :
  (forall a g, wf_ast a = true ->
     exists v g',
       IRGen.gen a g = Ok (v, g')
       /\ List.length (IRGen.lines g')
          = List.length (IRGen.lines g) + count_binop a + count_neg_reg a
       /\ IRGen.is_immediate v = negb (has_binop a))
  /\ (forall op l r g va g1 vb g2,
        IRGen.gen l g = Ok (va, g1) -> IRGen.gen r g1 = Ok (vb, g2) ->
        Parser.is_addop op || Parser.is_mulop op = true ->
        IRGen.gen (BinOp op l r) g
        = Ok (IR.regname (S (IRGen.reg g2)),
              IRGen.mk (append (IRGen.lines g2)
                          ("  " ++ IR.regname (S (IRGen.reg g2)) ++ " = "
                           ++ match op with
                              | PLUS => "add" | MINUS => "sub"
                              | MUL => "mul" | _ => "sdiv"
                              end
                           ++ " i64 " ++ va ++ ", " ++ vb))
                       (S (IRGen.reg g2)) (IRGen.print_result g2)))
  /\ (forall op x y g,
        Parser.is_addop op || Parser.is_mulop op = true ->
        exists line,
          IRGen.gen (BinOp op (Number x) (Number y)) g
          = Ok (IR.regname (S (IRGen.reg g)),
                IRGen.mk (append (IRGen.lines g) line)
                         (S (IRGen.reg g)) (IRGen.print_result g))).
Proof.
  split; [|split].
  - intros a g Hw. pose proof (gen_spec a g) as H.
    destruct (IRGen.gen a g) as [[v g']|e|]; [|congruence|contradiction].
    destruct H as (_ & _ & prog & Hl & _ & _ & Hn & Hv).
    exists v, g'. split; [reflexivity|]. split.
    + rewrite Hl, length_app, length_map. lia.
    + destruct (has_binop a); simpl.
      * destruct Hv as [-> _]. apply is_immediate_regname.
      * subst v. apply is_immediate_str.
  - intros op l r g va g1 vb g2 Hl Hr Hop. simpl. rewrite Hl. simpl.
    rewrite Hr. simpl.
    destruct op; try discriminate; simpl; now rewrite emit_bin_eq.
  - intros op x y g Hop.
    destruct op; try discriminate; eexists; simpl; rewrite emit_bin_eq;
      reflexivity.
Qed.

Lemma binary_nodes_always_emit_witness :
  (wf_ast (BinOp MUL (UnaryOp MINUS (BinOp PLUS (Number 1) (Number 2))) (Number 3))
   = true
   /\ exists v g',
        IRGen.gen (BinOp MUL (UnaryOp MINUS (BinOp PLUS (Number 1) (Number 2)))
                     (Number 3)) (IRGen.init true) = Ok (v, g')
        /\ List.length (IRGen.lines g') = 0 + 2 + 1
        /\ IRGen.is_immediate v = false)
  /\ ((IRGen.gen (Number 6) (IRGen.init true) = Ok ("6", IRGen.init true)
       /\ IRGen.gen (Number 4) (IRGen.init true) = Ok ("4", IRGen.init true)
       /\ Parser.is_addop DIV || Parser.is_mulop DIV = true)
      /\ IRGen.gen (BinOp DIV (Number 6) (Number 4)) (IRGen.init true)
         = Ok ("%t1", IRGen.mk ["  %t1 = sdiv i64 6, 4"] 1 true))
  /\ exists line,
       IRGen.gen (BinOp MINUS (Number 2) (Number 2)) (IRGen.init false)
       = Ok ("%t1", IRGen.mk [line] 1 false).
Proof.
  split; [split; [reflexivity|]|split; [split; [repeat split|]|]].
  - exact (proj1 binary_nodes_always_emit
             (BinOp MUL (UnaryOp MINUS (BinOp PLUS (Number 1) (Number 2)))
                (Number 3))
             (IRGen.init true) eq_refl).
  - exact (proj1 (proj2 binary_nodes_always_emit)
             DIV (Number 6) (Number 4) (IRGen.init true)
             "6" (IRGen.init true) "4" (IRGen.init true)
             eq_refl eq_refl eq_refl).
  - exact (proj2 (proj2 binary_nodes_always_emit)
             MINUS 2%Z 2%Z (IRGen.init false) eq_refl).
Defined.

(** ** Inputs without an expression (C10) *)

Lemma all_chars_get (f : ascii -> bool) (s : string) (i : nat) (c : ascii) :
  all_chars f s = true -> String.get i s = Some c -> f c = true.
Proof.
  revert i; induction s as [|c0 s IH]; intros i H Hg; simpl in *; [discriminate|].
  apply andb_prop in H as [Hc Hs]. destruct i; [congruence|eauto].
Qed.

Lemma whitespace_eof (text : string) :
  all_chars isspace text = true ->
  Lexer.get_next_token (Lexer.init text) = (Ok TEOF, Lexer.skip_ws (Lexer.init text)).
Proof.
  intros Hall. unfold Lexer.get_next_token.
  pose proof (skip_ws_stops _ (init_ok text)) as Hstop.
  pose proof (skip_ws_extends _ (init_ok text)) as (Ht & _ & [_ Hcur] & _).
  destruct (Lexer.current (Lexer.skip_ws (Lexer.init text))) as [c|];
    [|reflexivity].
  symmetry in Hcur. rewrite Ht in Hcur. simpl in Hcur.
  rewrite (all_chars_get _ _ _ _ Hall Hcur) in Hstop. discriminate.
Qed.

Lemma parse_at_eof (lx : Lexer.t) :
  Parser.parse (Parser.mk lx TEOF) = Raise (SyntaxError (UnexpectedToken TEOF)).
Proof.
  unfold Parser.parse, Parser.enough.
  replace (3 * Parser.size (Parser.mk lx TEOF) + 3)
    with (S (S (S (3 * Parser.size (Parser.mk lx TEOF))))) by lia.
  now rewrite expr_S, term_S, factor_S.
Qed.

(** C10: for the empty text and for every text of whitespace only,
    [compile_to_ir] raises the [SyntaxError] of [factor] on the ['EOF']
    token, in both modes: no module is returned. *)
Theorem blank_input_is_a_syntax_error (text : string) (print_result : bool) :
  all_chars isspace text = true ->
  compile_to_ir text print_result = Raise (SyntaxError (UnexpectedToken TEOF))
  /\ class_of (SyntaxError (UnexpectedToken TEOF)) = SyntaxErrorClass
  /\ message (UnexpectedToken TEOF) = "Unexpected token: Token(EOF, None)".
Proof.
  intros Hall. split; [|split; reflexivity].
  unfold compile_to_ir, Parser.init. rewrite (whitespace_eof _ Hall). simpl.
  now rewrite parse_at_eof.
Qed.

Lemma blank_input_is_a_syntax_error_witness :
  (all_chars isspace "" = true
   /\ compile_to_ir "" true = Raise (SyntaxError (UnexpectedToken TEOF)))
  /\ (all_chars isspace (String " " (String "009" (String "010" " "))) = true
      /\ compile_to_ir (String " " (String "009" (String "010" " "))) false
         = Raise (SyntaxError (UnexpectedToken TEOF))).
Proof.
  split; (split; [reflexivity|]).
  - exact (proj1 (blank_input_is_a_syntax_error "" true eq_refl)).
  - exact (proj1 (blank_input_is_a_syntax_error
                    (String " " (String "009" (String "010" " "))) false eq_refl)).
Defined.

(** ** Unknown characters (C1) *)

Lemma all_chars_false (f : ascii -> bool) (s : string) :
  all_chars f s = false ->
  exists i c, String.get i s = Some c /\ f c = false.
Proof.
  induction s as [|c0 s IH]; simpl; intros H; [discriminate|].
  destruct (f c0) eqn:Hc; simpl in H.
  - destruct (IH H) as (i & c & Hg & Hf). exists (S i), c. auto.
  - exists 0, c0. auto.
Qed.

Lemma compile_to_ir_parse (text : string) (print_result : bool) :
  compile_to_ir text print_result
  = (ast <- parse_text text ;;
     IRGen.build_module ast (IRGen.init print_result)).
Proof.
  unfold compile_to_ir, parse_text.
  now destruct (Parser.init text) as [p| |].
Qed.

(** A text that is parsed holds known characters only: the parser stops
    on ['EOF'], which the lexer yields at the end of the text, past
    characters it has a branch for. *)
Lemma parsed_text_is_known (text : string) (a : AST) :
  parse_text text = Ok a -> all_chars known_char text = true.
Proof.
  intros H. destruct (all_chars known_char text) eqn:Hall; [reflexivity|].
  exfalso. apply all_chars_false in Hall as (i & c & Hg & Hk).
  unfold parse_text in H. bind_inv H. rename x into p0.
  destruct (init_inv _ _ H0) as [Hinv Htext].
  unfold Parser.parse in H. bind_inv H. destruct x as [node q].
  destruct (parser_steps (Parser.enough p0)) as (Hsteps & _).
  destruct (Hsteps _ _ _ Hinv H1) as ((_ & Hknown & Heof) & Ht & _).
  destruct (token_type_eqb (type (Parser.current q)) EOF) eqn:Hty;
    [|discriminate].
  apply token_type_eqb_eq, type_eof in Hty. specialize (Heof Hty).
  rewrite Ht, Htext in *. apply get_some_lt in Hg as Hlt.
  destruct (Hknown i ltac:(lia)) as (c' & Hg' & Hk'). congruence.
Qed.

Lemma unknown_character_raises (lx : Lexer.t) (c : ascii) :
  Lexer.current (Lexer.skip_ws lx) = Some c -> known_char c = false ->
  Lexer.get_next_token lx
  = (Raise (SyntaxError (UnexpectedCharacter c)), Lexer.skip_ws lx).
Proof.
  intros Hc Hk. unfold Lexer.get_next_token. rewrite Hc.
  unfold known_char, is_punct in Hk.
  apply orb_false_elim in Hk as [Hk Hp]. apply orb_false_elim in Hk as [_ Hd].
  rewrite Hd.
  repeat match goal with
         | |- context [Ascii.eqb c ?x] =>
             destruct (Ascii.eqb c x); [now rewrite ?orb_true_r in Hp|]
         end.
  reflexivity.
Qed.

(** C1, as amended: a text that holds a character that is not a digit,
    whitespace or one of [+ - * / ( )] is never compiled, [compile_to_ir]
    raises; when the lexer comes to that character, [get_next_token]
    raises a [SyntaxError], the class of the grammar errors (the source
    has no other), whose message names the character and no position;
    for ["1+2&3"] it is [SyntaxError("Unexpected character: &")] in both
    modes. *)
Theorem unknown_character_is_rejected :
  (forall text b, all_chars known_char text = false ->
     exists e, compile_to_ir text b = Raise e)
  /\ (forall lx c,
        Lexer.current (Lexer.skip_ws lx) = Some c -> known_char c = false ->
        Lexer.get_next_token lx
        = (Raise (SyntaxError (UnexpectedCharacter c)), Lexer.skip_ws lx)
        /\ class_of (SyntaxError (UnexpectedCharacter c)) = SyntaxErrorClass
        /\ message (UnexpectedCharacter c)
           = "Unexpected character: " ++ String c "")
  /\ (forall b, compile_to_ir "1+2&3" b
                = Raise (SyntaxError (UnexpectedCharacter "&")))
  /\ message (UnexpectedCharacter "&") = "Unexpected character: &".
Proof.
  split; [|split; [|split]].
  - intros text b Hall. rewrite compile_to_ir_parse.
    pose proof (parse_text_never_out_of_fuel text) as Hfuel.
    pose proof (parsed_text_is_known text) as Hknown.
    destruct (parse_text text) as [a|e|]; [|now exists e|contradiction].
    rewrite (Hknown a eq_refl) in Hall. discriminate.
  - intros lx c Hc Hk. split; [now apply unknown_character_raises|].
    split; reflexivity.
  - intros []; reflexivity.
  - reflexivity.
Qed.

Lemma unknown_character_is_rejected_witness :
  all_chars known_char "1+2&3" = false
  /\ (exists e, compile_to_ir "1+2&3" true = Raise e)
  /\ (Lexer.current (Lexer.skip_ws (Lexer.mk "1+2&3" 3 (Some "&"%char)))
      = Some "&"%char
      /\ known_char "&" = false)
  /\ Lexer.get_next_token (Lexer.mk "1+2&3" 3 (Some "&"%char))
     = (Raise (SyntaxError (UnexpectedCharacter "&")),
        Lexer.skip_ws (Lexer.mk "1+2&3" 3 (Some "&"%char))).
Proof.
  split; [reflexivity|]. split; [|split; [split; reflexivity|]].
  - exact (proj1 unknown_character_is_rejected "1+2&3" true eq_refl).
  - exact (proj1 (proj1 (proj2 unknown_character_is_rejected)
                    (Lexer.mk "1+2&3" 3 (Some "&"%char)) "&"%char
                    eq_refl eq_refl)).
Defined.

(** C1, as stated, fails on ["1+2&3"]: the exception raised is of class
    [SyntaxError], not of a class apart from it. *)
Lemma unknown_character_error_is_not_distinct :
  ~ (exists e, compile_to_ir "1+2&3" true = Raise e
               /\ class_of e <> SyntaxErrorClass).
Proof.
  intros (e & H & Hc).
  change (compile_to_ir "1+2&3" true)
    with (@Raise string (SyntaxError (UnexpectedCharacter "&"))) in H.
  injection H as <-. now apply Hc.
Qed.

(** ** Grammar violations (C7) *)

(** A result obtained on some fuel is the result on the fuel of [parse]. *)
Lemma expr_enough (f : nat) (p : Parser.t) :
  parser_inv p -> Parser.expr f p <> OutOfFuel ->
  Parser.expr (Parser.enough p) p = Parser.expr f p.
Proof.
  intros Hinv Hf.
  destruct (parser_fuel (Parser.enough p)) as (Hfuel & _).
  specialize (Hfuel p Hinv (Nat.le_refl _)).
  rewrite <- (expr_fuel_le (Parser.enough p) (Nat.max f (Parser.enough p)))
    by (try lia; assumption).
  apply expr_fuel_le; [lia|assumption].
Qed.

(** After the tokens of an expression, a token that is no operator ends
    [expr]: [parse] returns on ['EOF'] and raises on any other token. *)
Lemma parse_after_expression (ts : list Token) (a : AST) (p q : Parser.t) :
  GExpr ts a -> parser_inv p -> reads p ts q ->
  Parser.is_addop (type (Parser.current q)) = false ->
  Parser.is_mulop (type (Parser.current q)) = false ->
  Parser.parse p
  = if token_type_eqb (type (Parser.current q)) EOF then Ok a
    else Raise (SyntaxError TrailingInput).
Proof.
  intros Hg Hinv Hr Hadd Hmul.
  destruct parser_follows_grammar as (He & _).
  destruct (He ts a Hg p q Hr Hmul 1) as [f H];
    [rewrite expr_loop_S, Hadd; discriminate|].
  rewrite expr_loop_S, Hadd in H.
  unfold Parser.parse. rewrite (expr_enough f) by (try assumption; congruence).
  now rewrite H.
Qed.

Lemma parse_missing_paren (ts : list Token) (a : AST) (p q : Parser.t) :
  GExpr ts a -> parser_inv p -> reads p (TLPAREN :: ts) q ->
  Parser.is_addop (type (Parser.current q)) = false ->
  Parser.is_mulop (type (Parser.current q)) = false ->
  type (Parser.current q) <> RPAREN ->
  Parser.parse p
  = Raise (SyntaxError (ExpectedToken RPAREN (Parser.current q))).
Proof.
  intros Hg Hinv Hr Hadd Hmul Hrp.
  apply reads_cons_inv in Hr as (Hcur & p1 & Heat & Hr). simpl in Heat.
  destruct parser_follows_grammar as (He & _).
  destruct (He ts a Hg p1 q Hr Hmul 1) as [f H];
    [rewrite expr_loop_S, Hadd; discriminate|].
  rewrite expr_loop_S, Hadd in H.
  assert (Heatq : Parser.eat RPAREN q
                  = Raise (SyntaxError (ExpectedToken RPAREN (Parser.current q)))).
  { unfold Parser.eat.
    destruct (token_type_eqb (type (Parser.current q)) RPAREN) eqn:E;
      [|reflexivity].
    now apply token_type_eqb_eq in E. }
  assert (Hexpr : Parser.expr (S (S (S f))) p
                  = Raise (SyntaxError (ExpectedToken RPAREN (Parser.current q)))).
  { rewrite expr_S, term_S, factor_S, Hcur, Heat. simpl. rewrite H. simpl.
    now rewrite Heatq. }
  unfold Parser.parse.
  rewrite (expr_enough (S (S (S f)))) by (try assumption; congruence).
  now rewrite Hexpr.
Qed.

Lemma parse_unexpected_token (p : Parser.t) :
  starts_factor (Parser.current p) = false ->
  Parser.parse p = Raise (SyntaxError (UnexpectedToken (Parser.current p))).
Proof.
  intros H. unfold Parser.parse, Parser.enough.
  replace (3 * Parser.size p + 3) with (S (S (S (3 * Parser.size p)))) by lia.
  rewrite expr_S, term_S, factor_S.
  now destruct (Parser.current p).
Qed.




(** ** The function body (C8, C5) *)

Lemma chain_numbered (k : nat) (prog tail : list IR.instr) :
  chain k prog -> numbered_from (k + List.length prog) tail ->
  numbered_from k (prog ++ tail)%list.
Proof.
  revert k; induction prog as [|i prog IH]; intros k Hc Ht; simpl in *.
  - now rewrite Nat.add_0_r in Ht.
  - destruct Hc as [(op & a & b & -> & _) Hc]. split; [reflexivity|].
    apply IH; [assumption|].
    now replace (S k + List.length prog) with (k + S (List.length prog)) by lia.
Qed.

Lemma chain_count_defs (k : nat) (prog tail : list IR.instr) :
  chain k prog ->
  count_defs (prog ++ tail)%list = List.length prog + count_defs tail.
Proof.
  revert k; induction prog as [|i prog IH]; intros k Hc; simpl in *; auto.
  destruct Hc as [(op & a & b & -> & _) Hc]. now rewrite (IH _ Hc).
Qed.

Lemma tail_numbered (b : bool) (r : nat) (v : string) :
  numbered_from r (tail_instrs b r v).
Proof.
  unfold tail_instrs. destruct b; simpl; auto.
  destruct (IRGen.is_immediate v).
  - destruct (int v) as [val|]; simpl; auto.
    destruct (_ || _)%bool; simpl; auto.
    rewrite !Nat.add_1_r. auto.
  - simpl. rewrite Nat.add_1_r. auto.
Qed.

Lemma indented_regname (n : nat) (rest : string) :
  indented ("  " ++ IR.regname n ++ rest).
Proof. eexists "%"%char, _. split; [reflexivity|discriminate]. Qed.

Lemma chain_indented (k : nat) (prog : list IR.instr) :
  chain k prog -> Forall indented (map IR.render prog).
Proof.
  revert k; induction prog as [|i prog IH]; intros k Hc; simpl in *;
    constructor.
  - destruct Hc as [(op & a & b & -> & _) _]. apply indented_regname.
  - destruct Hc as [_ Hc]. eauto.
Qed.

Lemma tail_indented (b : bool) (r : nat) (v : string) :
  Forall indented (map IR.render (tail_instrs b r v)).
Proof.
  unfold tail_instrs. destruct b.
  - repeat constructor; eexists _, _; (split; [reflexivity|discriminate]).
  - destruct (IRGen.is_immediate v).
    + destruct (int v) as [val|]; [|constructor].
      destruct (_ || _)%bool;
        repeat constructor; try apply indented_regname;
        eexists _, _; (split; [reflexivity|discriminate]).
    + repeat constructor; try apply indented_regname;
        eexists _, _; (split; [reflexivity|discriminate]).
Qed.

(** What [module_lines] returns, by the tree that was parsed. *)
Lemma module_lines_spec (text : string) (b : bool) (out : list string) :
  module_lines text b = Ok out ->
  exists a v prog,
    parse_text text = Ok a
    /\ wf_ast a = true
    /\ chain 0 prog
    /\ List.length prog = count_binop a + count_neg_reg a
    /\ (if has_binop a
        then v = IR.regname (List.length prog) /\ 0 < List.length prog
        else v = str (const_value a))
    /\ out = (header b
              ++ map IR.render (prog ++ tail_instrs b (List.length prog) v)
              ++ ["}"])%list.
Proof.
  unfold module_lines, gen_text. intros H.
  bind_inv H. destruct x as [v g]. bind_inv H0. rename x into a.
  pose proof (build_spec a b) as Hb. rewrite H0 in Hb.
  destruct Hb as (Hw & prog & _ & _ & Hc & Hn & Hv & Hout).
  exists a, v, prog. repeat split; auto. congruence.
Qed.

(** C8: in the module of one compilation the lines of the function body
    (between [entry:] and the closing brace) are each indented by exactly
    two spaces, and those that define a virtual register define [%t1],
    [%t2], ... in this order, one number per emitted instruction: as
    many as the tree has binary nodes and unary minus nodes over a
    register, plus in exit-code mode one for the narrowing of a register,
    or two for the materialization and the narrowing of an immediate
    outside the 32-bit range. *)
Theorem registers_count_emitted_instructions
  (text : string) (b : bool) (out : list string) :
  module_lines text b = Ok out ->
  exists a body,
    parse_text text = Ok a
    /\ compile_to_ir text b = Ok (String.concat nl out)
    /\ out = (header b ++ map IR.render body ++ ["}"])%list
    /\ numbered_from 0 body
    /\ Forall indented (map IR.render body)
    /\ count_defs body
       = count_binop a + count_neg_reg a
         + (if b then 0
            else if has_binop a then 1
            else if too_wide (const_value a) then 2 else 0).
Proof.
  intros H.
  destruct (module_lines_spec _ _ _ H) as (a & v & prog & Hp & Hw & Hc & Hn & Hv & ->).
  exists a, (prog ++ tail_instrs b (List.length prog) v)%list.
  split; [assumption|]. split; [now rewrite compile_to_ir_lines, H|].
  split; [reflexivity|]. split; [|split].
  - apply chain_numbered; [assumption|]. apply tail_numbered.
  - rewrite map_app. apply Forall_app. split;
      [eapply chain_indented; eauto|apply tail_indented].
  - rewrite (chain_count_defs 0) by assumption. rewrite Hn. f_equal.
    unfold tail_instrs, too_wide. destruct b; [reflexivity|].
    destruct (has_binop a).
    + destruct Hv as [-> _]. now rewrite is_immediate_regname.
    + subst v. rewrite is_immediate_str, int_str.
      now destruct (_ || _)%bool.
Qed.

Lemma registers_count_emitted_instructions_witness :
  module_lines "-(3 + 4) / 2" false
  = Ok ["; ModuleID = 'tinyexpr'"; "define i32 @main() {"; "entry:";
        "  %t1 = add i64 3, 4"; "  %t2 = sub i64 0, %t1";
        "  %t3 = sdiv i64 %t2, 2"; "  %t4 = trunc i64 %t3 to i32";
        "  ret i32 %t4"; "}"]
  /\ exists a body,
       parse_text "-(3 + 4) / 2" = Ok a
       /\ compile_to_ir "-(3 + 4) / 2" false
          = Ok (String.concat nl
                  ["; ModuleID = 'tinyexpr'"; "define i32 @main() {"; "entry:";
                   "  %t1 = add i64 3, 4"; "  %t2 = sub i64 0, %t1";
                   "  %t3 = sdiv i64 %t2, 2"; "  %t4 = trunc i64 %t3 to i32";
                   "  ret i32 %t4"; "}"])
       /\ ["; ModuleID = 'tinyexpr'"; "define i32 @main() {"; "entry:";
           "  %t1 = add i64 3, 4"; "  %t2 = sub i64 0, %t1";
           "  %t3 = sdiv i64 %t2, 2"; "  %t4 = trunc i64 %t3 to i32";
           "  ret i32 %t4"; "}"]
          = (header false ++ map IR.render body ++ ["}"])%list
       /\ numbered_from 0 body
       /\ Forall indented (map IR.render body)
       /\ count_defs body
          = count_binop a + count_neg_reg a
            + (if has_binop a then 1
               else if too_wide (const_value a) then 2 else 0).
Proof.
  split; [reflexivity|].
  apply (registers_count_emitted_instructions "-(3 + 4) / 2" false
           ["; ModuleID = 'tinyexpr'"; "define i32 @main() {"; "entry:";
            "  %t1 = add i64 3, 4"; "  %t2 = sub i64 0, %t1";
            "  %t3 = sdiv i64 %t2, 2"; "  %t4 = trunc i64 %t3 to i32";
            "  ret i32 %t4"; "}"]).
  reflexivity.
Defined.

Lemma mem_cons (x y : string) (l : list string) :
  IR.mem x (y :: l) = String.eqb x y || IR.mem x l.
Proof. reflexivity. Qed.

Lemma covers_le (k k' : nat) (d : list string) :
  k' <= k -> covers k d -> covers k' d.
Proof. intros Hk H j Hj. apply H. lia. Qed.

Lemma covers_cons (k : nat) (x : string) (d : list string) :
  covers k d -> covers k (x :: d).
Proof. intros H j Hj. rewrite mem_cons, (H j Hj). apply orb_true_r. Qed.

Lemma covers_next (k : nat) (d : list string) :
  covers k d -> covers (S k) (IR.regname (S k) :: d).
Proof.
  intros H j Hj. rewrite mem_cons.
  destruct (Nat.eq_dec j (S k)) as [-> | Hne].
  - now rewrite String.eqb_refl.
  - rewrite (H j) by lia. apply orb_true_r.
Qed.

Lemma operand_defined (k : nat) (o : string) (d : list string) :
  operand_ok k o -> covers k d -> IRGen.is_immediate o || IR.mem o d = true.
Proof.
  intros [-> | (j & Hj & ->)] Hc; [reflexivity|].
  rewrite (Hc j Hj). apply orb_true_r.
Qed.

Lemma chain_defined_before_use (k : nat) (prog tail : list IR.instr)
  (d : list string) :
  chain k prog -> covers k d ->
  (forall d', covers (k + List.length prog) d' ->
              IR.defined_before_use d' tail = true) ->
  IR.defined_before_use d (prog ++ tail)%list = true.
Proof.
  revert k d; induction prog as [|i prog IH]; intros k d Hc Hd Ht; simpl in *.
  - apply Ht. now rewrite Nat.add_0_r.
  - destruct Hc as [(op & a & b & -> & Ha & Hb) Hc]. simpl.
    rewrite (operand_defined _ _ _ Ha Hd), (operand_defined _ _ _ Hb Hd). simpl.
    apply (IH (S k)); [assumption|now apply covers_next|].
    intros d' Hd'. apply Ht.
    now replace (k + S (List.length prog)) with (S k + List.length prog) by lia.
Qed.

Lemma tail_defined_before_use (b : bool) (k : nat) (v : string)
  (d : list string) :
  operand_ok k v -> covers k d ->
  IR.defined_before_use d (tail_instrs b k v) = true.
Proof.
  intros Hv Hd. unfold tail_instrs. destruct b.
  - simpl. pose proof (operand_defined k v d Hv Hd) as H.
    destruct (IRGen.is_immediate v); simpl in *; [reflexivity|].
    rewrite H. now rewrite orb_true_r.
  - destruct (IRGen.is_immediate v) eqn:Hi.
    + destruct (int v) as [val|]; [|reflexivity].
      destruct (_ || _)%bool; simpl.
      * rewrite is_immediate_str, !String.eqb_refl. reflexivity.
      * now rewrite is_immediate_str.
    + simpl. rewrite Hi, String.eqb_refl. simpl.
      pose proof (operand_defined k v d Hv Hd) as H. rewrite Hi in H.
      simpl in H. now rewrite H.
Qed.



(** ** Exit-code narrowing (C2) *)

Lemma wrap32_signed (n : Z) : IR.wrap 32 n = signed32 n.
Proof.
  unfold IR.wrap, signed32.
  change (2 ^ (32 - 1))%Z with 2147483648%Z.
  change (2 ^ 32)%Z with 4294967296%Z. change (2 ^ 31)%Z with 2147483648%Z.
  destruct (Z.ltb_spec (n mod 4294967296) 2147483648);
    Z.div_mod_to_equations; lia.
Qed.

Lemma wrap32_wrap64 (n : Z) : IR.wrap 32 (IR.wrap 64 n) = IR.wrap 32 n.
Proof.
  unfold IR.wrap.
  change (2 ^ (32 - 1))%Z with 2147483648%Z.
  change (2 ^ 32)%Z with 4294967296%Z.
  change (2 ^ (64 - 1))%Z with 9223372036854775808%Z.
  change (2 ^ 64)%Z with 18446744073709551616%Z.
  Z.div_mod_to_equations. lia.
Qed.

(** The three instructions of the wide case return the immediate
    truncated to 32 bits. *)
Lemma run_materialize_and_narrow (val : Z) (r : nat) :
  IR.run [] [ IR.Bin (IR.regname (r + 1)) "add" "0" (str val);
              IR.Trunc (IR.regname (r + 1 + 1)) (IR.regname (r + 1));
              IR.Ret (IR.regname (r + 1 + 1)) ]
  = Some (signed32 val).
Proof.
  simpl. unfold IR.operand at 1 2.
  rewrite is_immediate_str, int_str. simpl.
  unfold IR.operand. rewrite !is_immediate_regname. simpl.
  rewrite !String.eqb_refl. simpl.
  now rewrite !wrap32_wrap64, wrap32_signed.
Qed.

Lemma module_lines_immediate (text : string) (ts : list Token) (a : AST) :
  tokenize text = Some ts -> GExpr ts a -> has_binop a = false ->
  module_lines text false
  = Ok (header false
        ++ map IR.render (tail_instrs false 0 (str (const_value a)))
        ++ ["}"])%list.
Proof.
  intros Htok Hg Hb. unfold module_lines, gen_text.
  rewrite (parse_text_valid _ _ _ Htok Hg). simpl.
  rewrite (gen_const a) by (try assumption; now apply (proj1 grammar_wf ts)).
  simpl. rewrite out_lines_eq; [reflexivity|].
  intros _ _. now rewrite int_str.
Qed.

(** C2: in exit-code mode, when the final value is an immediate (the
    tree has no binary node) outside the signed 32-bit range, the body
    of the module is the materialization [%t1 = add i64 0, val], the
    narrowing [%t2 = trunc i64 %t1 to i32] and [ret i32 %t2]; no line
    returns the literal, and the value returned is [val mod 2^32] read as
    a signed 32-bit integer.  An immediate in the range is returned as
    the literal by the single line [ret i32 val]. *)
Theorem exit_code_narrows_wide_immediates
  (text : string) (ts : list Token) (a : AST) :
  tokenize text = Some ts -> GExpr ts a -> has_binop a = false ->
  exists out,
    module_lines text false = Ok out
    /\ compile_to_ir text false = Ok (String.concat nl out)
    /\ if too_wide (const_value a) then
         out = [ "; ModuleID = 'tinyexpr'"; "define i32 @main() {"; "entry:";
                 "  %t1 = add i64 0, " ++ str (const_value a);
                 "  %t2 = trunc i64 %t1 to i32";
                 "  ret i32 %t2"; "}" ]
         /\ ~ In ("  ret i32 " ++ str (const_value a)) out
         /\ out = (header false
                   ++ map IR.render
                        [ IR.Bin "%t1" "add" "0" (str (const_value a));
                          IR.Trunc "%t2" "%t1"; IR.Ret "%t2" ]
                   ++ ["}"])%list
         /\ IR.run [] [ IR.Bin "%t1" "add" "0" (str (const_value a));
                        IR.Trunc "%t2" "%t1"; IR.Ret "%t2" ]
            = Some (signed32 (const_value a))
       else
         out = [ "; ModuleID = 'tinyexpr'"; "define i32 @main() {"; "entry:";
                 "  ret i32 " ++ str (const_value a); "}" ].
Proof.
  intros Htok Hg Hb.
  pose proof (module_lines_immediate _ _ _ Htok Hg Hb) as H.
  eexists. split; [exact H|]. split; [now rewrite compile_to_ir_lines, H|].
  unfold tail_instrs. rewrite is_immediate_str, int_str.
  fold (too_wide (const_value a)).
  destruct (too_wide (const_value a)); [|reflexivity].
  split; [reflexivity|]. split; [|split; [reflexivity|]].
  - simpl. intros [E|[E|[E|[E|[E|[E|[E|[]]]]]]]]; try discriminate.
    injection E as E.
    pose proof (is_immediate_str (const_value a)) as Hi.
    rewrite <- E in Hi. discriminate.
  - apply (run_materialize_and_narrow (const_value a) 0).
Qed.

Lemma exit_code_narrows_wide_immediates_witness :
  (tokenize "2147483648" = Some [TNUMBER 2147483648]
   /\ GExpr [TNUMBER 2147483648] (Number 2147483648)
   /\ has_binop (Number 2147483648) = false)
  /\ compile_to_ir "2147483648" false
     = Ok (String.concat nl
             [ "; ModuleID = 'tinyexpr'"; "define i32 @main() {"; "entry:";
               "  %t1 = add i64 0, 2147483648";
               "  %t2 = trunc i64 %t1 to i32";
               "  ret i32 %t2"; "}" ])
  /\ IR.run [] [ IR.Bin "%t1" "add" "0" "2147483648";
                 IR.Trunc "%t2" "%t1"; IR.Ret "%t2" ]
     = Some (- 2 ^ 31)%Z
  /\ exists out,
       module_lines "2147483648" false = Ok out
       /\ compile_to_ir "2147483648" false = Ok (String.concat nl out)
       /\ out = [ "; ModuleID = 'tinyexpr'"; "define i32 @main() {"; "entry:";
                  "  %t1 = add i64 0, 2147483648";
                  "  %t2 = trunc i64 %t1 to i32";
                  "  ret i32 %t2"; "}" ]
       /\ ~ In "  ret i32 2147483648" out
       /\ out = (header false
                 ++ map IR.render
                      [ IR.Bin "%t1" "add" "0" "2147483648";
                        IR.Trunc "%t2" "%t1"; IR.Ret "%t2" ]
                 ++ ["}"])%list
       /\ IR.run [] [ IR.Bin "%t1" "add" "0" "2147483648";
                      IR.Trunc "%t2" "%t1"; IR.Ret "%t2" ]
          = Some (- 2147483648)%Z.
Proof.
  assert (Hg : GExpr [TNUMBER 2147483648] (Number 2147483648))
    by (apply GExpr_term, GTerm_factor, GFactor_number).
  split; [split; [reflexivity|split; [exact Hg|reflexivity]]|].
  split; [reflexivity|]. split; [reflexivity|].
  exact (exit_code_narrows_wide_immediates "2147483648" [TNUMBER 2147483648]
           (Number 2147483648) eq_refl Hg eq_refl).
Defined.

(** ** Precedence and associativity (C3) *)



(** ** The lexer on the unread text *)

Lemma drop_length (n : nat) (s : string) :
  String.length (drop n s) = String.length s - n.
Proof. revert s; induction n as [|n IH]; intros [|c s]; simpl; auto. Qed.

Lemma drop_get (n : nat) (s : string) :
  String.get n s = String.get 0 (drop n s).
Proof.
  revert s; induction n as [|n IH]; intros [|c s]; simpl; auto.
Qed.

Lemma drop_succ (n : nat) (s : string) (c : ascii) (rest : string) :
  drop n s = String c rest -> drop (n + 1) s = rest.
Proof.
  revert s; induction n as [|n IH]; intros [|d s] H; simpl in *;
    try discriminate; [congruence|auto].
Qed.

Lemma unread_length (lx : Lexer.t) :
  String.length (unread lx) = String.length (Lexer.text lx) - Lexer.pos lx.
Proof. apply drop_length. Qed.

Lemma unread_current (lx : Lexer.t) :
  lexer_ok lx -> Lexer.current lx = String.get 0 (unread lx).
Proof. intros [_ H]. rewrite H. apply drop_get. Qed.

Lemma unread_nil (lx : Lexer.t) :
  lexer_ok lx -> unread lx = "" -> Lexer.current lx = None.
Proof. intros H E. now rewrite (unread_current _ H), E. Qed.

Lemma unread_cons (lx : Lexer.t) (c : ascii) (rest : string) :
  lexer_ok lx -> unread lx = String c rest ->
  Lexer.current lx = Some c
  /\ lexer_ok (Lexer.advance lx)
  /\ unread (Lexer.advance lx) = rest
  /\ Lexer.text (Lexer.advance lx) = Lexer.text lx.
Proof.
  intros H E.
  assert (Hc : Lexer.current lx = Some c) by now rewrite (unread_current _ H), E.
  split; [assumption|]. split; [apply (advance_ok _ _ H Hc)|].
  split; [|reflexivity].
  unfold unread, Lexer.advance; simpl. now apply (drop_succ _ _ c).
Qed.

Lemma unread_init (text : string) : unread (Lexer.init text) = text.
Proof. now destruct text. Qed.

Lemma skip_ws_loop_unread (n : nat) (lx : Lexer.t) :
  lexer_ok lx -> String.length (unread lx) < n ->
  lexer_ok (Lexer.skip_ws_loop n lx)
  /\ unread (Lexer.skip_ws_loop n lx) = skip_spaces (unread lx)
  /\ Lexer.text (Lexer.skip_ws_loop n lx) = Lexer.text lx.
Proof.
  revert lx; induction n as [|n IH]; intros lx Hok Hn; [lia|]. simpl.
  destruct (unread lx) as [|c rest] eqn:E.
  - rewrite (unread_nil _ Hok E). now rewrite E.
  - destruct (unread_cons _ _ _ Hok E) as (Hc & Hok' & E' & Ht).
    rewrite Hc. simpl. destruct (isspace c); [|now rewrite E].
    destruct (IH (Lexer.advance lx) Hok') as (H1 & H2 & H3).
    + rewrite E'. simpl in Hn. lia.
    + rewrite E' in H2. split; [assumption|split; congruence].
Qed.

Lemma skip_ws_unread (lx : Lexer.t) :
  lexer_ok lx ->
  lexer_ok (Lexer.skip_ws lx)
  /\ unread (Lexer.skip_ws lx) = skip_spaces (unread lx)
  /\ Lexer.text (Lexer.skip_ws lx) = Lexer.text lx.
Proof.
  intros H. apply skip_ws_loop_unread; [assumption|].
  rewrite unread_length. unfold Lexer.loop_bound. lia.
Qed.

Lemma digit_run_fst (s : string) : fst (digit_run s) ++ snd (digit_run s) = s.
Proof.
  induction s as [|c s IH]; simpl; [reflexivity|].
  destruct (isdigit c); [|reflexivity].
  destruct (digit_run s) as [ds rest]. simpl in *. now rewrite IH.
Qed.

Lemma append_assoc (a b c : string) : (a ++ b) ++ c = a ++ (b ++ c).
Proof. induction a as [|x a IH]; simpl; [reflexivity|now rewrite IH]. Qed.

Lemma append_nil_r (a : string) : a ++ "" = a.
Proof. induction a as [|x a IH]; simpl; [reflexivity|now rewrite IH]. Qed.

Lemma integer_loop_unread (n : nat) (s : string) (lx : Lexer.t) :
  lexer_ok lx -> String.length (unread lx) < n ->
  fst (Lexer.integer_loop n s lx) = s ++ fst (digit_run (unread lx))
  /\ lexer_ok (snd (Lexer.integer_loop n s lx))
  /\ unread (snd (Lexer.integer_loop n s lx)) = snd (digit_run (unread lx))
  /\ Lexer.text (snd (Lexer.integer_loop n s lx)) = Lexer.text lx.
Proof.
  revert s lx; induction n as [|n IH]; intros s lx Hok Hn; [lia|]. simpl.
  destruct (unread lx) as [|c rest] eqn:E.
  - rewrite (unread_nil _ Hok E). simpl. now rewrite E, append_nil_r.
  - destruct (unread_cons _ _ _ Hok E) as (Hc & Hok' & E' & Ht).
    rewrite Hc. simpl. destruct (isdigit c).
    + destruct (IH (s ++ String c "") (Lexer.advance lx) Hok')
        as (H1 & H2 & H3 & H4).
      * rewrite E'. simpl in Hn. lia.
      * rewrite E' in H1, H3. destruct (digit_run rest) as [ds r]. simpl in *.
        rewrite H1, append_assoc.
        split; [reflexivity|split; [assumption|split; congruence]].
    + simpl. now rewrite E, append_nil_r.
Qed.

Lemma integer_unread (lx : Lexer.t) :
  lexer_ok lx ->
  fst (Lexer.integer lx)
  = match int (fst (digit_run (unread lx))) with
    | Some n => Ok n
    | None => Raise (ValueError (fst (digit_run (unread lx))))
    end
  /\ lexer_ok (snd (Lexer.integer lx))
  /\ unread (snd (Lexer.integer lx)) = snd (digit_run (unread lx))
  /\ Lexer.text (snd (Lexer.integer lx)) = Lexer.text lx.
Proof.
  intros Hok. unfold Lexer.integer.
  destruct (integer_loop_unread (Lexer.loop_bound lx) "" lx Hok)
    as (H1 & H2 & H3 & H4).
  { rewrite unread_length. unfold Lexer.loop_bound. lia. }
  destruct (Lexer.integer_loop _ _ _) as [s lx']. simpl in *. subst s.
  now destruct (int _).
Qed.

(** [get_next_token] computes [next_token] of the unread text, and leaves
    what [next_token] leaves. *)
Lemma get_next_token_unread (lx : Lexer.t) :
  lexer_ok lx ->
  fst (Lexer.get_next_token lx) = fst (next_token (unread lx))
  /\ unread (snd (Lexer.get_next_token lx)) = snd (next_token (unread lx))
  /\ lexer_ok (snd (Lexer.get_next_token lx))
  /\ Lexer.text (snd (Lexer.get_next_token lx)) = Lexer.text lx.
Proof.
  intros Hok. unfold Lexer.get_next_token, next_token.
  destruct (skip_ws_unread lx Hok) as (Hok1 & E1 & Ht1).
  rewrite <- E1.
  destruct (unread (Lexer.skip_ws lx)) as [|c rest] eqn:E.
  - rewrite (unread_nil _ Hok1 E). simpl. now rewrite E.
  - destruct (unread_cons _ _ _ Hok1 E) as (Hc & Hok' & E' & Ht).
    rewrite Hc. destruct (isdigit c).
    + destruct (integer_unread _ Hok1) as (H1 & H2 & H3 & H4).
      rewrite E in H1, H3.
      remember (digit_run (String c rest)) as dr eqn:Edr. destruct dr as [ds r'].
      destruct (Lexer.integer (Lexer.skip_ws lx)) as [r lx'].
      cbn [fst snd] in *. subst r.
      destruct (int ds); cbn [bind fst snd];
        (split; [reflexivity|split; [assumption|split; congruence]]).
    + repeat (destruct (Ascii.eqb c _);
              [simpl; split; [reflexivity|split; [assumption|split; congruence]]|]).
      simpl. split; [reflexivity|split; [assumption|split; congruence]].
Qed.

(** X1: what a call of [get_next_token] returns, and the text it leaves
    unread, depend on the lexer only through the text it has not consumed
    yet: two lexers with the same unread text (whatever their texts and
    positions) give the same result and are left with the same unread
    text. *)
Theorem lexer_reads_only_the_unread_text (lx1 lx2 : Lexer.t) :
  lexer_ok lx1 -> lexer_ok lx2 -> unread lx1 = unread lx2 ->
  fst (Lexer.get_next_token lx1) = fst (Lexer.get_next_token lx2)
  /\ unread (snd (Lexer.get_next_token lx1))
     = unread (snd (Lexer.get_next_token lx2))
  /\ Lexer.text (snd (Lexer.get_next_token lx1)) = Lexer.text lx1
  /\ Lexer.text (snd (Lexer.get_next_token lx2)) = Lexer.text lx2.
Proof.
  intros H1 H2 E.
  destruct (get_next_token_unread lx1 H1) as (A1 & B1 & _ & C1).
  destruct (get_next_token_unread lx2 H2) as (A2 & B2 & _ & C2).
  rewrite A1, A2, B1, B2, E. auto.
Qed.

Lemma lexer_reads_only_the_unread_text_witness :
  (lexer_ok (Lexer.mk "1+ 23*4" 3 (Some "2"%char))
   /\ lexer_ok (Lexer.init "23*4")
   /\ unread (Lexer.mk "1+ 23*4" 3 (Some "2"%char)) = unread (Lexer.init "23*4"))
  /\ fst (Lexer.get_next_token (Lexer.mk "1+ 23*4" 3 (Some "2"%char)))
     = Ok (TNUMBER 23)
  /\ fst (Lexer.get_next_token (Lexer.mk "1+ 23*4" 3 (Some "2"%char)))
     = fst (Lexer.get_next_token (Lexer.init "23*4")).
Proof.
  assert (H1 : lexer_ok (Lexer.mk "1+ 23*4" 3 (Some "2"%char)))
    by (split; [simpl; lia|reflexivity]).
  assert (H2 : lexer_ok (Lexer.init "23*4")) by (split; [simpl; lia|reflexivity]).
  split; [split; [exact H1|split; [exact H2|]]|split; [reflexivity|]].
  - reflexivity.
  - exact (proj1 (lexer_reads_only_the_unread_text _ _ H1 H2 eq_refl)).
Defined.

(** ** Digit runs and [int] *)

Lemma uint_of_string_digits (s : string) (d : Decimal.uint) :
  NilEmpty.uint_of_string s = Some d -> all_chars is_ascii_digit s = true.
Proof.
  revert d; induction s as [|c s IH]; intros d; simpl; [reflexivity|].
  destruct (NilEmpty.uint_of_string s) as [d0|]; [|discriminate].
  intros H. rewrite (IH d0 eq_refl), andb_true_r.
  apply uint_of_char_spec in H.
  repeat (destruct H as [[-> _]|H]; [reflexivity|]).
  now destruct H as [-> _].
Qed.

Lemma uint_of_char_digit (c : ascii) (d : Decimal.uint) :
  is_ascii_digit c = true -> exists d', uint_of_char c (Some d) = Some d'.
Proof.
  destruct c as [[] [] [] [] [] [] [] []]; intros H; vm_compute in H;
    try discriminate; eexists; reflexivity.
Qed.

Lemma uint_of_string_total (s : string) :
  all_chars is_ascii_digit s = true ->
  exists d, NilEmpty.uint_of_string s = Some d.
Proof.
  induction s as [|c s IH]; simpl; [now exists Decimal.Nil|].
  intros H. apply andb_prop in H as [Hc Hs].
  destruct (IH Hs) as [d ->]. now apply uint_of_char_digit.
Qed.

Lemma ascii_digit_isdigit (c : ascii) : is_ascii_digit c = true -> isdigit c = true.
Proof. unfold isdigit, is_ascii_digit. now intros ->. Qed.

Lemma isdigit_not_minus (c : ascii) : isdigit c = true -> Ascii.eqb c "-" = false.
Proof.
  destruct (Ascii.eqb_spec c "-") as [->|]; [discriminate|reflexivity].
Qed.

(** [int] accepts a run of digits exactly when all of them are ASCII, and
    its value is not negative. *)
Lemma int_digit_run (c : ascii) (s : string) :
  isdigit c = true ->
  match int (String c s) with
  | Some n => all_chars is_ascii_digit (String c s) = true /\ (0 <= n)%Z
  | None => all_chars is_ascii_digit (String c s) = false
  end.
Proof.
  intros Hc. unfold int, NilZero.int_of_string.
  rewrite (isdigit_not_minus _ Hc).
  change (NilZero.uint_of_string (String c s))
    with (NilEmpty.uint_of_string (String c s)).
  destruct (NilEmpty.uint_of_string (String c s)) as [d|] eqn:E.
  - split; [now apply (uint_of_string_digits _ d)|].
    simpl. unfold Z.of_uint. apply N2Z.is_nonneg.
  - cbn [option_map].
    destruct (all_chars is_ascii_digit (String c s)) eqn:Ha; [|reflexivity].
    apply uint_of_string_total in Ha as [d Hd]. congruence.
Qed.

Lemma digit_run_cons (c : ascii) (s : string) :
  isdigit c = true ->
  digit_run (String c s) = (String c (fst (digit_run s)), snd (digit_run s)).
Proof. intros H. simpl. rewrite H. now destruct (digit_run s). Qed.

Lemma digit_run_digits (s : string) : all_digits (fst (digit_run s)) = true.
Proof.
  induction s as [|c s IH]; simpl; [reflexivity|].
  destruct (isdigit c) eqn:Hc; [|reflexivity].
  destruct (digit_run s). simpl in *. now rewrite Hc.
Qed.

Lemma digit_run_stops (s : string) :
  match snd (digit_run s) with
  | String c _ => isdigit c = false
  | EmptyString => True
  end.
Proof.
  induction s as [|c s IH]; simpl; [exact I|].
  destruct (isdigit c) eqn:Hc; [|exact Hc].
  now destruct (digit_run s).
Qed.

(** The three outcomes of [next_token] on a text that starts, behind its
    white space, with a digit. *)
Lemma next_token_digit (s : string) (c : ascii) (s' : string) :
  skip_spaces s = String c s' -> isdigit c = true ->
  next_token s
  = (match int (fst (digit_run (String c s'))) with
     | Some n => Ok (TNUMBER n)
     | None => Raise (ValueError (fst (digit_run (String c s'))))
     end, snd (digit_run (String c s'))).
Proof.
  intros E Hc. unfold next_token. rewrite E, Hc.
  now destruct (digit_run (String c s')).
Qed.

Lemma next_token_other (s : string) (c : ascii) (s' : string) :
  skip_spaces s = String c s' -> isdigit c = false ->
  match fst (next_token s) with
  | Ok (TNUMBER _) | Raise (ValueError _) => False
  | _ => True
  end.
Proof.
  intros E Hc. unfold next_token. rewrite E, Hc.
  repeat (destruct (Ascii.eqb c _); [exact I|]). exact I.
Qed.





(** ** Errors and invariants of the lexer *)

Lemma skip_ws_fixed (lx : Lexer.t) (c : ascii) :
  Lexer.current lx = Some c -> isspace c = false -> Lexer.skip_ws lx = lx.
Proof.
  intros Hc Hs. unfold Lexer.skip_ws, Lexer.loop_bound. simpl.
  now rewrite Hc, Hs.
Qed.

Lemma known_char_space (c : ascii) : known_char c = false -> isspace c = false.
Proof. unfold known_char. now destruct (isspace c). Qed.

(** X4: an unknown character is never skipped: when a call raises
    [SyntaxError] the lexer stays in front of the character (only the
    white space before it is consumed), so every later call raises the
    same error again. *)
Theorem unknown_character_is_never_skipped (lx : Lexer.t) (e : syntax_error) :
  lexer_ok lx -> fst (Lexer.get_next_token lx) = Raise (SyntaxError e) ->
  exists c,
    e = UnexpectedCharacter c
    /\ known_char c = false
    /\ Lexer.current (Lexer.skip_ws lx) = Some c
    /\ forall n, nth_call n lx = Raise (SyntaxError e)
                 /\ calls (S n) lx = Lexer.skip_ws lx.
Proof.
  intros Hok H. pose proof (get_next_token_cases lx Hok) as Hc.
  destruct (Lexer.get_next_token lx) as [r lx'] eqn:E. simpl in H. subst r.
  destruct e as [c| | |]; try contradiction.
  destruct Hc as (-> & Hcur & Hk). exists c.
  split; [reflexivity|]. split; [assumption|]. split; [assumption|].
  assert (Hfix : Lexer.get_next_token (Lexer.skip_ws lx)
                 = (Raise (SyntaxError (UnexpectedCharacter c)), Lexer.skip_ws lx)).
  { pose proof (skip_ws_fixed _ _ Hcur (known_char_space _ Hk)) as Hs.
    rewrite (unknown_character_raises (Lexer.skip_ws lx) c);
      rewrite ?Hs; auto. }
  assert (Hcalls : forall n, calls (S n) lx = Lexer.skip_ws lx).
  { intros n. simpl. rewrite E. simpl. apply calls_fixed. now rewrite Hfix. }
  intros n. split; [|apply Hcalls].
  destruct n as [|n]; unfold nth_call.
  - simpl. now rewrite E.
  - now rewrite Hcalls, Hfix.
Qed.

Lemma unknown_character_is_never_skipped_witness :
  (lexer_ok (Lexer.init "  &1")
   /\ fst (Lexer.get_next_token (Lexer.init "  &1"))
      = Raise (SyntaxError (UnexpectedCharacter "&")))
  /\ exists c,
       UnexpectedCharacter "&" = UnexpectedCharacter c
       /\ known_char c = false
       /\ Lexer.current (Lexer.skip_ws (Lexer.init "  &1")) = Some c
       /\ forall n,
            nth_call n (Lexer.init "  &1")
            = Raise (SyntaxError (UnexpectedCharacter "&"))
            /\ calls (S n) (Lexer.init "  &1") = Lexer.skip_ws (Lexer.init "  &1").
Proof.
  assert (H : lexer_ok (Lexer.init "  &1")) by (split; [simpl; lia|reflexivity]).
  split; [split; [exact H|reflexivity]|].
  exact (unknown_character_is_never_skipped (Lexer.init "  &1")
           (UnexpectedCharacter "&") H eq_refl).
Defined.

Lemma calls_extends (n : nat) (lx : Lexer.t) :
  lexer_ok lx -> extends lx (calls n lx).
Proof.
  revert lx; induction n as [|n IH]; intros lx H; simpl.
  - now apply extends_refl.
  - eapply extends_trans; [apply (get_next_token_extends lx H)|].
    apply IH. now apply get_next_token_ok.
Qed.

(** X5: the lexer is a cursor that only moves forward on a text it never
    changes: after any number of calls of [get_next_token], failed ones
    included, the text is the one given to [__init__], the position is
    not past its end and not before the position of any earlier state,
    [current] is the character at the position ([None] at the end), and
    every character stepped over is a space, a digit or one of the six
    operator characters. *)
Theorem lexer_is_a_forward_cursor (text : string) (n m : nat) :
  Lexer.text (calls n (Lexer.init text)) = text
  /\ Lexer.pos (calls n (Lexer.init text)) <= String.length text
  /\ Lexer.current (calls n (Lexer.init text))
     = String.get (Lexer.pos (calls n (Lexer.init text))) text
  /\ Lexer.pos (calls n (Lexer.init text))
     <= Lexer.pos (calls (n + m) (Lexer.init text))
  /\ forall i c, i < Lexer.pos (calls n (Lexer.init text)) ->
       String.get i text = Some c -> known_char c = true.
Proof.
  pose proof (calls_extends n _ (init_ok text)) as (Ht & _ & [Hle Hcur] & Hk).
  change (Lexer.text (Lexer.init text)) with text in *.
  rewrite Ht in Hle, Hcur.
  split; [assumption|]. split; [assumption|]. split; [assumption|]. split.
  - rewrite calls_add.
    apply (calls_extends m _ (calls_ok n _ (init_ok text))).
  - intros i c Hi Hg. destruct (Hk i) as (c' & Hc' & Hkn).
    + change (Lexer.pos (Lexer.init text)) with 0. lia.
    + congruence.
Qed.

(** ** The parser sees the text through the lexer only *)

Lemma bind_sim {A B : Type} (P : A -> A -> Prop) (Q : B -> B -> Prop)
  (r1 r2 : result A) (k1 k2 : A -> result B) :
  sim_result P r1 r2 ->
  (forall a1 a2, P a1 a2 -> sim_result Q (k1 a1) (k2 a2)) ->
  sim_result Q (bind r1 k1) (bind r2 k2).
Proof.
  destruct r1, r2; simpl; intros H Hk; try contradiction; auto.
Qed.

Section Simulation.

Variable R : Lexer.t -> Lexer.t -> Prop.
Hypothesis R_sim : lexer_simulation R.

Lemma read_sim (l1 l2 : Lexer.t) :
  R l1 l2 ->
  sim_result (sim_parser R)
    (let '(r, lx) := Lexer.get_next_token l1 in tok <- r ;; Ok (Parser.mk lx tok))
    (let '(r, lx) := Lexer.get_next_token l2 in tok <- r ;; Ok (Parser.mk lx tok)).
Proof.
  intros H. destruct (R_sim _ _ H) as [E HR].
  destruct (Lexer.get_next_token l1) as [r1 l1'].
  destruct (Lexer.get_next_token l2) as [r2 l2']. simpl in *. subst r2.
  destruct r1; simpl; auto. now split.
Qed.

Lemma eat_sim (ty : token_type) (p1 p2 : Parser.t) :
  sim_parser R p1 p2 ->
  sim_result (sim_parser R) (Parser.eat ty p1) (Parser.eat ty p2).
Proof.
  intros [Hc HR]. unfold Parser.eat. rewrite <- Hc.
  destruct (token_type_eqb _ _); [|now rewrite Hc].
  now apply read_sim.
Qed.

Lemma parser_sim (f : nat) :
  (forall p1 p2, sim_parser R p1 p2 ->
     sim_result (sim_node R) (Parser.expr f p1) (Parser.expr f p2))
  /\ (forall node p1 p2, sim_parser R p1 p2 ->
        sim_result (sim_node R)
          (Parser.expr_loop f node p1) (Parser.expr_loop f node p2))
  /\ (forall p1 p2, sim_parser R p1 p2 ->
        sim_result (sim_node R) (Parser.term f p1) (Parser.term f p2))
  /\ (forall node p1 p2, sim_parser R p1 p2 ->
        sim_result (sim_node R)
          (Parser.term_loop f node p1) (Parser.term_loop f node p2))
  /\ (forall p1 p2, sim_parser R p1 p2 ->
        sim_result (sim_node R) (Parser.factor f p1) (Parser.factor f p2)).
Proof.
  induction f as [|f (IHe & IHel & IHt & IHtl & IHf)].
  { repeat split; intros; exact I. }
  split; [|split; [|split; [|split]]].
  - intros p1 p2 H. rewrite !expr_S.
    apply (bind_sim (sim_node R)); [now apply IHt|].
    intros [a1 q1] [a2 q2] [Ea Hq]. simpl in Ea. subst a2. now apply IHel.
  - intros node p1 p2 H. rewrite !expr_loop_S.
    destruct H as [Hc HR]. rewrite <- Hc.
    destruct (Parser.is_addop _); [|split; [reflexivity|now split]].
    apply (bind_sim (sim_parser R)); [apply eat_sim; now split|].
    intros q1 q2 Hq.
    apply (bind_sim (sim_node R)); [now apply IHt|].
    intros [a1 r1] [a2 r2] [Ea Hr]. simpl in Ea. subst a2. now apply IHel.
  - intros p1 p2 H. rewrite !term_S.
    apply (bind_sim (sim_node R)); [now apply IHf|].
    intros [a1 q1] [a2 q2] [Ea Hq]. simpl in Ea. subst a2. now apply IHtl.
  - intros node p1 p2 H. rewrite !term_loop_S.
    destruct H as [Hc HR]. rewrite <- Hc.
    destruct (Parser.is_mulop _); [|split; [reflexivity|now split]].
    apply (bind_sim (sim_parser R)); [apply eat_sim; now split|].
    intros q1 q2 Hq.
    apply (bind_sim (sim_node R)); [now apply IHf|].
    intros [a1 r1] [a2 r2] [Ea Hr]. simpl in Ea. subst a2. now apply IHtl.
  - intros p1 p2 H. rewrite !factor_S.
    pose proof H as [Hc HR]. rewrite <- Hc.
    destruct (Parser.current p1); try reflexivity.
    + apply (bind_sim (sim_parser R)); [now apply eat_sim|].
      intros q1 q2 Hq. split; [reflexivity|exact Hq].
    + apply (bind_sim (sim_parser R)); [now apply eat_sim|].
      intros q1 q2 Hq.
      apply (bind_sim (sim_node R)); [now apply IHf|].
      intros [a1 r1] [a2 r2] [Ea Hr]. simpl in Ea. subst a2.
      split; [reflexivity|exact Hr].
    + apply (bind_sim (sim_parser R)); [now apply eat_sim|].
      intros q1 q2 Hq.
      apply (bind_sim (sim_node R)); [now apply IHf|].
      intros [a1 r1] [a2 r2] [Ea Hr]. simpl in Ea. subst a2.
      split; [reflexivity|exact Hr].
    + apply (bind_sim (sim_parser R)); [now apply eat_sim|].
      intros q1 q2 Hq.
      apply (bind_sim (sim_node R)); [now apply IHe|].
      intros [a1 r1] [a2 r2] [Ea Hr]. simpl in Ea. subst a2.
      apply (bind_sim (sim_parser R)); [now apply eat_sim|].
      intros s1 s2 Hs. split; [reflexivity|exact Hs].
Qed.

Lemma parse_sim (p1 p2 : Parser.t) :
  parser_inv p1 -> parser_inv p2 -> sim_parser R p1 p2 ->
  Parser.parse p1 = Parser.parse p2.
Proof.
  intros H1 H2 H. unfold Parser.parse.
  pose proof (proj1 (parser_sim (Parser.enough p1)) p1 p2 H) as Hs.
  pose proof (proj1 (parser_fuel (Parser.enough p1)) p1 H1 (le_n _)) as Hf.
  assert (E : Parser.expr (Parser.enough p2) p2
              = Parser.expr (Parser.enough p1) p2).
  { apply expr_enough; [assumption|].
    destruct (Parser.expr (Parser.enough p1) p1),
             (Parser.expr (Parser.enough p1) p2);
      simpl in Hs; try contradiction; try discriminate; try (now elim Hf). }
  rewrite E.
  destruct (Parser.expr (Parser.enough p1) p1) as [[a1 q1]|e1|],
           (Parser.expr (Parser.enough p1) p2) as [[a2 q2]|e2|];
    simpl in Hs; try contradiction; simpl; [|now subst].
  destruct Hs as [Ea [Hc _]]. simpl in *. now rewrite Ea, Hc.
Qed.

Lemma parse_text_sim (t1 t2 : string) :
  R (Lexer.init t1) (Lexer.init t2) -> parse_text t1 = parse_text t2.
Proof.
  intros H. unfold parse_text.
  pose proof (read_sim _ _ H) as Hs. fold (Parser.init t1) (Parser.init t2) in Hs.
  pose proof (init_inv t1) as I1. pose proof (init_inv t2) as I2.
  destruct (Parser.init t1) as [p1|e1|], (Parser.init t2) as [p2|e2|];
    simpl in Hs; try contradiction; simpl; [|now subst|reflexivity].
  apply parse_sim; [apply (I1 p1 eq_refl)|apply (I2 p2 eq_refl)|assumption].
Qed.

Lemma compile_sim (t1 t2 : string) (b : bool) :
  R (Lexer.init t1) (Lexer.init t2) -> compile_to_ir t1 b = compile_to_ir t2 b.
Proof.
  intros H. rewrite !compile_to_ir_parse. now rewrite (parse_text_sim t1 t2 H).
Qed.

End Simulation.

Lemma same_answers_simulation : lexer_simulation same_answers.
Proof.
  intros l1 l2 H. split; [exact (H 0)|].
  intros n. exact (H (S n)).
Qed.

Lemma tokens_loop_answers (n : nat) (lx : Lexer.t) (ts : list Token) :
  lexer_ok lx -> tokens_loop n lx = Some ts ->
  forall k, nth_call k lx = Ok (nth k ts TEOF).
Proof.
  revert lx ts; induction n as [|n IH]; intros lx ts Hok H; [discriminate|].
  simpl in H. pose proof (get_next_token_ok lx Hok) as Hok'.
  destruct (Lexer.get_next_token lx) as [r lx'] eqn:E. simpl in Hok'.
  assert (Hnext : forall k, nth_call (S k) lx = nth_call k lx').
  { intros k. unfold nth_call. simpl. now rewrite E. }
  assert (Heof : r = Ok TEOF -> ts = [] -> forall k, nth_call k lx = Ok TEOF).
  { intros -> _ [|k].
    - unfold nth_call. simpl. now rewrite E.
    - apply eof_absorbing; [assumption|now rewrite E]. }
  destruct r as [tok|e|]; [|discriminate..].
  destruct (tokens_loop n lx') as [ts'|] eqn:E';
    destruct tok; simpl in H; try discriminate;
    try (injection H as <-;
         intros [|k];
         [unfold nth_call; simpl; now rewrite E
         |rewrite Hnext; simpl; now apply (IH lx')]).
  all: injection H as <-; intros k; rewrite (Heof eq_refl eq_refl);
    now destruct k.
Qed.

Lemma tokenize_answers (t1 t2 : string) (ts : list Token) :
  tokenize t1 = Some ts -> tokenize t2 = Some ts ->
  same_answers (Lexer.init t1) (Lexer.init t2).
Proof.
  intros H1 H2 k.
  rewrite (tokens_loop_answers _ _ _ (init_ok t1) H1).
  now rewrite (tokens_loop_answers _ _ _ (init_ok t2) H2).
Qed.

(** X6: the parser and the generator see the text through the lexer's
    tokens only: two texts with the same token sequence (whatever their
    spacing and the leading zeros of their literals) have the same
    outcome of [compile_to_ir], the same module or the same error. *)
Theorem compile_depends_only_on_the_tokens
  (t1 t2 : string) (ts : list Token) (b : bool) :
  tokenize t1 = Some ts -> tokenize t2 = Some ts ->
  compile_to_ir t1 b = compile_to_ir t2 b.
Proof.
  intros H1 H2.
  apply (compile_sim same_answers same_answers_simulation).
  now apply (tokenize_answers t1 t2 ts).
Qed.

Lemma compile_depends_only_on_the_tokens_witness :
  (tokenize "1+2*03" = Some [TNUMBER 1; TPLUS; TNUMBER 2; TMUL; TNUMBER 3]
   /\ tokenize (String "009" "01 +  2 * 3 ")
      = Some [TNUMBER 1; TPLUS; TNUMBER 2; TMUL; TNUMBER 3])
  /\ compile_to_ir "1+2*03" false
     = compile_to_ir (String "009" "01 +  2 * 3 ") false.
Proof.
  split; [split; reflexivity|].
  exact (compile_depends_only_on_the_tokens "1+2*03"
           (String "009" "01 +  2 * 3 ")
           [TNUMBER 1; TPLUS; TNUMBER 2; TMUL; TNUMBER 3] false eq_refl eq_refl).
Defined.

(** *** White space around the expression *)

Lemma isspace_not_digit (c : ascii) : isspace c = true -> isdigit c = false.
Proof.
  destruct c as [[] [] [] [] [] [] [] []]; intros H; vm_compute in H;
    try discriminate; reflexivity.
Qed.

Lemma skip_spaces_all (w : string) :
  all_chars isspace w = true -> skip_spaces w = "".
Proof.
  induction w as [|c w IH]; simpl; [reflexivity|].
  intros H. apply andb_prop in H as [-> Hw]. auto.
Qed.

Lemma skip_spaces_app_l (w s : string) :
  all_chars isspace w = true -> skip_spaces (w ++ s) = skip_spaces s.
Proof.
  induction w as [|c w IH]; simpl; [reflexivity|].
  intros H. apply andb_prop in H as [-> Hw]. auto.
Qed.

Lemma skip_spaces_app_r (s w : string) :
  all_chars isspace w = true ->
  skip_spaces (s ++ w) = match skip_spaces s with
                         | EmptyString => EmptyString
                         | String c s' => String c (s' ++ w)
                         end.
Proof.
  intros Hw. induction s as [|c s IH]; simpl.
  - now apply skip_spaces_all.
  - now destruct (isspace c).
Qed.

Lemma skip_spaces_idem (s : string) : skip_spaces (skip_spaces s) = skip_spaces s.
Proof.
  induction s as [|c s IH]; simpl; [reflexivity|].
  destruct (isspace c) eqn:E; [assumption|]. simpl. now rewrite E.
Qed.

Lemma next_token_skip (s1 s2 : string) :
  skip_spaces s1 = skip_spaces s2 -> next_token s1 = next_token s2.
Proof. intros H. unfold next_token. now rewrite H. Qed.

Lemma digit_run_app (s w : string) :
  all_chars isspace w = true ->
  digit_run (s ++ w) = (fst (digit_run s), snd (digit_run s) ++ w).
Proof.
  intros Hw. induction s as [|c s IH]; simpl.
  - destruct w as [|c w]; [reflexivity|]. simpl in *.
    apply andb_prop in Hw as [Hc _]. now rewrite (isspace_not_digit _ Hc).
  - destruct (isdigit c); [|reflexivity].
    rewrite IH. now destruct (digit_run s).
Qed.

Lemma next_token_app (s w : string) :
  all_chars isspace w = true ->
  fst (next_token (s ++ w)) = fst (next_token s)
  /\ exists w', all_chars isspace w' = true
                /\ snd (next_token (s ++ w)) = snd (next_token s) ++ w'.
Proof.
  intros Hw. unfold next_token. rewrite (skip_spaces_app_r _ _ Hw).
  destruct (skip_spaces s) as [|c s'].
  - split; [reflexivity|]. now exists "".
  - destruct (isdigit c).
    + change (String c (s' ++ w)) with (String c s' ++ w).
      rewrite (digit_run_app _ _ Hw).
      destruct (digit_run (String c s')) as [ds rest]. simpl.
      split; [reflexivity|]. now exists w.
    + repeat (destruct (Ascii.eqb c _);
              [split; [reflexivity|now exists w]|]).
      split; [reflexivity|now exists w].
Qed.

Lemma same_up_to_spaces_simulation : lexer_simulation same_up_to_spaces.
Proof.
  intros l1 l2 (H1 & H2 & w & Hw & E).
  destruct (get_next_token_unread l1 H1) as (A1 & B1 & O1 & _).
  destruct (get_next_token_unread l2 H2) as (A2 & B2 & O2 & _).
  destruct (next_token_app (unread l1) w Hw) as (Ef & w' & Hw' & Es).
  rewrite (next_token_skip _ _ E) in A2, B2.
  split; [congruence|]. split; [assumption|]. split; [assumption|].
  exists w'. split; [assumption|]. now rewrite B1, B2, Es.
Qed.

(** X7: white space before and after the expression changes nothing:
    for every text, valid or not, [compile_to_ir] of the text between
    two runs of [isspace] characters (the newline that ends the input
    file, for one) is [compile_to_ir] of the text. *)
Theorem surrounding_white_space_is_ignored (w1 text w2 : string) (b : bool) :
  all_chars isspace w1 = true -> all_chars isspace w2 = true ->
  compile_to_ir (w1 ++ text ++ w2) b = compile_to_ir text b.
Proof.
  intros H1 H2. symmetry.
  apply (compile_sim same_up_to_spaces same_up_to_spaces_simulation).
  split; [apply init_ok|]. split; [apply init_ok|].
  exists w2. split; [assumption|].
  rewrite !unread_init. now apply skip_spaces_app_l.
Qed.

Lemma surrounding_white_space_is_ignored_witness :
  (all_chars isspace "  " = true /\ all_chars isspace (String "010" "") = true)
  /\ compile_to_ir ("  " ++ "(1+2" ++ String "010" "") true
     = Raise (SyntaxError (ExpectedToken RPAREN TEOF))
  /\ compile_to_ir ("  " ++ "(1+2" ++ String "010" "") true
     = compile_to_ir "(1+2" true.
Proof.
  split; [split; reflexivity|]. split; [reflexivity|].
  exact (surrounding_white_space_is_ignored "  " "(1+2" (String "010" "") true
           eq_refl eq_refl).
Defined.

(** ** What [compile_to_ir] raises *)

Lemma lexer_raises (lx : Lexer.t) (e : exn) :
  lexer_ok lx -> fst (Lexer.get_next_token lx) = Raise e -> front_end_error e.
Proof.
  intros Hok H. destruct (get_next_token_unread lx Hok) as (A & _).
  rewrite A in H. clear A.
  destruct (skip_spaces (unread lx)) as [|c s'] eqn:E.
  - unfold next_token in H. rewrite E in H. discriminate.
  - destruct (isdigit c) eqn:Hc.
    + rewrite (next_token_digit _ _ _ E Hc) in H. cbn [fst] in H.
      pose proof (digit_run_digits (String c s')) as Hd.
      rewrite (digit_run_cons _ _ Hc) in *. cbn [fst] in *.
      pose proof (int_digit_run c (fst (digit_run s')) Hc) as Hi.
      destruct (int (String c (fst (digit_run s')))); [discriminate|].
      injection H as <-. split; [discriminate|]. now split.
    + unfold next_token in H. rewrite E, Hc in H.
      repeat (destruct (Ascii.eqb c _); [discriminate|]).
      now injection H as <-.
Qed.

Lemma eat_raises (ty : token_type) (p : Parser.t) (e : exn) :
  parser_inv p -> Parser.eat ty p = Raise e -> front_end_error e.
Proof.
  intros (Hok & _) H. unfold Parser.eat in H.
  destruct (token_type_eqb _ _); [|now injection H as <-].
  pose proof (lexer_raises _ e Hok) as Hl.
  destruct (Lexer.get_next_token (Parser.lexer p)) as [[tok|e'|] lx];
    simpl in *; try discriminate.
  apply Hl. congruence.
Qed.

Ltac raise_case H :=
  match type of H with
  | bind ?c ?k = Raise _ =>
      let E := fresh "E" in
      destruct c as [?x|?e0|] eqn:E; simpl in H;
      [ | injection H as -> | discriminate ]
  end.

Lemma parser_raises (f : nat) :
  (forall p e, parser_inv p -> Parser.expr f p = Raise e -> front_end_error e)
  /\ (forall node p e, parser_inv p -> Parser.expr_loop f node p = Raise e ->
        front_end_error e)
  /\ (forall p e, parser_inv p -> Parser.term f p = Raise e -> front_end_error e)
  /\ (forall node p e, parser_inv p -> Parser.term_loop f node p = Raise e ->
        front_end_error e)
  /\ (forall p e, parser_inv p -> Parser.factor f p = Raise e -> front_end_error e).
Proof.
  induction f as [|f (IHe & IHel & IHt & IHtl & IHf)];
    [repeat split; intros; discriminate|].
  destruct (parser_steps f) as (Se & Sel & St & Stl & Sf).
  split; [|split; [|split; [|split]]].
  - intros p e Hinv H. rewrite expr_S in H. raise_case H.
    + destruct x as [node p1]. apply St in E; [|assumption].
      apply (IHel node p1); [apply E|assumption].
    + now apply (IHt p).
  - intros node p e Hinv H. rewrite expr_loop_S in H.
    destruct (Parser.is_addop _) eqn:Hop; [|discriminate].
    raise_case H; [|exact (eat_raises _ _ _ Hinv E)]. eat_inv Hinv E.
    raise_case H.
    + destruct x0 as [rhs p2]. apply St in E0; [|apply Hst].
      eapply IHel; [apply E0|exact H].
    + apply (IHt x); [apply Hst|assumption].
  - intros p e Hinv H. rewrite term_S in H. raise_case H.
    + destruct x as [node p1]. apply Sf in E; [|assumption].
      apply (IHtl node p1); [apply E|assumption].
    + now apply (IHf p).
  - intros node p e Hinv H. rewrite term_loop_S in H.
    destruct (Parser.is_mulop _) eqn:Hop; [|discriminate].
    raise_case H; [|exact (eat_raises _ _ _ Hinv E)]. eat_inv Hinv E.
    raise_case H.
    + destruct x0 as [rhs p2]. apply Sf in E0; [|apply Hst].
      eapply IHtl; [apply E0|exact H].
    + apply (IHf x); [apply Hst|assumption].
  - intros p e Hinv H. rewrite factor_S in H.
    destruct (Parser.current p) eqn:Hcur;
      try (now injection H as <-).
    + raise_case H; [discriminate|exact (eat_raises _ _ _ Hinv E)].
    + raise_case H; [|exact (eat_raises _ _ _ Hinv E)]. eat_inv Hinv E.
      raise_case H; [destruct x0; discriminate|].
      apply (IHf x); [apply Hst|assumption].
    + raise_case H; [|exact (eat_raises _ _ _ Hinv E)]. eat_inv Hinv E.
      raise_case H; [destruct x0; discriminate|].
      apply (IHf x); [apply Hst|assumption].
    + raise_case H; [|exact (eat_raises _ _ _ Hinv E)]. eat_inv Hinv E.
      raise_case H.
      * destruct x0 as [node p2]. apply Se in E0; [|apply Hst].
        raise_case H; [discriminate|]. exact (eat_raises _ _ _ (proj1 E0) E1).
      * apply (IHe x); [apply Hst|assumption].
Qed.

Lemma parse_text_raises (text : string) (e : exn) :
  parse_text text = Raise e -> front_end_error e.
Proof.
  unfold parse_text. intros H.
  pose proof (init_inv text) as Hinit.
  pose proof (lexer_raises _ e (init_ok text)) as Hl.
  unfold Parser.init in *.
  destruct (Lexer.get_next_token (Lexer.init text)) as [[tok|e'|] lx];
    simpl in *; try discriminate.
  - destruct (Hinit _ eq_refl) as [Hinv _].
    unfold Parser.parse in H. raise_case H.
    + destruct x as [node p']. destruct (token_type_eqb _ _); [discriminate|].
      now injection H as <-.
    + now apply (proj1 (parser_raises _) _ _ Hinv E).
  - apply Hl. congruence.
Qed.

Lemma parsed_text_compiles (text : string) (a : AST) (b : bool) :
  parse_text text = Ok a -> exists m, compile_to_ir text b = Ok m.
Proof.
  intros H. rewrite compile_to_ir_parse, H. simpl.
  apply parse_text_sound in H as (ts & _ & Hg).
  pose proof (proj1 grammar_wf _ _ Hg) as Hwf.
  pose proof (build_spec a b) as Hb. unfold IRGen.build_module.
  destruct (IRGen.gen a (IRGen.init b)) as [[v g]|e|];
    [|congruence|contradiction].
  destruct Hb as (_ & prog & _ & _ & _ & _ & _ & Hout).
  cbn [bind]. rewrite Hout. cbn [bind]. eauto.
Qed.


(** ** Printed integers *)

Lemma digit_run_all (s : string) : all_digits s = true -> digit_run s = (s, "").
Proof.
  induction s as [|c s IH]; simpl; [reflexivity|].
  intros H. apply andb_prop in H as [-> Hs]. now rewrite (IH Hs).
Qed.

Lemma isdigit_not_space (c : ascii) : isdigit c = true -> isspace c = false.
Proof.
  intros H. destruct (isspace c) eqn:E; [|reflexivity].
  apply isspace_not_digit in E. congruence.
Qed.

Lemma next_token_digits (s : string) (n : Z) :
  str_isdigit s = true -> int s = Some n ->
  next_token s = (Ok (TNUMBER n), "").
Proof.
  destruct s as [|c s]; [discriminate|]. intros H Hi.
  assert (Hc : isdigit c = true) by (simpl in H; now apply andb_prop in H).
  rewrite (next_token_digit (String c s) c s); [|simpl; now rewrite (isdigit_not_space _ Hc)|assumption].
  rewrite (digit_run_all _ H). simpl fst. simpl snd. now rewrite Hi.
Qed.

Lemma str_nonneg_isdigit (n : Z) : (0 <= n)%Z -> str_isdigit (str n) = true.
Proof.
  destruct n as [|p|p]; intros H; [reflexivity| |lia].
  apply str_isdigit_string_of_uint.
Qed.

Lemma str_neg (n : Z) : (n < 0)%Z -> str n = String "-" (str (- n)).
Proof. destruct n as [|p|p]; intros H; try lia. reflexivity. Qed.

Lemma tokens_loop_unread_nil (n : nat) (lx : Lexer.t) :
  lexer_ok lx -> unread lx = "" -> tokens_loop (S n) lx = Some [].
Proof.
  intros Hok E. destruct (get_next_token_unread lx Hok) as (A & _).
  rewrite E in A. simpl.
  destruct (Lexer.get_next_token lx) as [r lx']. simpl in A. now subst r.
Qed.

Lemma tokens_loop_cons (n : nat) (lx : Lexer.t) (tok : Token) :
  lexer_ok lx -> fst (next_token (unread lx)) = Ok tok -> tok <> TEOF ->
  tokens_loop (S n) lx
  = option_map (cons tok) (tokens_loop n (snd (Lexer.get_next_token lx))).
Proof.
  intros Hok E Hne. destruct (get_next_token_unread lx Hok) as (A & _).
  rewrite E in A. simpl.
  destruct (Lexer.get_next_token lx) as [r lx']. simpl in *. subst r.
  now destruct tok.
Qed.

Lemma tokenize_digits (s : string) (n : Z) :
  str_isdigit s = true -> int s = Some n -> tokenize s = Some [TNUMBER n].
Proof.
  intros H Hi. unfold tokenize.
  pose proof (next_token_digits s n H Hi) as Hn.
  destruct (get_next_token_unread _ (init_ok s)) as (_ & B & Hok & _).
  rewrite unread_init, Hn in B.
  rewrite (tokens_loop_cons _ _ (TNUMBER n)); [| apply init_ok | | discriminate].
  - destruct s as [|c s]; [discriminate|]. cbn [String.length].
    now rewrite (tokens_loop_unread_nil _ _ Hok B).
  - now rewrite unread_init, Hn.
Qed.

Lemma tokenize_minus_digits (s : string) (n : Z) :
  str_isdigit s = true -> int s = Some n ->
  tokenize (String "-" s) = Some [TMINUS; TNUMBER n].
Proof.
  intros H Hi. unfold tokenize.
  pose proof (next_token_digits s n H Hi) as Hn.
  pose proof (init_ok (String "-" s)) as Hok0.
  destruct (get_next_token_unread _ Hok0) as (_ & B1 & Hok1 & _).
  rewrite unread_init in B1. change (snd (next_token (String "-" s))) with s in B1.
  destruct (get_next_token_unread _ Hok1) as (_ & B2 & Hok2 & _).
  rewrite B1, Hn in B2.
  rewrite (tokens_loop_cons _ _ TMINUS); [|assumption|now rewrite unread_init|discriminate].
  cbn [String.length].
  rewrite (tokens_loop_cons _ _ (TNUMBER n)); [|assumption|now rewrite B1, Hn|discriminate].
  destruct s as [|c s]; [discriminate|]. cbn [String.length].
  now rewrite (tokens_loop_unread_nil _ _ Hok2 B2).
Qed.


(** ** Registers of a module *)

Lemma regname_inj (a b : nat) : IR.regname a = IR.regname b -> a = b.
Proof.
  unfold IR.regname. intros H. injection H as H.
  apply (f_equal int) in H. rewrite !int_str in H.
  injection H as H. now apply Nat2Z.inj.
Qed.

Lemma chain_defs (k : nat) (prog : list IR.instr) :
  chain k prog ->
  flat_map IR.def prog = map IR.regname (seq (S k) (List.length prog)).
Proof.
  revert k; induction prog as [|i prog IH]; intros k; simpl; [reflexivity|].
  intros [(op & a & b & -> & _) Hc]. simpl. now rewrite (IH _ Hc).
Qed.

Lemma chain_no_ret (k : nat) (prog : list IR.instr) :
  chain k prog -> forallb (fun i => negb (is_ret i)) prog = true.
Proof.
  revert k; induction prog as [|i prog IH]; intros k; simpl; [reflexivity|].
  intros [(op & a & b & -> & _) Hc]. simpl. now apply (IH (S k)).
Qed.

Lemma regnames_nodup (k m : nat) : NoDup (map IR.regname (seq k m)).
Proof.
  pose proof (seq_NoDup m k) as H.
  induction H as [|x l Hx Hl IH]; simpl; constructor; [|assumption].
  intros Hin. apply in_map_iff in Hin as (y & Hy & Hin).
  apply regname_inj in Hy. now subst.
Qed.

Lemma fmtptr_not_regname (l : list nat) : ~ In "%fmtptr" (map IR.regname l).
Proof.
  intros H. apply in_map_iff in H as (j & Hj & _). unfold IR.regname in Hj.
  discriminate.
Qed.

(** X10: no register is assigned twice: in the body of every module
    that is built, in either mode, the names the instructions define
    ([%t1], [%t2], ... and [%fmtptr]) are pairwise different. *)
Theorem no_register_is_defined_twice
  (text : string) (b : bool) (out : list string) :
  module_lines text b = Ok out ->
  exists body,
    out = (header b ++ map IR.render body ++ ["}"])%list
    /\ NoDup (flat_map IR.def body).
Proof.
  intros H.
  apply module_lines_spec in H as (a & v & prog & _ & _ & Hc & _ & _ & ->).
  exists (prog ++ tail_instrs b (List.length prog) v)%list.
  split; [reflexivity|].
  rewrite flat_map_app, (chain_defs _ _ Hc).
  assert (Hseq : forall j,
             (map IR.regname (seq 1 (List.length prog))
              ++ map IR.regname (seq (S (List.length prog)) j))%list
             = map IR.regname (seq 1 (List.length prog + j))).
  { intros j. now rewrite <- map_app, <- seq_app. }
  unfold tail_instrs. destruct b.
  - simpl.
    rewrite <- (rev_involutive (_ ++ _)%list). apply NoDup_rev.
    rewrite rev_app_distr. simpl.
    constructor; [|apply NoDup_rev, regnames_nodup].
    rewrite <- in_rev. apply fmtptr_not_regname.
  - destruct (IRGen.is_immediate v).
    + destruct (int v) as [val|].
      * destruct (_ || _)%bool; simpl.
        -- replace (List.length prog + 1) with (S (List.length prog)) by lia.
           replace (S (List.length prog) + 1) with (S (S (List.length prog))) by lia.
           change (NoDup (map IR.regname (seq 1 (List.length prog))
                          ++ map IR.regname (seq (S (List.length prog)) 2))%list).
           rewrite (Hseq 2). apply regnames_nodup.
        -- rewrite app_nil_r. apply regnames_nodup.
      * simpl. rewrite app_nil_r. apply regnames_nodup.
    + simpl.
      replace (List.length prog + 1) with (S (List.length prog)) by lia.
      change (NoDup (map IR.regname (seq 1 (List.length prog))
                     ++ map IR.regname (seq (S (List.length prog)) 1))%list).
      rewrite (Hseq 1). apply regnames_nodup.
Qed.

Lemma no_register_is_defined_twice_witness :
  module_lines "-(3 + 4) / 2" true
  = Ok ["; ModuleID = 'tinyexpr'";
        "declare i32 @printf(i8*, ...)" ++ nl;
        "@.fmt = private unnamed_addr constant [6 x i8] c" ++ dquote
          ++ "%lld\0A\00" ++ dquote ++ nl;
        "define i32 @main() {"; "entry:";
        "  %t1 = add i64 3, 4"; "  %t2 = sub i64 0, %t1";
        "  %t3 = sdiv i64 %t2, 2";
        "  %fmtptr = getelementptr inbounds [6 x i8], [6 x i8]* @.fmt, i64 0, i64 0";
        "  call i32 (i8*, ...) @printf(i8* %fmtptr, i64 %t3)";
        "  ret i32 0"; "}"]
  /\ exists body,
       ["; ModuleID = 'tinyexpr'";
        "declare i32 @printf(i8*, ...)" ++ nl;
        "@.fmt = private unnamed_addr constant [6 x i8] c" ++ dquote
          ++ "%lld\0A\00" ++ dquote ++ nl;
        "define i32 @main() {"; "entry:";
        "  %t1 = add i64 3, 4"; "  %t2 = sub i64 0, %t1";
        "  %t3 = sdiv i64 %t2, 2";
        "  %fmtptr = getelementptr inbounds [6 x i8], [6 x i8]* @.fmt, i64 0, i64 0";
        "  call i32 (i8*, ...) @printf(i8* %fmtptr, i64 %t3)";
        "  ret i32 0"; "}"]
       = (header true ++ map IR.render body ++ ["}"])%list
       /\ NoDup (flat_map IR.def body).
Proof.
  split; [reflexivity|].
  apply (no_register_is_defined_twice "-(3 + 4) / 2" true). reflexivity.
Defined.

(** ** The two modes *)

Lemma gen_with_print_result (a : AST) (g : IRGen.t) (b : bool) :
  IRGen.gen a (with_print_result b g)
  = ('(v, g') <- IRGen.gen a g ;; Ok (v, with_print_result b g')).
Proof.
  revert g; induction a as [n|op l IHl r IHr|op e IHe]; intros g.
  - reflexivity.
  - cbn [IRGen.gen]. rewrite IHl.
    destruct (IRGen.gen l g) as [[va g1]|e1|]; cbn [bind]; try reflexivity.
    rewrite IHr.
    destruct (IRGen.gen r g1) as [[vb g2]|e2|]; cbn [bind]; try reflexivity.
    now destruct (IRGen.opmap op).
  - cbn [IRGen.gen]. rewrite IHe.
    destruct (IRGen.gen e g) as [[v g1]|e1|]; cbn [bind]; try reflexivity.
    destruct op; try reflexivity.
    destruct (IRGen.is_immediate v); [|reflexivity].
    now destruct (int v).
Qed.

(** X11: [gen] does not look at [print_result]: run in a generator
    that differs in that attribute only, it returns the same value and
    appends the same lines.  So the modules of the two modes hold the
    same arithmetic instructions and differ in the header and in the end
    of the body only, and a text fails in one mode exactly when it
    fails, with the same error, in the other. *)
Theorem modes_share_the_arithmetic :
  (forall a g b,
     IRGen.gen a (with_print_result b g)
     = ('(v, g') <- IRGen.gen a g ;; Ok (v, with_print_result b g')))
  /\ (forall text,
        match module_lines text true, module_lines text false with
        | Ok out1, Ok out2 =>
            exists prog v,
              out1 = (header true
                      ++ map IR.render
                           (prog ++ tail_instrs true (List.length prog) v)
                      ++ ["}"])%list
              /\ out2 = (header false
                         ++ map IR.render
                              (prog ++ tail_instrs false (List.length prog) v)
                         ++ ["}"])%list
        | Raise e1, Raise e2 => e1 = e2
        | _, _ => False
        end).
Proof.
  split; [exact gen_with_print_result|].
  intros text. unfold module_lines, gen_text.
  pose proof (parse_text_never_out_of_fuel text) as Hf.
  pose proof (parse_text_sound text) as Hs.
  destruct (parse_text text) as [a|e|]; cbn [bind];
    [|reflexivity|now elim Hf].
  destruct (Hs a eq_refl) as (ts & _ & Hg).
  pose proof (proj1 grammar_wf _ _ Hg) as Hwf.
  pose proof (build_spec a false) as Hb.
  pose proof (gen_with_print_result a (IRGen.init false) true) as Hm.
  change (with_print_result true (IRGen.init false)) with (IRGen.init true) in Hm.
  rewrite Hm.
  destruct (IRGen.gen a (IRGen.init false)) as [[v g]|e|];
    [|congruence|contradiction].
  destruct Hb as (_ & prog & Hl & Hr & _ & _ & Hv & Hout).
  cbn [bind]. rewrite Hout.
  rewrite out_lines_eq by discriminate.
  exists prog, v. split; [|reflexivity].
  change (IRGen.print_result (with_print_result true g)) with true.
  change (IRGen.lines (with_print_result true g)) with (IRGen.lines g).
  change (IRGen.reg (with_print_result true g)) with (IRGen.reg g).
  now rewrite Hl, Hr, map_app.
Qed.

(** X12: the body of every module is one block that ends in its only
    [ret]; the value returned is [0] in print mode, and in exit-code
    mode it is a register or an immediate that fits 32 bits (signed): a
    literal out of that range is never returned as such. *)
Theorem body_ends_in_its_only_ret
  (text : string) (b : bool) (out : list string) :
  module_lines text b = Ok out ->
  exists body v,
    out = (header b ++ map IR.render (body ++ [IR.Ret v]) ++ ["}"])%list
    /\ forallb (fun i => negb (is_ret i)) body = true
    /\ if b then v = "0"
       else (exists k, 0 < k /\ v = IR.regname k)
            \/ (exists val, v = str val /\ (- 2 ^ 31 <= val < 2 ^ 31)%Z).
Proof.
  intros H.
  apply module_lines_spec in H as (a & v & prog & _ & _ & Hc & _ & Hv & ->).
  pose proof (chain_no_ret _ _ Hc) as Hn.
  assert (Hi : IRGen.is_immediate v = true -> exists val, int v = Some val /\ v = str val).
  { destruct (has_binop a).
    - destruct Hv as [-> _]. now rewrite is_immediate_regname.
    - subst v. intros _. eexists. split; [apply int_str|reflexivity]. }
  unfold tail_instrs. destruct b.
  - exists (prog ++ [IR.FmtPtr; IR.Call v])%list, "0".
    split; [now rewrite <- app_assoc|].
    split; [|reflexivity]. rewrite forallb_app, Hn. reflexivity.
  - destruct (IRGen.is_immediate v) eqn:Him.
    + destruct (Hi eq_refl) as (val & -> & Hs).
      destruct (Z.ltb_spec val (- 2 ^ 31)) as [Hlo|Hlo];
        [|destruct (Z.geb_spec val (2 ^ 31)) as [Hhi|Hhi]]; cbn [orb].
      * eexists (prog ++ [_; _])%list, _.
        split; [now rewrite <- app_assoc|].
        split; [rewrite forallb_app, Hn; reflexivity|].
        left. eexists. split; [|reflexivity]. lia.
      * eexists (prog ++ [_; _])%list, _.
        split; [now rewrite <- app_assoc|].
        split; [rewrite forallb_app, Hn; reflexivity|].
        left. eexists. split; [|reflexivity]. lia.
      * exists prog, (str val). split; [reflexivity|]. split; [assumption|].
        right. exists val. split; [reflexivity|lia].
    + eexists (prog ++ [_])%list, _.
      split; [now rewrite <- app_assoc|].
      split; [rewrite forallb_app, Hn; reflexivity|].
      left. eexists. split; [|reflexivity]. lia.
Qed.

Lemma body_ends_in_its_only_ret_witness :
  module_lines "0-2147483649" false
  = Ok ["; ModuleID = 'tinyexpr'"; "define i32 @main() {"; "entry:";
        "  %t1 = sub i64 0, 2147483649"; "  %t2 = trunc i64 %t1 to i32";
        "  ret i32 %t2"; "}"]
  /\ exists body v,
       ["; ModuleID = 'tinyexpr'"; "define i32 @main() {"; "entry:";
        "  %t1 = sub i64 0, 2147483649"; "  %t2 = trunc i64 %t1 to i32";
        "  ret i32 %t2"; "}"]
       = (header false ++ map IR.render (body ++ [IR.Ret v]) ++ ["}"])%list
       /\ forallb (fun i => negb (is_ret i)) body = true
       /\ ((exists k, 0 < k /\ v = IR.regname k)
           \/ (exists val, v = str val /\ (- 2 ^ 31 <= val < 2 ^ 31)%Z)).
Proof.
  split; [reflexivity|].
  apply (body_ends_in_its_only_ret "0-2147483649" false). reflexivity.
Defined.

(** ** Literals of the tree *)

Lemma tokens_loop_not_negative (n : nat) (lx : Lexer.t) (ts : list Token) :
  lexer_ok lx -> tokens_loop n lx = Some ts ->
  forallb token_not_negative ts = true.
Proof.
  revert lx ts; induction n as [|n IH]; intros lx ts Hok H; [discriminate|].
  simpl in H. pose proof (get_next_token_ok lx Hok) as Hok'.
  destruct (get_next_token_unread lx Hok) as (A & _).
  destruct (Lexer.get_next_token lx) as [r lx'] eqn:E. simpl in Hok', A.
  destruct r as [tok|e|]; [|discriminate..].
  assert (Htok : token_not_negative tok = true).
  { destruct tok as [|m| | | | | |]; try reflexivity.
    destruct (skip_spaces (unread lx)) as [|c s'] eqn:Es.
    - unfold next_token in A. rewrite Es in A. discriminate.
    - destruct (isdigit c) eqn:Hc.
      + rewrite (next_token_digit _ _ _ Es Hc) in A. cbn [fst] in A.
        rewrite (digit_run_cons _ _ Hc) in A. cbn [fst] in A.
        pose proof (int_digit_run c (fst (digit_run s')) Hc) as Hi.
        destruct (int (String c (fst (digit_run s')))); [|discriminate].
        injection A as ->. simpl. apply Z.leb_le. apply Hi.
      + pose proof (next_token_other _ _ _ Es Hc) as Ho.
        rewrite <- A in Ho. contradiction. }
  destruct (tokens_loop n lx') as [ts'|] eqn:E'.
  - destruct tok; simpl in H; injection H as <-; try reflexivity;
      simpl in *; rewrite ?Htok; now apply (IH lx').
  - destruct tok; simpl in H; try discriminate. now injection H as <-.
Qed.

Lemma grammar_not_negative :
  (forall ts a, GExpr ts a ->
     forallb token_not_negative ts = true -> literals_not_negative a = true)
  /\ (forall ts a, GTerm ts a ->
        forallb token_not_negative ts = true -> literals_not_negative a = true)
  /\ (forall ts a, GFactor ts a ->
        forallb token_not_negative ts = true -> literals_not_negative a = true).
Proof.
  apply grammar_mutind; intros; simpl in *;
    rewrite ?forallb_app in *; simpl in *;
    repeat match goal with
           | H : _ && _ = true |- _ => apply andb_prop in H as [? ?]
           end;
    rewrite ?andb_true_r in *; auto using andb_true_intro.
Qed.

(** X13: the parser never builds a negative literal: the lexer reads a
    ['-'] as a token of its own, so every [Number] of a tree returned by
    [parse] holds zero or more, and a negative immediate in the module
    comes from folding a unary minus only. *)
Theorem parsed_literals_are_not_negative (text : string) (a : AST) :
  parse_text text = Ok a -> literals_not_negative a = true.
Proof.
  intros H. apply parse_text_sound in H as (ts & Ht & Hg).
  apply (proj1 grammar_not_negative ts a Hg).
  apply (tokens_loop_not_negative _ _ _ (init_ok text) Ht).
Qed.

Lemma parsed_literals_are_not_negative_witness :
  parse_text "-5 - 3" = Ok (BinOp MINUS (UnaryOp MINUS (Number 5)) (Number 3))
  /\ literals_not_negative (BinOp MINUS (UnaryOp MINUS (Number 5)) (Number 3))
     = true.
Proof.
  split; [reflexivity|].
  exact (parsed_literals_are_not_negative "-5 - 3" _ eq_refl).
Defined.

Lemma lexer_is_a_forward_cursor_witness :
  Lexer.text (calls 2 (Lexer.init "12 + &")) = "12 + &"
  /\ Lexer.pos (calls 2 (Lexer.init "12 + &")) = 4
  /\ Lexer.pos (calls 2 (Lexer.init "12 + &"))
     <= Lexer.pos (calls (2 + 3) (Lexer.init "12 + &"))
  /\ forall i c, i < Lexer.pos (calls 2 (Lexer.init "12 + &")) ->
       String.get i "12 + &" = Some c -> known_char c = true.
Proof.
  split; [reflexivity|]. split; [reflexivity|].
  pose proof (lexer_is_a_forward_cursor "12 + &" 2 3) as (_ & _ & _ & H1 & H2).
  split; [exact H1|exact H2].
Defined.


(** ** Command line *)



(** X15: [main] does not depend on white space around the expression
    in the input file: with the same arguments and the same behaviour of
    the output file, an input file that holds the text between two runs
    of [isspace] characters has the outcome of the file that holds the
    text alone: the same exit status and message, or the same file
    content. *)
Theorem main_ignores_surrounding_white_space
  (fs1 fs2 : files) (args : Args.t) (w1 text w2 : string) :
  all_chars isspace w1 = true -> all_chars isspace w2 = true ->
  read_text fs1 (Args.input args) = inl text ->
  read_text fs2 (Args.input args) = inl (w1 ++ text ++ w2) ->
  (forall content, write_text fs2 (Args.output args) content
                   = write_text fs1 (Args.output args) content) ->
  main fs2 args = main fs1 args.
Proof.
  intros H1 H2 R1 R2 W. unfold main. rewrite R1, R2.
  assert (E : compile_to_ir (w1 ++ text ++ w2) (negb (Args.retcode args))
              = compile_to_ir text (negb (Args.retcode args))).
  { symmetry.
    apply (compile_sim same_up_to_spaces same_up_to_spaces_simulation).
    split; [apply init_ok|]. split; [apply init_ok|].
    exists w2. split; [assumption|].
    rewrite !unread_init. now apply skip_spaces_app_l. }
  rewrite E.
  destruct (compile_to_ir text (negb (Args.retcode args))); try reflexivity.
  now rewrite W.
Qed.

Lemma main_ignores_surrounding_white_space_witness :
  (all_chars isspace " " = true /\ all_chars isspace (String "010" "") = true)
  /\ main (mk_files (fun _ => inl (" " ++ "7" ++ String "010" "")) (fun _ _ => None))
          (Args.mk "expr.txt" "out.ll" true)
     = main (mk_files (fun _ => inl "7") (fun _ _ => None))
            (Args.mk "expr.txt" "out.ll" true)
  /\ main (mk_files (fun _ => inl "7") (fun _ _ => None))
          (Args.mk "expr.txt" "out.ll" true)
     = Wrote "out.ll"
         (String.concat nl ["; ModuleID = 'tinyexpr'"; "define i32 @main() {";
                            "entry:"; "  ret i32 7"; "}"] ++ nl)
         "Wrote LLVM IR to out.ll".
Proof.
  split; [split; reflexivity|]. split; [|reflexivity].
  exact (main_ignores_surrounding_white_space
           (mk_files (fun _ => inl "7") (fun _ _ => None))
           (mk_files (fun _ => inl (" " ++ "7" ++ String "010" "")) (fun _ _ => None))
           (Args.mk "expr.txt" "out.ll" true) " " "7" (String "010" "")
           eq_refl eq_refl eq_refl eq_refl (fun _ => eq_refl)).
Defined.

(** ** The value the module computes *)

Lemma exec_app (e : IR.env) (p q : list IR.instr) :
  exec e (p ++ q)%list
  = match exec e p with
    | Some e' => exec e' q
    | None => None
    end.
Proof.
  revert e; induction p as [|i p IH]; intros e; simpl; [reflexivity|].
  destruct i; auto.
  - destruct (IR.operand 64 e a), (IR.operand 64 e b); try reflexivity.
    destruct (IR.arith op z z0); auto.
  - destruct (IR.operand 64 e src); auto.
Qed.

Lemma value_after_exec (e : IR.env) (prog : list IR.instr) (v : string) :
  IR.value_after e prog v
  = match exec e prog with
    | Some e' => IR.operand 64 e' v
    | None => None
    end.
Proof.
  revert e; induction prog as [|i p IH]; intros e; simpl; [reflexivity|].
  destruct i; auto.
  - destruct (IR.operand 64 e a), (IR.operand 64 e b); try reflexivity.
    destruct (IR.arith op z z0); auto.
  - destruct (IR.operand 64 e src); auto.
Qed.

Lemma run_exec (e : IR.env) (p q : list IR.instr) :
  forallb is_bin p = true ->
  IR.run e (p ++ q)%list
  = match exec e p with
    | Some e' => IR.run e' q
    | None => None
    end.
Proof.
  revert e; induction p as [|i p IH]; intros e; simpl; [reflexivity|].
  destruct i; try discriminate. intros H.
  destruct (IR.operand 64 e a), (IR.operand 64 e b); try reflexivity.
  destruct (IR.arith op z z0); auto.
Qed.

Lemma operand_immediate (bits : Z) (e : IR.env) (n : Z) :
  IR.operand bits e (str n) = Some (IR.wrap bits n).
Proof. unfold IR.operand. now rewrite is_immediate_str, int_str. Qed.

Lemma operand_regname (bits : Z) (e : IR.env) (k : nat) :
  IR.operand bits e (IR.regname k) = IR.lookup (IR.regname k) e.
Proof. unfold IR.operand. now rewrite is_immediate_regname. Qed.

Lemma regname_eqb (j k : nat) :
  j <> k -> String.eqb (IR.regname j) (IR.regname k) = false.
Proof.
  intros H. apply String.eqb_neq. intros E. now apply regname_inj in E.
Qed.

Lemma agree_refl (k : nat) (e : IR.env) : agree k e e.
Proof. now intros j _. Qed.

Lemma agree_push (k k' : nat) (e e' : IR.env) (x : Z) :
  agree k e e' -> k < k' -> agree k e ((IR.regname k', x) :: e').
Proof.
  intros H Hk j Hj. cbn [IR.lookup]. rewrite regname_eqb by lia. now apply H.
Qed.

Lemma agree_trans (k k' : nat) (e1 e2 e3 : IR.env) :
  agree k e1 e2 -> agree k' e2 e3 -> k <= k' -> agree k e1 e3.
Proof.
  intros H1 H2 Hk j Hj. rewrite H2 by lia. now apply H1.
Qed.

Lemma operand_agree (k : nat) (e e' : IR.env) (o : string) :
  operand_ok k o -> agree k e e' -> IR.operand 64 e' o = IR.operand 64 e o.
Proof.
  intros [Hi|(j & Hj & ->)] Ha.
  - unfold IR.operand. now rewrite Hi.
  - rewrite !operand_regname. apply Ha. lia.
Qed.

Lemma wrap64_neg (n : Z) : IR.wrap 64 (0 - IR.wrap 64 n) = IR.wrap 64 (- n).
Proof.
  unfold IR.wrap.
  change (2 ^ (64 - 1))%Z with 9223372036854775808%Z.
  change (2 ^ 64)%Z with 18446744073709551616%Z.
  Z.div_mod_to_equations. lia.
Qed.

Lemma wrap64_idem (n : Z) : IR.wrap 64 (IR.wrap 64 n) = IR.wrap 64 n.
Proof.
  unfold IR.wrap.
  change (2 ^ (64 - 1))%Z with 9223372036854775808%Z.
  change (2 ^ 64)%Z with 18446744073709551616%Z.
  Z.div_mod_to_equations. lia.
Qed.

(** The value [gen] returns is an operand over the registers defined so
    far. *)
Lemma gen_operand (a : AST) (g g' : IRGen.t) (v : string) :
  IRGen.gen a g = Ok (v, g') ->
  operand_ok (IRGen.reg g') v /\ IRGen.reg g <= IRGen.reg g'.
Proof.
  intros H. pose proof (gen_spec a g) as Hs. rewrite H in Hs.
  destruct Hs as (_ & _ & prog & _ & Hr & _ & _ & Hv).
  split; [|lia]. destruct (has_binop a).
  - destruct Hv as [-> Hp]. right. exists (IRGen.reg g'). split; [lia|reflexivity].
  - subst v. left. apply is_immediate_str.
Qed.

(** [gen] appends arithmetic instructions that leave the value of the
    tree in the operand it returns, and fault when the tree has no value;
    the registers defined before are not touched. *)
Lemma gen_sem (a : AST) :
  forall g v g',
    IRGen.gen a g = Ok (v, g') ->
    exists prog,
      IRGen.lines g' = (IRGen.lines g ++ map IR.render prog)%list
      /\ IRGen.reg g' = IRGen.reg g + List.length prog
      /\ forallb is_bin prog = true
      /\ forall e,
           match eval a with
           | Some x =>
               exists e', exec e prog = Some e'
                          /\ IR.operand 64 e' v = Some x
                          /\ agree (IRGen.reg g) e e'
           | None => exec e prog = None
           end.
Proof.
  induction a as [n|op l IHl r IHr|op a IHa]; intros g v g' H.
  - injection H as <- <-. exists []. rewrite app_nil_r, Nat.add_0_r.
    split; [reflexivity|]. split; [reflexivity|]. split; [reflexivity|].
    intros e. exists e. split; [reflexivity|].
    split; [apply operand_immediate|apply agree_refl].
  - cbn [IRGen.gen] in H.
    destruct (IRGen.gen l g) as [[va g1]|?|] eqn:El; try discriminate.
    cbn [bind] in H.
    destruct (IRGen.gen r g1) as [[vb g2]|?|] eqn:Er; try discriminate.
    cbn [bind] in H.
    destruct (IRGen.opmap op) as [o|?|] eqn:Eo; try discriminate.
    cbn [bind] in H. rewrite emit_bin_eq in H. injection H as <- <-.
    destruct (IHl _ _ _ El) as (p1 & L1 & R1 & B1 & S1).
    destruct (IHr _ _ _ Er) as (p2 & L2 & R2 & B2 & S2).
    destruct (gen_operand _ _ _ _ El) as [Oa _].
    exists (p1 ++ p2 ++ [IR.Bin (IR.regname (S (IRGen.reg g2))) o va vb])%list.
    cbn [IRGen.lines IRGen.reg].
    split; [rewrite L2, L1, !map_app, <- !app_assoc; reflexivity|].
    split; [rewrite R2, R1, !length_app; simpl; lia|].
    split; [rewrite !forallb_app, B1, B2; reflexivity|].
    intros e. cbn [eval]. rewrite Eo, exec_app.
    specialize (S1 e).
    destruct (eval l) as [x|]; [|now rewrite S1].
    destruct S1 as (e1 & -> & Vx & A1). specialize (S2 e1).
    rewrite exec_app.
    destruct (eval r) as [y|]; [|now rewrite S2].
    destruct S2 as (e2 & -> & Vy & A2).
    cbn [exec]. rewrite (operand_agree _ _ _ _ Oa A2), Vx, Vy.
    destruct (IR.arith o x y) as [z|]; [|reflexivity].
    eexists. split; [reflexivity|].
    split; [rewrite operand_regname; simpl; now rewrite String.eqb_refl|].
    apply agree_push; [|lia].
    apply (agree_trans _ _ _ _ _ A1 A2). lia.
  - cbn [IRGen.gen] in H.
    destruct (IRGen.gen a g) as [[va g1]|?|] eqn:Ea; try discriminate.
    cbn [bind] in H.
    destruct (IHa _ _ _ Ea) as (p1 & L1 & R1 & B1 & S1).
    destruct op; try discriminate.
    + injection H as <- <-. exists p1.
      split; [assumption|]. split; [assumption|]. split; [assumption|].
      intros e. cbn [eval]. apply S1.
    + destruct (IRGen.is_immediate va) eqn:Hi.
      * destruct (int va) as [n|] eqn:En; [|discriminate].
        injection H as <- <-. exists p1.
        split; [assumption|]. split; [assumption|]. split; [assumption|].
        intros e. cbn [eval]. specialize (S1 e).
        destruct (eval a) as [x|]; [|assumption].
        destruct S1 as (e1 & E1 & Vx & A1). exists e1.
        split; [assumption|]. split; [|assumption].
        rewrite operand_immediate.
        unfold IR.operand in Vx. rewrite Hi, En in Vx. injection Vx as <-.
        now rewrite wrap64_neg.
      * rewrite emit_bin_eq in H. injection H as <- <-.
        exists (p1 ++ [IR.Bin (IR.regname (S (IRGen.reg g1))) "sub" "0" va])%list.
        cbn [IRGen.lines IRGen.reg].
        split; [rewrite L1, map_app, <- app_assoc; reflexivity|].
        split; [rewrite R1, length_app; simpl; lia|].
        split; [rewrite forallb_app, B1; reflexivity|].
        intros e. cbn [eval]. rewrite exec_app. specialize (S1 e).
        destruct (eval a) as [x|]; [|now rewrite S1].
        destruct S1 as (e1 & -> & Vx & A1).
        cbn [exec]. rewrite Vx.
        change (IR.operand 64 e1 "0") with (Some 0%Z).
        change (IR.arith "sub" 0 x) with (Some (IR.wrap 64 (0 - x))).
        eexists. split; [reflexivity|].
        split; [rewrite operand_regname; simpl; now rewrite String.eqb_refl|].
        apply agree_push; [assumption|lia].
Qed.

Lemma run_wide (e : IR.env) (val : Z) (r : nat) :
  IR.run e [ IR.Bin (IR.regname (r + 1)) "add" "0" (str val);
             IR.Trunc (IR.regname (r + 1 + 1)) (IR.regname (r + 1));
             IR.Ret (IR.regname (r + 1 + 1)) ]
  = Some (IR.wrap 32 val).
Proof.
  cbn [IR.run]. rewrite operand_immediate.
  change (IR.operand 64 e "0") with (Some 0%Z). cbv beta iota.
  change (IR.arith "add" 0 (IR.wrap 64 val))
    with (Some (IR.wrap 64 (0 + IR.wrap 64 val))). cbv beta iota.
  rewrite operand_regname. cbn [IR.lookup]. rewrite String.eqb_refl.
  rewrite operand_regname. cbn [IR.lookup]. rewrite String.eqb_refl.
  rewrite Z.add_0_l, wrap64_idem. now rewrite wrap32_wrap64.
Qed.

Lemma run_narrow (e : IR.env) (v : string) (x : Z) (r : nat) :
  IR.operand 64 e v = Some x ->
  IR.run e [IR.Trunc (IR.regname (r + 1)) v; IR.Ret (IR.regname (r + 1))]
  = Some (IR.wrap 32 x).
Proof.
  intros H. cbn [IR.run]. rewrite H, operand_regname. cbn [IR.lookup].
  now rewrite String.eqb_refl.
Qed.

(** X16: the module computes the expression.  For every text that is
    compiled, the instructions of the body, run in the 64-bit arithmetic
    of LLVM, give the value of the tree the parser returns: in print
    mode the operand of the [call] of [printf] holds that value, in
    exit-code mode the value returned is that value truncated to 32
    bits; and the body faults exactly when the expression has no value
    (it divides by zero, or the least integer by minus one): no check of
    a divisor is emitted. *)
Theorem compiled_code_computes_the_expression
  (text : string) (b : bool) (out : list string) :
  module_lines text b = Ok out ->
  exists a body v,
    parse_text text = Ok a
    /\ out = (header b ++ map IR.render body ++ ["}"])%list
    /\ if b then In (IR.Call v) body /\ IR.value_after [] body v = eval a
       else IR.run [] body = option_map (IR.wrap 32) (eval a).
Proof.
  unfold module_lines, gen_text. intros H.
  destruct (parse_text text) as [a|?|]; try discriminate. cbn [bind] in H.
  destruct (IRGen.gen a (IRGen.init b)) as [[v g]|?|] eqn:Eg; try discriminate.
  cbn [bind] in H.
  destruct (gen_sem a _ _ _ Eg) as (prog & L & R & B & S).
  pose proof (gen_spec a (IRGen.init b)) as Hs. rewrite Eg in Hs.
  destruct Hs as (_ & Hp & prog0 & _ & _ & _ & _ & Hv).
  change (IRGen.print_result (IRGen.init b)) with b in Hp.
  change (IRGen.lines (IRGen.init b)) with (@nil string) in L.
  change (IRGen.reg (IRGen.init b)) with 0 in R.
  cbn [app Nat.add] in L, R.
  assert (Hi : IRGen.is_immediate v = true -> exists val, int v = Some val).
  { destruct (has_binop a).
    - destruct Hv as [-> _]. now rewrite is_immediate_regname.
    - subst v. intros _. eexists. apply int_str. }
  rewrite out_lines_eq in H.
  2:{ intros _ Him. destruct (Hi Him) as [val ->]. discriminate. }
  injection H as <-. rewrite Hp, L, R, <- map_app.
  exists a, (prog ++ tail_instrs b (List.length prog) v)%list, v.
  split; [reflexivity|]. split; [reflexivity|].
  specialize (S []). unfold tail_instrs. destruct b.
  - split; [apply in_or_app; right; simpl; auto|].
    rewrite value_after_exec, exec_app.
    destruct (eval a) as [x|]; [|now rewrite S].
    destruct S as (e' & -> & Vx & _). exact Vx.
  - rewrite (run_exec _ _ _ B).
    destruct (eval a) as [x|]; [|now rewrite S].
    destruct S as (e' & -> & Vx & _). cbn [option_map].
    destruct (IRGen.is_immediate v) eqn:Him.
    + destruct (Hi eq_refl) as [val En]. rewrite En.
      unfold IR.operand in Vx. rewrite Him, En in Vx. injection Vx as <-.
      rewrite wrap32_wrap64.
      destruct (_ || _)%bool; [apply run_wide|].
      cbn [IR.run]. apply operand_immediate.
    + now apply run_narrow.
Qed.

Lemma compiled_code_computes_the_expression_witness :
  module_lines "7 / (2 - 2)" false
  = Ok ["; ModuleID = 'tinyexpr'"; "define i32 @main() {"; "entry:";
        "  %t1 = sub i64 2, 2"; "  %t2 = sdiv i64 7, %t1";
        "  %t3 = trunc i64 %t2 to i32"; "  ret i32 %t3"; "}"]
  /\ eval (BinOp DIV (Number 7) (BinOp MINUS (Number 2) (Number 2))) = None
  /\ exists (a : AST) (body : list IR.instr) (v : string),
       parse_text "7 / (2 - 2)" = Ok a
       /\ ["; ModuleID = 'tinyexpr'"; "define i32 @main() {"; "entry:";
           "  %t1 = sub i64 2, 2"; "  %t2 = sdiv i64 7, %t1";
           "  %t3 = trunc i64 %t2 to i32"; "  ret i32 %t3"; "}"]
          = (header false ++ map IR.render body ++ ["}"])%list
       /\ IR.run [] body = option_map (IR.wrap 32) (eval a).
Proof.
  split; [reflexivity|]. split; [reflexivity|].
  apply (compiled_code_computes_the_expression "7 / (2 - 2)" false). reflexivity.
Defined.

(** ** The parser and the grammar *)


